(** * boltseq: a bucket that tracks the insertion order of its keys

    Shallow embedding of the Go package [boltseq] (bucket and cursor files)
    together with a model of the part of the underlying store (bolt) that the
    package calls: buckets as key-ordered entry lists with a 64-bit sequence
    counter, and cursors as positions in such a list. *)

From Stdlib Require Import ZArith NArith List Bool Lia Strings.Byte Sorting.Sorted.
Import ListNotations.
Local Open Scope Z_scope.

(** ** Byte strings *)

(** A Go [[]byte].  Where the source tells nil from non-nil slices the
    embedding uses [option bytes], with [None] for nil. *)
Definition bytes := list byte.

Definition byte_to_Z (b : byte) : Z := Z.of_N (Byte.to_N b).

(** Go's conversion [byte(x)] of an unsigned integer: the low eight bits. *)
Definition byte_of_Z (z : Z) : byte :=
  match Byte.of_N (Z.to_N (Z.land z 255)) with
  | Some b => b
  | None => x00
  end.

(** [bytes.Compare]: lexicographic order on byte strings. *)
Fixpoint bytes_compare (a b : bytes) : comparison :=
  match a, b with
  | [], [] => Eq
  | [], _ :: _ => Lt
  | _ :: _, [] => Gt
  | x :: a', y :: b' =>
      match N.compare (Byte.to_N x) (Byte.to_N y) with
      | Eq => bytes_compare a' b'
      | c => c
      end
  end.

Definition bytes_eqb (a b : bytes) : bool :=
  match bytes_compare a b with Eq => true | _ => false end.

Definition bytes_lt (a b : bytes) : Prop := bytes_compare a b = Lt.

(** The contents of a possibly nil slice. *)
Definition content (s : option bytes) : bytes :=
  match s with Some l => l | None => [] end.

(** [bytes.Equal]: a nil argument is equivalent to an empty slice. *)
Definition bytes_Equal (a b : option bytes) : bool :=
  bytes_eqb (content a) (content b).

(** ** encoding/binary, big endian *)

Definition uint64_max : Z := 2 ^ 64 - 1.

(** [binary.BigEndian.PutUint64(b, v)] on a fresh 8-byte slice. *)
Definition PutUint64 (v : Z) : bytes :=
  [ byte_of_Z (Z.shiftr v 56); byte_of_Z (Z.shiftr v 48);
    byte_of_Z (Z.shiftr v 40); byte_of_Z (Z.shiftr v 32);
    byte_of_Z (Z.shiftr v 24); byte_of_Z (Z.shiftr v 16);
    byte_of_Z (Z.shiftr v 8);  byte_of_Z v ].

(** [binary.BigEndian.Uint64(b)]; it reads [b[7]] first, which panics
    ([None]) on a slice shorter than 8 bytes. *)
Definition Uint64 (b : bytes) : option Z :=
  match b with
  | b0 :: b1 :: b2 :: b3 :: b4 :: b5 :: b6 :: b7 :: _ =>
      Some (Z.lor (byte_to_Z b7)
           (Z.lor (Z.shiftl (byte_to_Z b6) 8)
           (Z.lor (Z.shiftl (byte_to_Z b5) 16)
           (Z.lor (Z.shiftl (byte_to_Z b4) 24)
           (Z.lor (Z.shiftl (byte_to_Z b3) 32)
           (Z.lor (Z.shiftl (byte_to_Z b2) 40)
           (Z.lor (Z.shiftl (byte_to_Z b1) 48)
                  (Z.shiftl (byte_to_Z b0) 56))))))))
  | _ => None
  end.

(** ** Value: sequence number followed by data *)

(** [newValue]: [make([]byte, 8+len(val))], the sequence number in the first
    eight bytes, [val] copied behind it. *)
Definition newValue (seq : Z) (val : bytes) : bytes :=
  PutUint64 seq ++ val.

Module Value.

(** [type Value []byte] *)
Definition t := bytes.

Definition IsValid (v : t) : bool := (8 <=? length v)%nat.

(** [v[8:]] and [v[:8]] panic on a slice shorter than 8 bytes: [None]. *)
Definition Data (v : t) : option bytes :=
  if IsValid v then Some (skipn 8 v) else None.

Definition seqBytes (v : t) : option bytes :=
  if IsValid v then Some (firstn 8 v) else None.

Definition Seq (v : t) : option Z :=
  match seqBytes v with
  | Some b => Uint64 b
  | None => None
  end.

End Value.

(** ** Errors *)

(** The three errors of the package, and the errors of the store that its
    calls can return inside an open transaction. *)
Inductive error : Type :=
| ErrInvalidValue
| ErrInvalidBucket
| ErrInvalidKey
| ErrTxNotWritable
| ErrKeyRequired
| ErrKeyTooLarge
| ErrValueTooLarge.

(** ** The store

    A bolt bucket is a key-ordered collection of entries with a 64-bit
    sequence counter.  A [Location] (a transaction or a bucket) holds the two
    sub-buckets of the package and tells whether the transaction is
    writable. *)

Definition entry := (bytes * bytes)%type.

Record BoltBucket := mkBucket { entries : list entry; sequence : Z }.

Inductive bucketName := bucketNameData | bucketNameSeq.

Record Location := mkLocation {
  writable : bool;
  dataBucket : option BoltBucket;
  seqBucket : option BoltBucket
}.

Definition MaxKeySize : Z := 32768.
Definition MaxValueSize : Z := 2 ^ 31 - 2.

(** Index of the first entry whose key is not below [key]. *)
Fixpoint search (key : bytes) (l : list entry) : nat :=
  match l with
  | [] => O
  | (k, _) :: l' =>
      match bytes_compare k key with
      | Lt => S (search key l')
      | _ => O
      end
  end.

Fixpoint kv_get (key : bytes) (l : list entry) : option bytes :=
  match l with
  | [] => None
  | (k, v) :: l' =>
      match bytes_compare k key with
      | Lt => kv_get key l'
      | Eq => Some v
      | Gt => None
      end
  end.

Fixpoint kv_put (key value : bytes) (l : list entry) : list entry :=
  match l with
  | [] => [(key, value)]
  | (k, v) :: l' =>
      match bytes_compare k key with
      | Lt => (k, v) :: kv_put key value l'
      | Eq => (key, value) :: l'
      | Gt => (key, value) :: (k, v) :: l'
      end
  end.

Fixpoint kv_del (key : bytes) (l : list entry) : list entry :=
  match l with
  | [] => []
  | (k, v) :: l' =>
      match bytes_compare k key with
      | Lt => (k, v) :: kv_del key l'
      | Eq => l'
      | Gt => (k, v) :: l'
      end
  end.

(** Keys strictly ascending: the representation invariant of a bucket. *)
Definition sorted (l : list entry) : Prop :=
  StronglySorted bytes_lt (map fst l).

(** *** Computations on a location

    A call either returns a result and the new contents of the location, or
    panics (nil dereference, slice out of range). *)

Inductive outcome (A : Type) : Type :=
| Return (a : A) (st : Location)
| Panic.
Arguments Return {A} a st.
Arguments Panic {A}.

Definition M (A : Type) : Type := Location -> outcome A.

Definition ret {A} (a : A) : M A := fun st => Return a st.

Definition bind {A B} (m : M A) (f : A -> M B) : M B :=
  fun st =>
    match m st with
    | Return a st' => f a st'
    | Panic => Panic
    end.

Definition panic {A} : M A := fun _ => Panic.

Notation "x <- m ;; f" := (bind m (fun x => f))
  (at level 61, m at next level, right associativity).
Notation "' p <- m ;; f" := (bind m (fun x => let p := x in f))
  (at level 61, p pattern, m at next level, right associativity).

(** A value that the source takes without a check: absent means a panic. *)
Definition must {A} (o : option A) : M A :=
  match o with
  | Some a => ret a
  | None => panic
  end.

Definition get_bucket (n : bucketName) (st : Location) : option BoltBucket :=
  match n with
  | bucketNameData => dataBucket st
  | bucketNameSeq => seqBucket st
  end.

Definition set_bucket (n : bucketName) (b : BoltBucket) (st : Location) : Location :=
  match n with
  | bucketNameData => mkLocation (writable st) (Some b) (seqBucket st)
  | bucketNameSeq => mkLocation (writable st) (dataBucket st) (Some b)
  end.

(** The bucket behind a non-nil bolt bucket pointer. *)
Definition deref (n : bucketName) : M BoltBucket :=
  fun st => must (get_bucket n st) st.

Definition is_writable : M bool := fun st => Return (writable st) st.

Definition store (n : bucketName) (b : BoltBucket) : M unit :=
  fun st => Return tt (set_bucket n b st).

(** [loc.Bucket(name)]: the sub-bucket, nil when it does not exist. *)
Definition loc_Bucket (n : bucketName) : M (option bucketName) :=
  fun st =>
    match get_bucket n st with
    | Some _ => Return (Some n) st
    | None => Return None st
    end.

(** [loc.CreateBucketIfNotExists(name)] *)
Definition CreateBucketIfNotExists (n : bucketName) : M (bucketName + error) :=
  w <- is_writable ;;
  if negb w then ret (inr ErrTxNotWritable)
  else
    b <- loc_Bucket n ;;
    match b with
    | Some h => ret (inl h)
    | None => _ <- store n (mkBucket [] 0) ;; ret (inl n)
    end.

(** [bolt.Bucket.Get]: nil when the key does not exist. *)
Definition bolt_Get (h : bucketName) (key : bytes) : M (option bytes) :=
  b <- deref h ;;
  ret (kv_get key (entries b)).

(** [bolt.Bucket.Put] *)
Definition bolt_Put (h : bucketName) (key value : bytes) : M (option error) :=
  b <- deref h ;;
  w <- is_writable ;;
  if negb w then ret (Some ErrTxNotWritable)
  else if (length key =? 0)%nat then ret (Some ErrKeyRequired)
  else if Z.of_nat (length key) >? MaxKeySize then ret (Some ErrKeyTooLarge)
  else if Z.of_nat (length value) >? MaxValueSize then ret (Some ErrValueTooLarge)
  else
    _ <- store h (mkBucket (kv_put key value (entries b)) (sequence b)) ;;
    ret None.

(** [bolt.Bucket.Delete]: nothing is done when the key does not exist. *)
Definition bolt_Delete (h : bucketName) (key : bytes) : M (option error) :=
  b <- deref h ;;
  w <- is_writable ;;
  if negb w then ret (Some ErrTxNotWritable)
  else
    _ <- store h (mkBucket (kv_del key (entries b)) (sequence b)) ;;
    ret None.

(** [bolt.Bucket.NextSequence]: the counter is a [uint64] and is
    incremented with wrap-around. *)
Definition bolt_NextSequence (h : bucketName) : M (Z * option error) :=
  b <- deref h ;;
  w <- is_writable ;;
  if negb w then ret (0, Some ErrTxNotWritable)
  else
    let s := (sequence b + 1) mod 2 ^ 64 in
    _ <- store h (mkBucket (entries b) s) ;;
    ret (s, None).

(** *** Store cursors

    A bolt cursor is a position in the entry list of its bucket; a cursor
    that was never moved, or that ran off the front, has no position. *)

Record boltCursor := mkBoltCursor { bucket : bucketName; stack : option nat }.

Definition bolt_Cursor (h : bucketName) : boltCursor := mkBoltCursor h None.

Definition at_index (c : boltCursor) (i : nat) (l : list entry)
  : option entry * boltCursor :=
  (nth_error l i, mkBoltCursor (bucket c) (Some i)).

Definition bolt_First (c : boltCursor) : M (option entry * boltCursor) :=
  b <- deref (bucket c) ;;
  ret (at_index c O (entries b)).

Definition bolt_Last (c : boltCursor) : M (option entry * boltCursor) :=
  b <- deref (bucket c) ;;
  ret (at_index c (length (entries b) - 1) (entries b)).

Definition bolt_Next (c : boltCursor) : M (option entry * boltCursor) :=
  b <- deref (bucket c) ;;
  match stack c with
  | None => ret (None, c)
  | Some i =>
      if (S i <? length (entries b))%nat then ret (at_index c (S i) (entries b))
      else ret (None, c)
  end.

Definition bolt_Prev (c : boltCursor) : M (option entry * boltCursor) :=
  b <- deref (bucket c) ;;
  match stack c with
  | None => ret (None, c)
  | Some O => ret (None, mkBoltCursor (bucket c) None)
  | Some (S i) => ret (at_index c i (entries b))
  end.

(** [bolt.Cursor.Seek]: the first entry whose key is not below [key]. *)
Definition bolt_Seek (c : boltCursor) (key : bytes)
  : M (option entry * boltCursor) :=
  b <- deref (bucket c) ;;
  ret (at_index c (search key (entries b)) (entries b)).

(** [bolt.Cursor.Delete]: removes the entry under the cursor. *)
Definition bolt_CursorDelete (c : boltCursor) : M (option error) :=
  b <- deref (bucket c) ;;
  w <- is_writable ;;
  if negb w then ret (Some ErrTxNotWritable)
  else
    i <- must (stack c) ;;
    match nth_error (entries b) i with
    | Some (k, _) =>
        _ <- store (bucket c) (mkBucket (kv_del k (entries b)) (sequence b)) ;;
        ret None
    | None => ret None
    end.

(** ** pointer: the cached position in the data bucket *)

Module pointer.

(** [type pointer struct]: the store cursor, nil when the data bucket does
    not exist, and the key and value of the last seek. *)
Record t := mk {
  c : option boltCursor;
  key : option bytes;
  val : option bytes
}.

(** [move]: a hit when the key asked for equals the key held, without a
    look at the store; otherwise a seek, whose result is kept. *)

Definition move (k : option bytes) (p : t) : M (bool * t) :=
  match c p with
  | None => ret (false, p)
  | Some cur =>
      if bytes_Equal (key p) k then ret (true, p)
      else
        '(kv, cur') <- bolt_Seek cur (content k) ;;
        let p' := mk (Some cur') (option_map fst kv) (option_map snd kv) in
        ret (bytes_Equal (key p') k, p')
  end.

Definition Get (k : option bytes) (p : t) : M (option bytes * bool * t) :=
  '(ok, p') <- move k p ;;
  if ok then ret (val p', true, p') else ret (None, false, p').

Definition Delete (k : option bytes) (p : t) : M (option error * t) :=
  '(ok, p') <- move k p ;;
  if negb ok then ret (None, p')
  else
    cur <- must (c p') ;;
    err <- bolt_CursorDelete cur ;;
    ret (err, p').

End pointer.

(** ** Cursor: iteration in sequence order *)

Module Cursor.

(** [type Cursor struct]: the store cursor on the seq bucket, nil when that
    bucket does not exist, the data pointer, the current sequence number
    and key, and the error. *)
Record t := mk {
  cs : option boltCursor;
  dp : pointer.t;
  seq : Z;
  key : option bytes;
  err : option error
}.

Definition set_cs (x : option boltCursor) (c : t) : t :=
  mk x (dp c) (seq c) (key c) (err c).
Definition set_dp (x : pointer.t) (c : t) : t :=
  mk (cs c) x (seq c) (key c) (err c).
Definition set_err (x : option error) (c : t) : t :=
  mk (cs c) (dp c) (seq c) (key c) x.
Definition set_pos (s : Z) (k : option bytes) (c : t) : t :=
  mk (cs c) (dp c) s k (err c).

(** [sync]: nothing changes on a nil key; a key shorter than 8 bytes sets
    the error; otherwise the sequence number and the key are taken over.
    No branch clears the error. *)
Definition sync (seq key : option bytes) (c : t) : M (bool * t) :=
  match seq with
  | None => ret (false, c)
  | Some v =>
      if negb (Value.IsValid v) then ret (false, set_err (Some ErrInvalidKey) c)
      else
        s <- must (Value.Seq v) ;;
        ret (true, set_pos s key c)
  end.

(** The store cursor hands back a key and a value, both nil at the end. *)
Definition sync_at (r : option entry * boltCursor) (c : t) : M (bool * t) :=
  sync (option_map fst (fst r)) (option_map snd (fst r))
       (set_cs (Some (snd r)) c).

Definition First (c : t) : M (bool * t) :=
  match cs c with
  | None => ret (false, c)
  | Some cur => r <- bolt_First cur ;; sync_at r c
  end.

Definition Last (c : t) : M (bool * t) :=
  match cs c with
  | None => ret (false, c)
  | Some cur => r <- bolt_Last cur ;; sync_at r c
  end.

Definition Next (c : t) : M (bool * t) :=
  match cs c with
  | None => ret (false, c)
  | Some cur => r <- bolt_Next cur ;; sync_at r c
  end.

Definition Prev (c : t) : M (bool * t) :=
  match cs c with
  | None => ret (false, c)
  | Some cur => r <- bolt_Prev cur ;; sync_at r c
  end.

Definition Seek (seq : Z) (c : t) : M (bool * t) :=
  match cs c with
  | None => ret (false, c)
  | Some cur =>
      k <- must (Value.seqBytes (newValue seq [])) ;;
      r <- bolt_Seek cur k ;;
      sync_at r c
  end.

Definition Err (c : t) : option error := err c.

Definition Seq (c : t) : Z := seq c.

Definition Key (c : t) : option bytes := key c.

(** [Data]: the data of the current key, resolved through the pointer. *)
Definition Data (c : t) : M (option bytes * option error * t) :=
  '(v, ok, p) <- pointer.Get (key c) (dp c) ;;
  let c' := set_dp p c in
  if negb ok then ret (None, Some ErrInvalidKey, c')
  else
    let val := content v in
    if negb (Value.IsValid val) then ret (None, Some ErrInvalidValue, c')
    else
      d <- must (Value.Data val) ;;
      ret (Some d, None, c').

(** [Delete]: the data entry through the pointer, then the entry under the
    seq cursor, which is used without a nil check. *)
Definition Delete (c : t) : M (option error * t) :=
  '(err, p) <- pointer.Delete (key c) (dp c) ;;
  let c' := set_dp p c in
  match err with
  | Some e => ret (Some e, c')
  | None =>
      cur <- must (cs c') ;;
      err <- bolt_CursorDelete cur ;;
      ret (err, c')
  end.

End Cursor.

(** ** Bucket *)

Module Bucket.

(** The retirement of the current value of [key] at the head of [Put];
    an error ends [Put]. *)
Definition deleteCurrent (bd bs : bucketName) (key : bytes) : M (option error) :=
  v <- bolt_Get bd key ;;
  match v with
  | None => ret None
  | Some v =>
      if negb (Value.IsValid v) then ret (Some ErrInvalidValue)
      else
        sb <- must (Value.seqBytes v) ;;
        err <- bolt_Delete bs sb ;;
        match err with
        | Some e => ret (Some e)
        | None => bolt_Delete bd key
        end
  end.

(** [Put].  The assignment [bs.FillPercent = 1] before the seq entry is
    written is a tuning hint to the store and leaves the contents alone. *)
Definition Put (key value : bytes) : M (Z * option error) :=
  r <- CreateBucketIfNotExists bucketNameData ;;
  match r with
  | inr e => ret (0, Some e)
  | inl bd =>
  r <- CreateBucketIfNotExists bucketNameSeq ;;
  match r with
  | inr e => ret (0, Some e)
  | inl bs =>
  err <- deleteCurrent bd bs key ;;
  match err with
  | Some e => ret (0, Some e)
  | None =>
  '(seq, err) <- bolt_NextSequence bs ;;
  match err with
  | Some e => ret (seq, Some e)
  | None =>
  let val := newValue seq value in
  sb <- must (Value.seqBytes val) ;;
  err <- bolt_Put bs sb key ;;
  match err with
  | Some e => ret (seq, Some e)
  | None =>
  err <- bolt_Put bd key val ;;
  ret (seq, err)
  end end end end end.

Definition Get (key : bytes) : M (option Value.t) :=
  bd <- loc_Bucket bucketNameData ;;
  match bd with
  | None => ret None
  | Some bd => bolt_Get bd key
  end.

Definition GetSeq (seq : Z) : M (option bytes) :=
  bs <- loc_Bucket bucketNameSeq ;;
  match bs with
  | None => ret None
  | Some bs =>
      k <- must (Value.seqBytes (newValue seq [])) ;;
      bolt_Get bs k
  end.

Definition Delete (key : bytes) : M (option error) :=
  bd <- loc_Bucket bucketNameData ;;
  match bd with
  | None => ret (Some ErrInvalidBucket)
  | Some bd =>
  v <- bolt_Get bd key ;;
  match v with
  | None => ret None
  | Some v =>
  if negb (Value.IsValid v) then ret (Some ErrInvalidValue)
  else
  bs <- loc_Bucket bucketNameSeq ;;
  match bs with
  | None => ret (Some ErrInvalidBucket)
  | Some bs =>
  sb <- must (Value.seqBytes v) ;;
  err <- bolt_Delete bs sb ;;
  match err with
  | Some e => ret (Some e)
  | None => bolt_Delete bd key
  end end end end.

(** [Cursor]: a store cursor for each bucket that exists. *)
Definition Cursor : M Cursor.t :=
  bs <- loc_Bucket bucketNameSeq ;;
  let cs := option_map bolt_Cursor bs in
  bd <- loc_Bucket bucketNameData ;;
  let cd := option_map bolt_Cursor bd in
  ret (Cursor.mk cs (pointer.mk cd None None) 0 None None).

(** [DeleteSeq]: seek, give up on a miss, delete on an exact match. *)
Definition DeleteSeq (seq : Z) : M (option error) :=
  c <- Cursor ;;
  '(ok, c) <- Cursor.Seek seq c ;;
  if negb ok then ret (Cursor.Err c)
  else if negb (Cursor.Seq c =? seq) then ret None
  else
    '(err, _) <- Cursor.Delete c ;;
    ret err.

End Bucket.

(** ** The pointer without its cache

    The variant that the design notes allow: every call seeks the data
    cursor, whatever was resolved before.  It follows the description of a
    miss: seek by key, keep the pair the seek returned, report whether the
    seek landed exactly on the key. *)

Module AlwaysMiss.

Definition move (k : option bytes) (p : pointer.t) : M (bool * pointer.t) :=
  match pointer.c p with
  | None => ret (false, p)
  | Some cur =>
      '(kv, cur') <- bolt_Seek cur (content k) ;;
      let p' := pointer.mk (Some cur') (option_map fst kv) (option_map snd kv) in
      ret (bytes_Equal (pointer.key p') k, p')
  end.

Definition Get (k : option bytes) (p : pointer.t)
  : M (option bytes * bool * pointer.t) :=
  '(ok, p') <- move k p ;;
  if ok then ret (pointer.val p', true, p') else ret (None, false, p').

Definition Delete (k : option bytes) (p : pointer.t)
  : M (option error * pointer.t) :=
  '(ok, p') <- move k p ;;
  if negb ok then ret (None, p')
  else
    cur <- must (pointer.c p') ;;
    err <- bolt_CursorDelete cur ;;
    ret (err, p').

(** [Cursor.Data] and [Cursor.Delete] over this pointer. *)
Definition Data (c : Cursor.t) : M (option bytes * option error * Cursor.t) :=
  '(v, ok, p) <- Get (Cursor.key c) (Cursor.dp c) ;;
  let c' := Cursor.set_dp p c in
  if negb ok then ret (None, Some ErrInvalidKey, c')
  else
    let val := content v in
    if negb (Value.IsValid val) then ret (None, Some ErrInvalidValue, c')
    else
      d <- must (Value.Data val) ;;
      ret (Some d, None, c').


End AlwaysMiss.

(** ** Sequences of calls *)

Inductive Move := MFirst | MLast | MNext | MPrev | MSeek (seq : Z).

Definition position (m : Move) : Cursor.t -> M (bool * Cursor.t) :=
  match m with
  | MFirst => Cursor.First
  | MLast => Cursor.Last
  | MNext => Cursor.Next
  | MPrev => Cursor.Prev
  | MSeek s => Cursor.Seek s
  end.

(** What a caller does with one cursor: move it, read the data, delete the
    current item. *)
Inductive CursorCall := CMove (m : Move) | CData | CDelete.

Inductive Op :=
| OpPut (key value : bytes)
| OpDelete (key : bytes)
| OpDeleteSeq (seq : Z)
| OpCursor (calls : list CursorCall).

(** The calls on one cursor, all completed without error.  [Delete] is
    called on a current item: the last move returned true and nothing was
    deleted since. *)
Fixpoint run_calls (calls : list CursorCall) (positioned : bool)
    (c : Cursor.t) (st : Location) : option Location :=
  match calls with
  | [] => Some st
  | CMove m :: rest =>
      match position m c st with
      | Return (ok, c') st' => run_calls rest ok c' st'
      | Panic => None
      end
  | CData :: rest =>
      match Cursor.Data c st with
      | Return (_, c') st' => run_calls rest positioned c' st'
      | Panic => None
      end
  | CDelete :: rest =>
      if positioned then
        match Cursor.Delete c st with
        | Return (None, c') st' => run_calls rest false c' st'
        | _ => None
        end
      else None
  end.

(** One operation that completes without error. *)
Definition step (op : Op) (st : Location) : option Location :=
  match op with
  | OpPut k v =>
      match Bucket.Put k v st with
      | Return (_, None) st' => Some st'
      | _ => None
      end
  | OpDelete k =>
      match Bucket.Delete k st with
      | Return None st' => Some st'
      | _ => None
      end
  | OpDeleteSeq s =>
      match Bucket.DeleteSeq s st with
      | Return None st' => Some st'
      | _ => None
      end
  | OpCursor calls =>
      match Bucket.Cursor st with
      | Return c st' => run_calls calls false c st'
      | Panic => None
      end
  end.

Fixpoint run (ops : list Op) (st : Location) : option Location :=
  match ops with
  | [] => Some st
  | op :: rest =>
      match step op st with
      | Some st' => run rest st'
      | None => None
      end
  end.

(** A location in which nothing was put yet. *)
Definition empty (w : bool) : Location := mkLocation w None None.

(** ** Traversal with a cursor *)

(** The loop [for ok := c.First(); ok; ok = c.Next()] and its mirror image,
    collecting [Seq()] and [Key()] of every item visited.  [None]: the fuel
    ran out or a call panicked. *)
Fixpoint walk (next : Cursor.t -> M (bool * Cursor.t)) (fuel : nat)
    (ok : bool) (c : Cursor.t) (st : Location) : option (list (Z * bytes)) :=
  if ok then
    match fuel with
    | O => None
    | S fuel' =>
        match next c st with
        | Return (ok', c') _ =>
            option_map (cons (Cursor.Seq c, content (Cursor.Key c)))
                       (walk next fuel' ok' c' st)
        | Panic => None
        end
    end
  else Some [].

Definition traverse (first next : Cursor.t -> M (bool * Cursor.t))
    (fuel : nat) (st : Location) : option (list (Z * bytes)) :=
  match Bucket.Cursor st with
  | Return c _ =>
      match first c st with
      | Return (ok, c') _ => walk next fuel ok c' st
      | Panic => None
      end
  | Panic => None
  end.

Definition forward := traverse Cursor.First Cursor.Next.
Definition backward := traverse Cursor.Last Cursor.Prev.

(** ** The invariant of the two indices *)

Definition data_entries (st : Location) : list entry :=
  match dataBucket st with Some b => entries b | None => [] end.

Definition seq_entries (st : Location) : list entry :=
  match seqBucket st with Some b => entries b | None => [] end.

Definition counter (st : Location) : Z :=
  match seqBucket st with Some b => sequence b | None => 0 end.

(** The data bucket [de] and the seq bucket [qe] mirror each other, and every
    sequence number in use was issued by the counter, now at [n]. *)
Record mirrored (de qe : list entry) (n : Z) : Prop := {
  data_sorted : sorted de;
  seq_sorted : sorted qe;
  data_to_seq : forall k v,
    kv_get k de = Some v ->
    k <> [] /\ Value.IsValid v = true /\ kv_get (firstn 8 v) qe = Some k;
  seq_to_data : forall sb k,
    kv_get sb qe = Some k ->
    exists s v, sb = PutUint64 s /\ 1 <= s <= n /\
      kv_get k de = Some v /\ Value.IsValid v = true /\ firstn 8 v = sb;
  counter_range : 0 <= n < 2 ^ 64
}.

Definition consistent (st : Location) : Prop :=
  mirrored (data_entries st) (seq_entries st) (counter st).

(** The cache of a pointer agrees with the data bucket: what it holds is the
    entry under its cursor. *)
Definition coherent (p : pointer.t) (st : Location) : Prop :=
  match pointer.c p with
  | None => True
  | Some cur =>
      bucket cur = bucketNameData /\
      match pointer.key p with
      | None => True
      | Some k =>
          exists i v, stack cur = Some i /\ pointer.val p = Some v /\
            nth_error (data_entries st) i = Some (k, v)
      end
  end.

(** The state of a pointer during the calls on one cursor: its cursor is on
    the data bucket, and the key it holds was deleted or is the key of the
    entry under its cursor. *)
Definition pointer_ok (p : pointer.t) (st : Location) : Prop :=
  match pointer.c p with
  | None => dataBucket st = None
  | Some cur =>
      bucket cur = bucketNameData /\ dataBucket st <> None /\
      match pointer.key p with
      | None => True
      | Some k =>
          kv_get k (data_entries st) = None \/
          exists i v, stack cur = Some i /\
            nth_error (data_entries st) i = Some (k, v)
      end
  end.

(** The state of a cursor during its calls; when [positioned], the cursor is
    on an entry of the seq bucket and holds its key. *)
Definition cursor_ok (positioned : bool) (c : Cursor.t) (st : Location) : Prop :=
  pointer_ok (Cursor.dp c) st /\
  match Cursor.cs c with
  | None => seqBucket st = None
  | Some cur => bucket cur = bucketNameSeq /\ seqBucket st <> None
  end /\
  (positioned = true ->
   exists cur i sb k,
     Cursor.cs c = Some cur /\ stack cur = Some i /\
     nth_error (seq_entries st) i = Some (sb, k) /\
     Cursor.key c = Some k).

(** The call on the store cursor behind a move of the cursor. *)
Definition bolt_move (m : Move) (cur : boltCursor)
  : M (option entry * boltCursor) :=
  match m with
  | MFirst => bolt_First cur
  | MLast => bolt_Last cur
  | MNext => bolt_Next cur
  | MPrev => bolt_Prev cur
  | MSeek s => bolt_Seek cur (PutUint64 s)
  end.

(** The seq entries left when the value of [k] is retired. *)
Definition retired_seq (k : bytes) (st : Location) : list entry :=
  match kv_get k (data_entries st) with
  | Some v => kv_del (firstn 8 v) (seq_entries st)
  | None => seq_entries st
  end.

(** The value of a byte string read as a big-endian number. *)
Fixpoint be_val (l : bytes) : Z :=
  match l with
  | [] => 0
  | b :: l' => byte_to_Z b * 256 ^ Z.of_nat (length l') + be_val l'
  end.

(** A location with other entries in one of its buckets. *)
Definition with_data (l : list entry) (st : Location) : Location :=
  match dataBucket st with
  | Some b => set_bucket bucketNameData (mkBucket l (sequence b)) st
  | None => st
  end.

Definition with_seq (l : list entry) (st : Location) : Location :=
  match seqBucket st with
  | Some b => set_bucket bucketNameSeq (mkBucket l (sequence b)) st
  | None => st
  end.

(** The entry of the seq bucket on which a seek for [s] lands: the first
    one whose key is not below the eight bytes of [s]. *)
Definition landing (s : Z) (st : Location) : option entry :=
  nth_error (seq_entries st) (search (PutUint64 s) (seq_entries st)).

(** What the cursor shows on an entry of the seq bucket: the sequence number
    in the first eight bytes of its key, and the key it maps to. *)
Definition decode_entry (e : entry) : Z * bytes :=
  (be_val (firstn 8 (fst e)), snd e).

Definition visited (st : Location) : list (Z * bytes) :=
  map decode_entry (seq_entries st).


(** The two buckets are created together: there is no data bucket without
    a seq bucket. *)
Definition paired (st : Location) : Prop :=
  seqBucket st = None -> dataBucket st = None.

(** The same buckets exist in two locations. *)
Definition same_buckets (st st' : Location) : Prop :=
  (dataBucket st = None <-> dataBucket st' = None) /\
  (seqBucket st = None <-> seqBucket st' = None).

(** ** Sample byte strings and locations *)

Definition key_x : bytes := ["x"%byte].
Definition key_a : bytes := ["a"%byte].
Definition key_b : bytes := ["b"%byte].
Definition data_v : bytes := ["v"%byte].
Definition data_w : bytes := ["w"%byte].


(** Indices with a damaged seq bucket: its second key has one byte. *)
Definition damaged : Location :=
  mkLocation true
    (Some (mkBucket [(key_a, newValue 5 data_v)] 0))
    (Some (mkBucket [(PutUint64 5, key_a); ([x01], key_b)] 5)).

(** The pointer of a new cursor on a location with a data bucket. *)
Definition new_pointer : pointer.t :=
  pointer.mk (Some (bolt_Cursor bucketNameData)) None None.

Definition new_cursor : Cursor.t :=
  Cursor.mk (Some (bolt_Cursor bucketNameSeq)) new_pointer 0 None None.

(** Three keys put in turn, the second one overwritten at the end. *)
Definition sample_ops : list Op :=
  [OpPut key_x data_v; OpPut key_a data_v; OpPut key_b data_w;
   OpPut key_a data_w].

Definition sample : Location :=
  mkLocation true
    (Some (mkBucket [(key_a, newValue 4 data_w); (key_b, newValue 3 data_w);
                     (key_x, newValue 1 data_v)] 0))
    (Some (mkBucket [(PutUint64 1, key_x); (PutUint64 3, key_b);
                     (PutUint64 4, key_a)] 4)).

(** The cursor on [damaged] after a [Last] that met the one-byte key, and
    after the [First] that follows. *)
Definition after_Last : Cursor.t :=
  Cursor.mk (Some (mkBoltCursor bucketNameSeq (Some 1%nat))) new_pointer
            0 None (Some ErrInvalidKey).

Definition after_First : Cursor.t :=
  Cursor.mk (Some (mkBoltCursor bucketNameSeq (Some 0%nat))) new_pointer
            5 (Some key_a) (Some ErrInvalidKey).

(** ** The earlier [Put]

    The bucket file without its comments has the [Put] that returns the
    error alone; the other functions are those of the later file. *)

Module Legacy.

Definition Put (key value : bytes) : M (option error) :=
  r <- CreateBucketIfNotExists bucketNameData ;;
  match r with
  | inr e => ret (Some e)
  | inl bd =>
  r <- CreateBucketIfNotExists bucketNameSeq ;;
  match r with
  | inr e => ret (Some e)
  | inl bs =>
  err <- Bucket.deleteCurrent bd bs key ;;
  match err with
  | Some e => ret (Some e)
  | None =>
  '(seq, err) <- bolt_NextSequence bs ;;
  match err with
  | Some e => ret (Some e)
  | None =>
  let val := newValue seq value in
  sb <- must (Value.seqBytes val) ;;
  err <- bolt_Put bs sb key ;;
  match err with
  | Some e => ret (Some e)
  | None => bolt_Put bd key val
  end end end end end.

End Legacy.

(** ** [Put] in closed form *)

(** A bucket that [CreateBucketIfNotExists] returns: the one there is, or a
    new, empty one. *)
Definition bucket_or_new (b : option BoltBucket) : BoltBucket :=
  match b with Some b => b | None => mkBucket [] 0 end.

(** The entries of the two buckets once the current value of [k], if any,
    is retired. *)
Definition retire (k : bytes) (de qe : list entry) : list entry * list entry :=
  match kv_get k de with
  | Some v => (kv_del k de, kv_del (firstn 8 v) qe)
  | None => (de, qe)
  end.

(** What [Put k p] does in a writable location, by the checks that fail. *)
Definition Put_result (k p : bytes) (st : Location) : outcome (Z * option error) :=
  let bd := bucket_or_new (dataBucket st) in
  let bs := bucket_or_new (seqBucket st) in
  let s := (sequence bs + 1) mod 2 ^ 64 in
  let loc de qe n :=
    mkLocation true (Some (mkBucket de (sequence bd))) (Some (mkBucket qe n)) in
  let de0 := fst (retire k (entries bd) (entries bs)) in
  let qe0 := snd (retire k (entries bd) (entries bs)) in
  let qe1 := kv_put (PutUint64 s) k qe0 in
  if match kv_get k (entries bd) with
     | Some v => negb (Value.IsValid v)
     | None => false
     end
  then Return (0, Some ErrInvalidValue) (loc (entries bd) (entries bs) (sequence bs))
  else if Z.of_nat (length k) >? MaxValueSize
  then Return (s, Some ErrValueTooLarge) (loc de0 qe0 s)
  else if (length k =? 0)%nat
  then Return (s, Some ErrKeyRequired) (loc de0 qe1 s)
  else if Z.of_nat (length k) >? MaxKeySize
  then Return (s, Some ErrKeyTooLarge) (loc de0 qe1 s)
  else if Z.of_nat (length (newValue s p)) >? MaxValueSize
  then Return (s, Some ErrValueTooLarge) (loc de0 qe1 s)
  else Return (s, None) (loc (kv_put k (newValue s p) de0) qe1 s).


(** ** Callers: the loops of the tests *)

(** Reading with one cursor: moves and [Data] calls, no deletion. *)
Inductive Look := LMove (m : Move) | LData.

Fixpoint browse (calls : list Look) (ok : bool) (c : Cursor.t)
  : M (bool * Cursor.t) :=
  match calls with
  | [] => ret (ok, c)
  | LMove m :: rest => '(ok', c') <- position m c ;; browse rest ok' c'
  | LData :: rest => '(_, c') <- Cursor.Data c ;; browse rest ok c'
  end.

(** A new cursor and the calls on it; the flag is the result of the last
    move, false when there was none. *)
Definition session (calls : list Look) : M (bool * Cursor.t) :=
  c <- Bucket.Cursor ;; browse calls false c.

(** The loop [for n, key := range keys] of the test that puts many keys:
    the sequence numbers returned, up to the first error. *)
Fixpoint put_all (kvs : list (bytes * bytes)) : M (list Z * option error) :=
  match kvs with
  | [] => ret ([], None)
  | (k, v) :: rest =>
      '(s, err) <- Bucket.Put k v ;;
      match err with
      | Some e => ret ([], Some e)
      | None => '(ss, err') <- put_all rest ;; ret (s :: ss, err')
      end
  end.

(** The loop [for ok := c.First(); ok; ok = c.Next()] of the same test, which
    reads [Seq], [Key] and [Data] of every item. *)
Fixpoint scan (fuel : nat) (ok : bool) (c : Cursor.t) (st : Location)
  : option (list (Z * bytes * option bytes * option error)) :=
  if ok then
    match fuel with
    | O => None
    | S fuel' =>
        match Cursor.Data c st with
        | Return (d, e, c1) st1 =>
            match Cursor.Next c1 st1 with
            | Return (ok', c2) st2 =>
                option_map
                  (cons (Cursor.Seq c, content (Cursor.Key c), d, e))
                  (scan fuel' ok' c2 st2)
            | Panic => None
            end
        | Panic => None
        end
    end
  else Some [].

Definition scan_all (fuel : nat) (st : Location)
  : option (list (Z * bytes * option bytes * option error)) :=
  match Bucket.Cursor st with
  | Return c st1 =>
      match Cursor.First c st1 with
      | Return (ok, c') st2 => scan fuel ok c' st2
      | Panic => None
      end
  | Panic => None
  end.

(** What the loop reads on an entry of the seq bucket. *)
Definition reading (st : Location) (e : entry)
  : Z * bytes * option bytes * option error :=
  (be_val (firstn 8 (fst e)), snd e,
   option_map (skipn 8) (kv_get (snd e) (data_entries st)), None).

(** The sequence numbers [1 .. n]. *)
Definition numbers (n : nat) : list Z := map Z.of_nat (seq 1 n).

(** Keys and payloads with the numbers that follow [n]. *)
Fixpoint numbered (n : Z) (kvs : list (bytes * bytes))
  : list (Z * (bytes * bytes)) :=
  match kvs with
  | [] => []
  | kv :: rest => (n + 1, kv) :: numbered (n + 1) rest
  end.

(** A key and a payload that the store accepts. *)
Definition admissible (kv : bytes * bytes) : Prop :=
  fst kv <> [] /\ Z.of_nat (length (fst kv)) <= MaxKeySize /\
  Z.of_nat (length (snd kv)) + 8 <= MaxValueSize.

(** ** The state of a cursor that only reads

    Its pointer is coherent with the data bucket; when [ok], the cursor is
    on an entry of the seq bucket and holds the key and the sequence number
    of that entry. *)
Definition browsing (ok : bool) (c : Cursor.t) (st : Location) : Prop :=
  coherent (Cursor.dp c) st /\
  (pointer.c (Cursor.dp c) = None <-> dataBucket st = None) /\
  match Cursor.cs c with
  | None => seqBucket st = None
  | Some cur => bucket cur = bucketNameSeq /\ seqBucket st <> None
  end /\
  (ok = true ->
   exists i sb k,
     Cursor.cs c = Some (mkBoltCursor bucketNameSeq (Some i)) /\
     nth_error (seq_entries st) i = Some (sb, k) /\
     Cursor.key c = Some k /\
     Cursor.seq c = be_val (firstn 8 sb)).

(** The cursor is on the entry at index [i] of the seq bucket and shows the
    sequence number and the key of that entry. *)
Definition on_entry (c : Cursor.t) (st : Location) (i : nat) : Prop :=
  Cursor.cs c = Some (mkBoltCursor bucketNameSeq (Some i)) /\
  nth_error (seq_entries st) i =
    Some (PutUint64 (Cursor.seq c), content (Cursor.key c)) /\
  0 <= Cursor.seq c < 2 ^ 64 /\ Cursor.key c <> None.

(** The result of the call on the store cursor behind a move, by the
    position [s] of the cursor and the entries [l] of its bucket. *)
Definition moved (m : Move) (h : bucketName) (s : option nat) (l : list entry)
  : option entry * boltCursor :=
  match m with
  | MFirst => at_index (mkBoltCursor h s) O l
  | MLast => at_index (mkBoltCursor h s) (length l - 1) l
  | MNext =>
      match s with
      | Some i =>
          if (S i <? length l)%nat then at_index (mkBoltCursor h s) (S i) l
          else (None, mkBoltCursor h s)
      | None => (None, mkBoltCursor h s)
      end
  | MPrev =>
      match s with
      | Some (S i) => at_index (mkBoltCursor h s) i l
      | Some O => (None, mkBoltCursor h None)
      | None => (None, mkBoltCursor h s)
      end
  | MSeek n => at_index (mkBoltCursor h s) (search (PutUint64 n) l) l
  end.

(** ** Sample cursors and locations *)

(** The cursor on [sample] after [First] and after [Last]. *)
Definition first_cursor : Cursor.t :=
  Cursor.mk (Some (mkBoltCursor bucketNameSeq (Some 0%nat))) new_pointer
            1 (Some key_x) None.

Definition last_cursor : Cursor.t :=
  Cursor.mk (Some (mkBoltCursor bucketNameSeq (Some 2%nat))) new_pointer
            4 (Some key_a) None.

(** [sample] after [Put key_b data_v] and after [Delete key_x]. *)
Definition sample_put : Location :=
  mkLocation true
    (Some (mkBucket [(key_a, newValue 4 data_w); (key_b, newValue 5 data_v);
                     (key_x, newValue 1 data_v)] 0))
    (Some (mkBucket [(PutUint64 1, key_x); (PutUint64 4, key_a);
                     (PutUint64 5, key_b)] 5)).

Definition sample_del : Location :=
  mkLocation true
    (Some (mkBucket [(key_a, newValue 4 data_w); (key_b, newValue 3 data_w)] 0))
    (Some (mkBucket [(PutUint64 3, key_b); (PutUint64 4, key_a)] 4)).

(** * Proofs *)

(** ** The definitions on small inputs *)

Example PutUint64_258 :
  PutUint64 258 = [x00; x00; x00; x00; x00; x00; x01; x02].
Proof. reflexivity. Qed.

Example Uint64_258 :
  Uint64 [x00; x00; x00; x00; x00; x00; x01; x02; x76] = Some 258.
Proof. reflexivity. Qed.

Example Uint64_short : Uint64 [x00; x01] = None.
Proof. reflexivity. Qed.

Example compare_prefix : bytes_compare key_a (key_a ++ key_b) = Lt.
Proof. reflexivity. Qed.

Example compare_seq_keys : bytes_compare (PutUint64 255) (PutUint64 256) = Lt.
Proof. reflexivity. Qed.

Example Equal_nil_empty : bytes_Equal None (Some []) = true.
Proof. reflexivity. Qed.

Example put_keeps_order :
  kv_put key_a data_v [(key_b, data_w); (key_x, data_w)] =
  [(key_a, data_v); (key_b, data_w); (key_x, data_w)].
Proof. reflexivity. Qed.

Example Put_empty_key :
  Bucket.Put [] data_v (empty true) =
  Return (1, Some ErrKeyRequired)
    (mkLocation true (Some (mkBucket [] 0))
       (Some (mkBucket [(PutUint64 1, [])] 1))).
Proof. reflexivity. Qed.

Example Put_read_only :
  Bucket.Put key_x data_v (empty false) =
  Return (0, Some ErrTxNotWritable) (empty false).
Proof. reflexivity. Qed.

Example Get_missing : Bucket.Get key_x (empty true) = Return None (empty true).
Proof. reflexivity. Qed.

(** ** The byte order *)

Lemma byte_to_N_inj x y : Byte.to_N x = Byte.to_N y -> x = y.
Proof.
  intros H. generalize (Byte.of_to_N x). rewrite H, Byte.of_to_N. congruence.
Qed.

Lemma bytes_compare_refl a : bytes_compare a a = Eq.
Proof.
  induction a as [|x a IH]; simpl; auto.
  now rewrite N.compare_refl.
Qed.

Lemma bytes_compare_eq a b : bytes_compare a b = Eq -> a = b.
Proof.
  revert b; induction a as [|x a IH]; intros [|y b]; simpl; try discriminate; auto.
  destruct (N.compare (Byte.to_N x) (Byte.to_N y)) eqn:E; try discriminate.
  intros H. apply N.compare_eq in E. apply byte_to_N_inj in E.
  f_equal; auto.
Qed.

Lemma bytes_compare_antisym a b :
  bytes_compare b a = CompOpp (bytes_compare a b).
Proof.
  revert b; induction a as [|x a IH]; intros [|y b]; simpl; auto.
  rewrite (N.compare_antisym (Byte.to_N x) (Byte.to_N y)).
  destruct (N.compare (Byte.to_N x) (Byte.to_N y)); simpl; auto.
Qed.

Lemma bytes_lt_trans a b c : bytes_lt a b -> bytes_lt b c -> bytes_lt a c.
Proof.
  unfold bytes_lt.
  revert b c; induction a as [|x a IH]; intros [|y b] [|z c]; simpl;
    try discriminate; auto.
  destruct (N.compare (Byte.to_N x) (Byte.to_N y)) eqn:Exy;
    destruct (N.compare (Byte.to_N y) (Byte.to_N z)) eqn:Eyz;
    try discriminate; intros H1 H2.
  - apply N.compare_eq in Exy, Eyz. rewrite Exy, Eyz, N.compare_refl. eauto.
  - apply N.compare_eq in Exy. now rewrite Exy, Eyz.
  - apply N.compare_eq in Eyz. now rewrite <- Eyz, Exy.
  - rewrite N.compare_lt_iff in Exy, Eyz.
    assert (E : (Byte.to_N x < Byte.to_N z)%N) by lia.
    rewrite <- N.compare_lt_iff in E. now rewrite E.
Qed.

Lemma bytes_lt_irrefl a : ~ bytes_lt a a.
Proof. unfold bytes_lt. now rewrite bytes_compare_refl. Qed.

Lemma bytes_compare_gt a b : bytes_compare a b = Gt -> bytes_lt b a.
Proof.
  unfold bytes_lt. intros H. now rewrite bytes_compare_antisym, H.
Qed.

Lemma bytes_eqb_eq a b : bytes_eqb a b = true <-> a = b.
Proof.
  unfold bytes_eqb. split.
  - destruct (bytes_compare a b) eqn:E; try discriminate.
    intros _. now apply bytes_compare_eq.
  - intros ->. now rewrite bytes_compare_refl.
Qed.

Lemma bytes_eqb_refl a : bytes_eqb a a = true.
Proof. now apply bytes_eqb_eq. Qed.

Lemma bytes_eqb_neq a b : bytes_eqb a b = false <-> a <> b.
Proof.
  rewrite <- bytes_eqb_eq. destruct (bytes_eqb a b); split; congruence.
Qed.

(** ** The big-endian codec *)

Lemma byte_to_Z_range b : 0 <= byte_to_Z b < 256.
Proof.
  unfold byte_to_Z. generalize (Byte.to_N_bounded b). lia.
Qed.

Lemma land_255 z : Z.land z 255 = z mod 256.
Proof. change 255 with (Z.ones 8). now rewrite Z.land_ones by lia. Qed.

Lemma byte_to_of_Z z : byte_to_Z (byte_of_Z z) = z mod 256.
Proof.
  unfold byte_of_Z, byte_to_Z. rewrite land_255.
  assert (R : 0 <= z mod 256 < 256) by (apply Z.mod_pos_bound; lia).
  destruct (Byte.of_N (Z.to_N (z mod 256))) as [b|] eqn:E.
  - apply Byte.to_of_N in E. rewrite E. lia.
  - apply Byte.of_N_None_iff in E. lia.
Qed.

Lemma byte_of_to_Z b : byte_of_Z (byte_to_Z b) = b.
Proof.
  unfold byte_of_Z, byte_to_Z. rewrite land_255.
  generalize (Byte.to_N_bounded b); intros R.
  rewrite Z.mod_small by lia.
  now rewrite N2Z.id, Byte.of_to_N.
Qed.

(** A disjunction of two numbers with no common bit is their sum. *)
Lemma lor_add_low a r k :
  0 <= k -> 0 <= a < 2 ^ k -> r mod 2 ^ k = 0 -> Z.lor a r = a + r.
Proof.
  intros Hk Ha Hr.
  assert (D : Z.land a r = 0).
  { apply Z.bits_inj'. intros n Hn. rewrite Z.land_spec, Z.bits_0.
    destruct (Z.lt_ge_cases n k) as [L|G].
    - assert (E : Z.testbit r n = false).
      { rewrite <- (Z.mod_pow2_bits_low r k n) by lia. rewrite Hr. apply Z.bits_0. }
      rewrite E. apply andb_false_r.
    - assert (E : Z.testbit a n = false).
      { rewrite <- (Z.mod_small a (2 ^ k)) by lia.
        apply Z.mod_pow2_bits_high. lia. }
      now rewrite E. }
  rewrite <- Z.lxor_lor by exact D.
  symmetry. now apply Z.add_nocarry_lxor.
Qed.

Lemma be_val_range l : 0 <= be_val l < 256 ^ Z.of_nat (length l).
Proof.
  induction l as [|b l IH]; simpl be_val; simpl length.
  - simpl. lia.
  - rewrite Nat2Z.inj_succ, Z.pow_succ_r by lia.
    generalize (byte_to_Z_range b); intros R.
    assert (0 < 256 ^ Z.of_nat (length l)) by (apply Z.pow_pos_nonneg; lia).
    nia.
Qed.

Lemma Uint64_be_val b0 b1 b2 b3 b4 b5 b6 b7 rest :
  Uint64 (b0 :: b1 :: b2 :: b3 :: b4 :: b5 :: b6 :: b7 :: rest) =
  Some (be_val [b0; b1; b2; b3; b4; b5; b6; b7]).
Proof.
  unfold Uint64. f_equal. cbn [be_val length].
  generalize (byte_to_Z_range b0) (byte_to_Z_range b1) (byte_to_Z_range b2)
    (byte_to_Z_range b3) (byte_to_Z_range b4) (byte_to_Z_range b5)
    (byte_to_Z_range b6) (byte_to_Z_range b7).
  generalize (byte_to_Z b0) (byte_to_Z b1) (byte_to_Z b2) (byte_to_Z b3)
    (byte_to_Z b4) (byte_to_Z b5) (byte_to_Z b6) (byte_to_Z b7).
  intros z0 z1 z2 z3 z4 z5 z6 z7 R0 R1 R2 R3 R4 R5 R6 R7.
  rewrite !Z.shiftl_mul_pow2 by lia.
  change (Z.of_nat 7) with 7; change (Z.of_nat 6) with 6;
  change (Z.of_nat 5) with 5; change (Z.of_nat 4) with 4;
  change (Z.of_nat 3) with 3; change (Z.of_nat 2) with 2;
  change (Z.of_nat 1) with 1; change (Z.of_nat 0) with 0.
  change (256 ^ 7) with (2 ^ 56); change (256 ^ 6) with (2 ^ 48);
  change (256 ^ 5) with (2 ^ 40); change (256 ^ 4) with (2 ^ 32);
  change (256 ^ 3) with (2 ^ 24); change (256 ^ 2) with (2 ^ 16);
  change (256 ^ 1) with (2 ^ 8); change (256 ^ 0) with 1.
  rewrite (lor_add_low (z1 * 2 ^ 48) (z0 * 2 ^ 56) 56)
    by (try apply Z.mod_divide; try (exists z0); lia).
  rewrite (lor_add_low (z2 * 2 ^ 40) _ 48)
    by (try apply Z.mod_divide; try (exists (z1 + z0 * 2 ^ 8)); lia).
  rewrite (lor_add_low (z3 * 2 ^ 32) _ 40)
    by (try apply Z.mod_divide;
        try (exists (z2 + z1 * 2 ^ 8 + z0 * 2 ^ 16)); lia).
  rewrite (lor_add_low (z4 * 2 ^ 24) _ 32)
    by (try apply Z.mod_divide;
        try (exists (z3 + z2 * 2 ^ 8 + z1 * 2 ^ 16 + z0 * 2 ^ 24)); lia).
  rewrite (lor_add_low (z5 * 2 ^ 16) _ 24)
    by (try apply Z.mod_divide;
        try (exists (z4 + z3 * 2 ^ 8 + z2 * 2 ^ 16 + z1 * 2 ^ 24 + z0 * 2 ^ 32));
        lia).
  rewrite (lor_add_low (z6 * 2 ^ 8) _ 16)
    by (try apply Z.mod_divide;
        try (exists (z5 + z4 * 2 ^ 8 + z3 * 2 ^ 16 + z2 * 2 ^ 24 + z1 * 2 ^ 32
                     + z0 * 2 ^ 40)); lia).
  rewrite (lor_add_low z7 _ 8)
    by (try apply Z.mod_divide;
        try (exists (z6 + z5 * 2 ^ 8 + z4 * 2 ^ 16 + z3 * 2 ^ 24 + z2 * 2 ^ 32
                     + z1 * 2 ^ 40 + z0 * 2 ^ 48)); lia).
  lia.
Qed.

Lemma PutUint64_length v : length (PutUint64 v) = 8%nat.
Proof. reflexivity. Qed.

Lemma be_val_PutUint64 v : be_val (PutUint64 v) = v mod 2 ^ 64.
Proof.
  unfold PutUint64. cbn [be_val length].
  rewrite !byte_to_of_Z, !Z.shiftr_div_pow2 by lia.
  change (Z.of_nat 7) with 7; change (Z.of_nat 6) with 6;
  change (Z.of_nat 5) with 5; change (Z.of_nat 4) with 4;
  change (Z.of_nat 3) with 3; change (Z.of_nat 2) with 2;
  change (Z.of_nat 1) with 1; change (Z.of_nat 0) with 0.
  change (256 ^ 7) with 72057594037927936;
  change (256 ^ 6) with 281474976710656;
  change (256 ^ 5) with 1099511627776;
  change (256 ^ 4) with 4294967296;
  change (256 ^ 3) with 16777216;
  change (256 ^ 2) with 65536;
  change (256 ^ 1) with 256; change (256 ^ 0) with 1.
  change (2 ^ 56) with 72057594037927936;
  change (2 ^ 48) with 281474976710656;
  change (2 ^ 40) with 1099511627776;
  change (2 ^ 32) with 4294967296;
  change (2 ^ 24) with 16777216;
  change (2 ^ 16) with 65536;
  change (2 ^ 8) with 256;
  change (2 ^ 64) with 18446744073709551616.
  Z.to_euclidean_division_equations. lia.
Qed.

Lemma Uint64_PutUint64 v rest :
  Uint64 (PutUint64 v ++ rest) = Some (v mod 2 ^ 64).
Proof.
  rewrite <- be_val_PutUint64. unfold PutUint64 at 1.
  cbn [app]. now rewrite Uint64_be_val.
Qed.

(** ** Buckets as sorted entry lists *)

Ltac cmp a b :=
  let E := fresh "E" in
  destruct (bytes_compare a b) eqn:E;
  [ apply bytes_compare_eq in E | | apply bytes_compare_gt in E ].

Lemma sorted_nil : sorted [].
Proof. constructor. Qed.

Lemma sorted_inv {k v l} :
  sorted ((k, v) :: l) -> sorted l /\ Forall (bytes_lt k) (map fst l).
Proof. unfold sorted. simpl. intros H. now inversion H. Qed.

Lemma sorted_cons k v l :
  sorted l -> Forall (bytes_lt k) (map fst l) -> sorted ((k, v) :: l).
Proof. unfold sorted. simpl. now constructor. Qed.

Lemma Forall_lt_trans a b l :
  bytes_lt a b -> Forall (bytes_lt b) l -> Forall (bytes_lt a) l.
Proof.
  intros H F. eapply Forall_impl; [|exact F].
  intros c Hc. eapply bytes_lt_trans; eauto.
Qed.

Lemma kv_get_above k l :
  Forall (bytes_lt k) (map fst l) -> kv_get k l = None.
Proof.
  destruct l as [|[a va] l]; simpl; auto.
  intros F. inversion F as [|? ? H _]; subst.
  unfold bytes_lt in H. rewrite bytes_compare_antisym, H. reflexivity.
Qed.

Lemma kv_put_keys (P : bytes -> Prop) k v l :
  P k -> Forall P (map fst l) -> Forall P (map fst (kv_put k v l)).
Proof.
  intros Hk. induction l as [|[a va] l IH]; simpl; intros F.
  - constructor; auto.
  - inversion F; subst.
    destruct (bytes_compare a k); simpl; constructor; auto.
Qed.

Lemma kv_del_keys (P : bytes -> Prop) k l :
  Forall P (map fst l) -> Forall P (map fst (kv_del k l)).
Proof.
  induction l as [|[a va] l IH]; simpl; intros F; auto.
  inversion F; subst.
  destruct (bytes_compare a k); simpl; auto.
Qed.

Lemma sorted_put k v l : sorted l -> sorted (kv_put k v l).
Proof.
  induction l as [|[a va] l IH]; simpl; intros S.
  - apply sorted_cons; [apply sorted_nil | constructor].
  - destruct (sorted_inv S) as [S' F].
    cmp a k.
    + subst a. now apply sorted_cons.
    + apply sorted_cons; auto. now apply kv_put_keys.
    + apply sorted_cons; auto. simpl. constructor; auto.
      eapply Forall_lt_trans; eauto.
Qed.

Lemma sorted_del k l : sorted l -> sorted (kv_del k l).
Proof.
  induction l as [|[a va] l IH]; simpl; intros S; auto.
  destruct (sorted_inv S) as [S' F].
  cmp a k; auto.
  apply sorted_cons; auto. now apply kv_del_keys.
Qed.

Lemma kv_get_put_same k v l : kv_get k (kv_put k v l) = Some v.
Proof.
  induction l as [|[a va] l IH]; simpl.
  - now rewrite bytes_compare_refl.
  - destruct (bytes_compare a k) eqn:E; simpl.
    + now rewrite bytes_compare_refl.
    + now rewrite E.
    + now rewrite bytes_compare_refl.
Qed.

Lemma kv_get_put_other k k' v l :
  k <> k' -> kv_get k' (kv_put k v l) = kv_get k' l.
Proof.
  intros N. induction l as [|[a va] l IH]; simpl.
  - cmp k k'; congruence.
  - cmp a k; simpl.
    + subst a. cmp k k'; congruence.
    + destruct (bytes_compare a k'); auto.
    + cmp k k'; try congruence.
      assert (L : bytes_lt k' a) by (eapply bytes_lt_trans; eauto).
      unfold bytes_lt in L. now rewrite (bytes_compare_antisym k' a), L.
Qed.

Lemma kv_get_del_same k l : sorted l -> kv_get k (kv_del k l) = None.
Proof.
  induction l as [|[a va] l IH]; simpl; intros S; auto.
  destruct (sorted_inv S) as [S' F].
  destruct (bytes_compare a k) eqn:E; simpl.
  - apply bytes_compare_eq in E. subst a. now apply kv_get_above.
  - rewrite E. auto.
  - now rewrite E.
Qed.

Lemma kv_get_del_other k k' l :
  sorted l -> k <> k' -> kv_get k' (kv_del k l) = kv_get k' l.
Proof.
  intros S N. induction l as [|[a va] l IH]; simpl; auto.
  destruct (sorted_inv S) as [S' F].
  cmp a k; simpl.
  - subst a. cmp k k'; try congruence.
    apply kv_get_above. eapply Forall_lt_trans; eauto.
  - destruct (bytes_compare a k'); auto.
  - reflexivity.
Qed.

Lemma kv_get_In k v l : kv_get k l = Some v -> In (k, v) l.
Proof.
  induction l as [|[a va] l IH]; simpl; try discriminate.
  cmp a k; try discriminate.
  - subst a. intros [= ->]. now left.
  - intros H. right. auto.
Qed.

Lemma In_kv_get k v l : sorted l -> In (k, v) l -> kv_get k l = Some v.
Proof.
  induction l as [|[a va] l IH]; simpl; intros S; [tauto|].
  destruct (sorted_inv S) as [S' F].
  intros [[= -> ->]|I].
  - now rewrite bytes_compare_refl.
  - assert (L : bytes_lt a k).
    { rewrite Forall_forall in F. apply F.
      change k with (fst (k, v)). now apply in_map. }
    unfold bytes_lt in L. rewrite L. auto.
Qed.

Lemma nth_error_kv_get i k v l :
  sorted l -> nth_error l i = Some (k, v) -> kv_get k l = Some v.
Proof.
  intros S H. apply In_kv_get; auto. eapply nth_error_In; eauto.
Qed.

(** [Get] is a seek followed by a comparison of the key found. *)
Lemma kv_get_search k l :
  kv_get k l =
  match nth_error l (search k l) with
  | Some (k', v) => if bytes_eqb k' k then Some v else None
  | None => None
  end.
Proof.
  induction l as [|[a va] l IH]; simpl; auto.
  unfold bytes_eqb.
  destruct (bytes_compare a k) eqn:E; simpl; auto; now rewrite E.
Qed.

Lemma search_hit k v l :
  kv_get k l = Some v -> nth_error l (search k l) = Some (k, v).
Proof.
  rewrite kv_get_search.
  destruct (nth_error l (search k l)) as [[k' v']|]; try discriminate.
  destruct (bytes_eqb k' k) eqn:E; try discriminate.
  apply bytes_eqb_eq in E. subst k'. now intros [= ->].
Qed.

Lemma search_miss k l k' v' :
  kv_get k l = None -> nth_error l (search k l) = Some (k', v') -> k' <> k.
Proof.
  rewrite kv_get_search. intros H E. rewrite E in H.
  destruct (bytes_eqb k' k) eqn:B; try discriminate.
  now apply bytes_eqb_neq.
Qed.

(** In a sorted list the index of an entry is where a seek for its key
    lands. *)
Lemma search_nth i k v l :
  sorted l -> nth_error l i = Some (k, v) -> search k l = i.
Proof.
  revert i. induction l as [|[a va] l IH]; intros i S H.
  - destruct i; discriminate.
  - destruct (sorted_inv S) as [S' F]. destruct i as [|i]; simpl in *.
    + injection H as -> ->. now rewrite bytes_compare_refl.
    + assert (L : bytes_lt a k).
      { rewrite Forall_forall in F. apply F.
        change k with (fst (k, v)). apply in_map. eapply nth_error_In; eauto. }
      unfold bytes_lt in L. rewrite L. f_equal. auto.
Qed.

Lemma sorted_keys_NoDup l : sorted l -> NoDup (map fst l).
Proof.
  induction l as [|[a va] l IH]; simpl; intros S; [constructor|].
  destruct (sorted_inv S) as [S' F]. constructor; auto.
  intros I. rewrite Forall_forall in F. apply F in I.
  now apply bytes_lt_irrefl in I.
Qed.

(** ** Values *)

Lemma firstn_PutUint64 s p : firstn 8 (newValue s p) = PutUint64 s.
Proof. reflexivity. Qed.


Lemma newValue_valid s p : Value.IsValid (newValue s p) = true.
Proof. reflexivity. Qed.

Lemma seqBytes_newValue s p : Value.seqBytes (newValue s p) = Some (PutUint64 s).
Proof. reflexivity. Qed.

Lemma Seq_newValue s p : Value.Seq (newValue s p) = Some (s mod 2 ^ 64).
Proof.
  unfold Value.Seq. rewrite seqBytes_newValue.
  rewrite <- (app_nil_r (PutUint64 s)). apply Uint64_PutUint64.
Qed.

Lemma PutUint64_inj s1 s2 :
  0 <= s1 < 2 ^ 64 -> 0 <= s2 < 2 ^ 64 -> PutUint64 s1 = PutUint64 s2 -> s1 = s2.
Proof.
  intros R1 R2 E.
  rewrite <- (Z.mod_small s1 (2 ^ 64)), <- (Z.mod_small s2 (2 ^ 64)) by lia.
  rewrite <- !be_val_PutUint64. now rewrite E.
Qed.

Lemma kv_del_absent k l : kv_get k l = None -> kv_del k l = l.
Proof.
  induction l as [|[a va] l IH]; simpl; auto.
  destruct (bytes_compare a k); try discriminate; auto.
  intros H. now rewrite IH.
Qed.

(** ** What a successful [Put] does *)

(** Symbolic execution of a computation of the package. *)
Ltac exec :=
  cbv beta iota zeta delta
    [bind ret must panic deref store is_writable loc_Bucket
     CreateBucketIfNotExists bolt_Get bolt_Put bolt_Delete bolt_NextSequence
     bolt_Cursor at_index bolt_First bolt_Last bolt_Next bolt_Prev bolt_Seek
     bolt_CursorDelete get_bucket set_bucket
     writable dataBucket seqBucket entries sequence bucket stack
     negb fst snd option_map content
     pointer.c pointer.key pointer.val
     Cursor.cs Cursor.dp Cursor.seq Cursor.key Cursor.err
     Cursor.set_cs Cursor.set_dp Cursor.set_err Cursor.set_pos
     data_entries seq_entries counter with_data with_seq];
  cbn [kv_get kv_put kv_del].

Ltac exec_if :=
  match goal with
  | |- context [if ?c then _ else _] => destruct c eqn:?
  end.

Lemma Put_success k p st s st' :
  Bucket.Put k p st = Return (s, None) st' ->
  writable st = true /\ writable st' = true /\
  s = (counter st + 1) mod 2 ^ 64 /\ counter st' = s /\
  k <> [] /\
  (forall v, kv_get k (data_entries st) = Some v -> Value.IsValid v = true) /\
  data_entries st' = kv_put k (newValue s p) (kv_del k (data_entries st)) /\
  seq_entries st' = kv_put (PutUint64 s) k (retired_seq k st) /\
  dataBucket st' <> None /\ seqBucket st' <> None.
Proof.
  destruct st as [w d q].
  unfold Bucket.Put, Bucket.deleteCurrent, retired_seq.
  destruct w, d as [[de dq]|], q as [[qe qq]|]; exec; try discriminate.
  all: try (destruct (kv_get k de) as [v|] eqn:G); exec.
  all: try (unfold Value.seqBytes at 1; destruct (Value.IsValid v) eqn:V; exec;
            [|discriminate]).
  all: rewrite seqBytes_newValue; exec.
  all: repeat (exec_if; exec; try discriminate).
  all: intros [= <- <-]; exec.
  all: assert (k <> []) by (intros ->; discriminate).
  all: try rewrite (kv_del_absent _ _ G).
  all: repeat split; auto; try discriminate; congruence.
Qed.

(** [Put] completes in a writable transaction for a key and a payload of
    admissible sizes, unless the value it finds is damaged. *)
Lemma Put_returns (k p : bytes) st :
  writable st = true -> k <> [] ->
  Z.of_nat (length k) <= MaxKeySize ->
  Z.of_nat (length p) + 8 <= MaxValueSize ->
  (forall v, kv_get k (data_entries st) = Some v -> Value.IsValid v = true) ->
  exists s st', Bucket.Put k p st = Return (s, None) st'.
Proof.
  destruct st as [w d q]. cbn [writable]. intros -> K Lk Lp V.
  assert (C1 : (length k =? 0)%nat = false).
  { destruct k; [congruence|reflexivity]. }
  assert (C2 : (Z.of_nat (length k) >? MaxKeySize) = false).
  { rewrite Z.gtb_ltb. apply Z.ltb_ge. lia. }
  assert (C3 : (Z.of_nat (length k) >? MaxValueSize) = false).
  { rewrite Z.gtb_ltb. apply Z.ltb_ge.
    unfold MaxKeySize, MaxValueSize in *. lia. }
  assert (C4 : forall s,
    (Z.of_nat (length (newValue s p)) >? MaxValueSize) = false).
  { intros s. rewrite Z.gtb_ltb. apply Z.ltb_ge. unfold newValue.
    rewrite length_app, PutUint64_length. lia. }
  unfold Bucket.Put, Bucket.deleteCurrent.
  destruct d as [[de dq]|], q as [[qe qq]|];
    cbn [data_entries dataBucket entries] in V; exec.
  all: try (destruct (kv_get k de) as [v|] eqn:G;
            [rewrite (V v eq_refl); unfold Value.seqBytes at 1;
             rewrite (V v eq_refl)|]); exec.
  all: rewrite seqBytes_newValue; exec.
  all: change (length (PutUint64 _)) with 8%nat; cbn [Nat.eqb].
  all: change (Z.of_nat 8 >? MaxKeySize) with false; cbv iota.
  all: rewrite C1, C2, C3, C4; eexists _, _; reflexivity.
Qed.

Lemma Get_eq k st :
  Bucket.Get k st = Return (kv_get k (data_entries st)) st.
Proof.
  destruct st as [w [[de dq]|] q]; reflexivity.
Qed.

Lemma GetSeq_eq s st :
  Bucket.GetSeq s st = Return (kv_get (PutUint64 s) (seq_entries st)) st.
Proof.
  destruct st as [w d [[qe qq]|]]; reflexivity.
Qed.

(** ** The codec and [Put] *)

(** C7. For every sequence number [s] (a [uint64]) and every payload [p],
    empty and all-zero payloads included, [newValue s p] has length
    [8 + len p], its first eight bytes decode as a big-endian integer to [s]
    and the bytes behind them are [p]; so the value is valid and its
    accessors [Seq] and [Data] give back [s] and [p]. *)
Theorem newValue_roundtrip (s : Z) (p : bytes) :
  0 <= s < 2 ^ 64 ->
  length (newValue s p) = (8 + length p)%nat /\
  Uint64 (firstn 8 (newValue s p)) = Some s /\
  skipn 8 (newValue s p) = p /\
  Value.IsValid (newValue s p) = true /\
  Value.Seq (newValue s p) = Some s /\
  Value.Data (newValue s p) = Some p.
Proof.
  intros R.
  assert (E : Value.Seq (newValue s p) = Some s).
  { rewrite Seq_newValue. now rewrite Z.mod_small. }
  repeat split; auto.
Qed.

Lemma newValue_roundtrip_witness :
  Value.Seq (newValue 1 []) = Some 1 /\
  Value.Data (newValue 1 []) = Some [] /\
  Value.Seq (newValue (2 ^ 64 - 1) [x00; x00; x00]) = Some (2 ^ 64 - 1) /\
  Value.Data (newValue (2 ^ 64 - 1) [x00; x00; x00]) = Some [x00; x00; x00].
Proof.
  assert (R1 : 0 <= 1 < 2 ^ 64) by lia.
  assert (R2 : 0 <= 2 ^ 64 - 1 < 2 ^ 64) by lia.
  pose proof (newValue_roundtrip 1 [] R1) as H1.
  pose proof (newValue_roundtrip (2 ^ 64 - 1) [x00; x00; x00] R2) as H2.
  repeat split; try apply H1; apply H2.
Defined.

(** C1. When [Put k p] returns the sequence number [s] and no error,
    [Get k] returns a valid value whose [Seq] is [s] and whose [Data] is [p],
    and [GetSeq s] returns [k]; on a location where nothing was put yet the
    sequence number returned is 1. *)
Theorem Put_Get_GetSeq (k p : bytes) (st st' : Location) (s : Z) :
  Bucket.Put k p st = Return (s, None) st' ->
  (exists v, Bucket.Get k st' = Return (Some v) st' /\
             Value.IsValid v = true /\
             Value.Seq v = Some s /\ Value.Data v = Some p) /\
  Bucket.GetSeq s st' = Return (Some k) st' /\
  (forall w, st = empty w -> s = 1).
Proof.
  intros H. apply Put_success in H.
  destruct H as (_ & _ & Hs & _ & _ & _ & Hd & Hq & _).
  assert (R : 0 <= s < 2 ^ 64) by (subst s; apply Z.mod_pos_bound; lia).
  split; [|split].
  - exists (newValue s p). rewrite Get_eq, Hd, kv_get_put_same.
    destruct (newValue_roundtrip s p R) as (_ & _ & _ & V & S & D). auto.
  - now rewrite GetSeq_eq, Hq, kv_get_put_same.
  - intros w ->. subst s. reflexivity.
Qed.

Lemma Put_Get_GetSeq_witness :
  Bucket.Put key_x data_v (empty true) =
    Return (1, None)
      (mkLocation true
         (Some (mkBucket [(key_x, newValue 1 data_v)] 0))
         (Some (mkBucket [(PutUint64 1, key_x)] 1))) /\
  exists v, Bucket.Get key_x
      (mkLocation true
         (Some (mkBucket [(key_x, newValue 1 data_v)] 0))
         (Some (mkBucket [(PutUint64 1, key_x)] 1))) =
    Return (Some v)
      (mkLocation true
         (Some (mkBucket [(key_x, newValue 1 data_v)] 0))
         (Some (mkBucket [(PutUint64 1, key_x)] 1))) /\
    Value.Seq v = Some 1 /\ Value.Data v = Some data_v.
Proof.
  assert (H : Bucket.Put key_x data_v (empty true) =
    Return (1, None)
      (mkLocation true
         (Some (mkBucket [(key_x, newValue 1 data_v)] 0))
         (Some (mkBucket [(PutUint64 1, key_x)] 1)))) by reflexivity.
  split; [exact H|].
  destruct (Put_Get_GetSeq _ _ _ _ _ H) as ((v & G & _ & S & D) & _).
  exists v. auto.
Defined.

(** ** Byte order and numeric order *)

Lemma be_val_compare a b :
  length a = length b ->
  bytes_compare a b = Z.compare (be_val a) (be_val b).
Proof.
  revert b. induction a as [|x a IH]; intros [|y b]; simpl; try discriminate.
  - reflexivity.
  - intros [= L]. rewrite <- L.
    generalize (be_val_range a) (be_val_range b). rewrite <- L.
    assert (P : 0 < 256 ^ Z.of_nat (length a)) by (apply Z.pow_pos_nonneg; lia).
    revert P. generalize (256 ^ Z.of_nat (length a)). intros m P Ra Rb.
    unfold byte_to_Z.
    destruct (N.compare (Byte.to_N x) (Byte.to_N y)) eqn:E.
    + apply N.compare_eq in E. rewrite E, (IH b L).
      symmetry. destruct (Z.compare_spec (be_val a) (be_val b)) as [C|C|C].
      * apply Z.compare_eq_iff. lia.
      * apply Z.compare_lt_iff. lia.
      * apply Z.compare_gt_iff. lia.
    + change (Byte.to_N x < Byte.to_N y)%N in E.
      symmetry. apply Z.compare_lt_iff.
      assert (D : Z.of_N (Byte.to_N x) + 1 <= Z.of_N (Byte.to_N y)) by lia.
      assert (0 <= (Z.of_N (Byte.to_N y) - Z.of_N (Byte.to_N x) - 1) * m) by nia.
      lia.
    + apply N.compare_gt_iff in E. symmetry. apply Z.compare_gt_iff.
      assert (D : Z.of_N (Byte.to_N y) + 1 <= Z.of_N (Byte.to_N x)) by lia.
      assert (0 <= (Z.of_N (Byte.to_N x) - Z.of_N (Byte.to_N y) - 1) * m) by nia.
      lia.
Qed.

Lemma PutUint64_be_val b : length b = 8%nat -> PutUint64 (be_val b) = b.
Proof.
  intros L. apply bytes_compare_eq.
  rewrite be_val_compare by (now rewrite PutUint64_length).
  apply Z.compare_eq_iff. rewrite be_val_PutUint64.
  apply Z.mod_small. generalize (be_val_range b). rewrite L.
  change (256 ^ Z.of_nat 8) with (2 ^ 64). lia.
Qed.

Lemma Uint64_firstn v :
  Value.IsValid v = true -> Uint64 (firstn 8 v) = Some (be_val (firstn 8 v)).
Proof.
  unfold Value.IsValid. intros V. apply Nat.leb_le in V.
  do 8 (destruct v as [|? v]; [simpl in V; lia|]).
  cbn [firstn]. apply Uint64_be_val.
Qed.

Lemma firstn_valid_length v :
  Value.IsValid v = true -> length (firstn 8 v) = 8%nat.
Proof.
  unfold Value.IsValid. intros V. apply Nat.leb_le in V.
  rewrite length_firstn. lia.
Qed.

Lemma Seq_seqBytes v s :
  Value.Seq v = Some s ->
  Value.IsValid v = true /\ PutUint64 s = firstn 8 v /\ 0 <= s < 2 ^ 64.
Proof.
  unfold Value.Seq, Value.seqBytes.
  destruct (Value.IsValid v) eqn:V; try discriminate.
  rewrite Uint64_firstn by auto. intros E.
  assert (Es : s = be_val (firstn 8 v)) by congruence. subst s. clear E.
  split; auto. split.
  - apply PutUint64_be_val. now apply firstn_valid_length.
  - generalize (be_val_range (firstn 8 v)).
    rewrite firstn_valid_length by auto.
    change (256 ^ Z.of_nat 8) with (2 ^ 64). lia.
Qed.

Lemma Seq_valid v :
  Value.IsValid v = true -> Value.Seq v = Some (be_val (firstn 8 v)).
Proof.
  intros V. unfold Value.Seq, Value.seqBytes. rewrite V.
  now apply Uint64_firstn.
Qed.

(** ** What [Delete] does *)

Lemma Delete_success k st v :
  kv_get k (data_entries st) = Some v ->
  Value.IsValid v = true ->
  seqBucket st <> None ->
  writable st = true ->
  exists st',
    Bucket.Delete k st = Return None st' /\
    writable st' = true /\ counter st' = counter st /\
    data_entries st' = kv_del k (data_entries st) /\
    seq_entries st' = kv_del (firstn 8 v) (seq_entries st) /\
    (dataBucket st' = None <-> dataBucket st = None) /\
    (seqBucket st' = None <-> seqBucket st = None).
Proof.
  destruct st as [w [[de dq]|] [[qe qq]|]]; exec; try discriminate; try tauto.
  intros G V _ ->. unfold Bucket.Delete. exec. rewrite G.
  unfold Value.seqBytes. rewrite V. exec.
  eexists. split; [reflexivity|]. exec. repeat split; auto; discriminate.
Qed.

(** C3. [Put k p1] returning [s1] followed by [Put k p2] returning [s2]:
    [s2] is above [s1], [GetSeq s1] is absent, [GetSeq s2] is [k] and the
    data of [Get k] is [p2].  Each of the two calls, the insert or overwrite
    and the overwrite, moves the counter of the store by one and returns its
    new value.  The counter is a [uint64]: [s2] is the successor of [s1]
    modulo 2^64, above [s1] unless [s1] is the last value of the type, which
    a store that keeps its promise of increasing numbers never issues before
    another one. *)
Theorem Put_overwrite (k p1 p2 : bytes) (st st1 st2 : Location) (s1 s2 : Z) :
  sorted (seq_entries st) ->
  Bucket.Put k p1 st = Return (s1, None) st1 ->
  Bucket.Put k p2 st1 = Return (s2, None) st2 ->
  (s1 < uint64_max -> s2 > s1) /\
  Bucket.GetSeq s1 st2 = Return None st2 /\
  Bucket.GetSeq s2 st2 = Return (Some k) st2 /\
  (exists v, Bucket.Get k st2 = Return (Some v) st2 /\
             Value.Data v = Some p2) /\
  s1 = (counter st + 1) mod 2 ^ 64 /\ counter st1 = s1 /\
  s2 = (s1 + 1) mod 2 ^ 64 /\ counter st2 = s2 /\ s2 <> s1.
Proof.
  intros S H1 H2. unfold uint64_max.
  apply Put_success in H1. apply Put_success in H2.
  destruct H1 as (_ & _ & Hs1 & Hc1 & _ & _ & Hd1 & Hq1 & _).
  destruct H2 as (_ & _ & Hs2 & Hc2 & _ & _ & Hd2 & Hq2 & _).
  assert (R1 : 0 <= s1 < 2 ^ 64) by (rewrite Hs1; apply Z.mod_pos_bound; lia).
  assert (R2 : 0 <= s2 < 2 ^ 64) by (rewrite Hs2; apply Z.mod_pos_bound; lia).
  assert (E2 : s2 = (s1 + 1) mod 2 ^ 64) by congruence.
  assert (N2 : s2 <> s1).
  { rewrite E2. destruct (Z.eq_dec s1 (2 ^ 64 - 1)) as [->|N].
    - cbn. lia.
    - rewrite Z.mod_small by lia. lia. }
  assert (G1 : kv_get k (data_entries st1) = Some (newValue s1 p1)).
  { rewrite Hd1. apply kv_get_put_same. }
  assert (S1 : sorted (seq_entries st1)).
  { rewrite Hq1. apply sorted_put. unfold retired_seq.
    destruct (kv_get k (data_entries st)); auto. now apply sorted_del. }
  assert (N : PutUint64 s2 <> PutUint64 s1).
  { intros E. apply PutUint64_inj in E; auto. }
  split; [|split; [|split; [|split]]].
  - intros B. rewrite E2. rewrite Z.mod_small by lia. lia.
  - rewrite GetSeq_eq, Hq2. rewrite kv_get_put_other by exact N.
    unfold retired_seq. rewrite G1, firstn_PutUint64.
    now rewrite kv_get_del_same.
  - rewrite GetSeq_eq, Hq2. now rewrite kv_get_put_same.
  - exists (newValue s2 p2). rewrite Get_eq, Hd2, kv_get_put_same. auto.
  - repeat split; auto.
Qed.

(** C4. [Delete key] fails with [ErrInvalidBucket] when the data bucket does
    not exist, does nothing and succeeds when the key is absent, fails with
    [ErrInvalidValue] when the stored value is shorter than 8 bytes and with
    [ErrInvalidBucket] when the seq bucket does not exist; otherwise, in a
    writable transaction, it removes the seq entry under the stored sequence
    number and the data entry: [Get key] and [GetSeq] of the prior sequence
    number are absent afterwards. *)
Theorem Delete_cases (k : bytes) (st : Location) :
  (dataBucket st = None ->
     Bucket.Delete k st = Return (Some ErrInvalidBucket) st) /\
  (dataBucket st <> None -> Bucket.Get k st = Return None st ->
     Bucket.Delete k st = Return None st) /\
  (forall v, Bucket.Get k st = Return (Some v) st ->
     Value.IsValid v = false ->
     Bucket.Delete k st = Return (Some ErrInvalidValue) st) /\
  (forall v, Bucket.Get k st = Return (Some v) st ->
     Value.IsValid v = true -> seqBucket st = None ->
     Bucket.Delete k st = Return (Some ErrInvalidBucket) st) /\
  (forall v s, Bucket.Get k st = Return (Some v) st ->
     Value.Seq v = Some s -> seqBucket st <> None ->
     writable st = true ->
     sorted (data_entries st) -> sorted (seq_entries st) ->
     exists st',
       Bucket.Delete k st = Return None st' /\
       Bucket.Get k st' = Return None st' /\
       Bucket.GetSeq s st' = Return None st' /\
       data_entries st' = kv_del k (data_entries st) /\
       seq_entries st' = kv_del (PutUint64 s) (seq_entries st)).
Proof.
  rewrite Get_eq.
  split; [|split; [|split; [|split]]].
  - destruct st as [w [[de dq]|] q]; try discriminate. reflexivity.
  - destruct st as [w [[de dq]|] q]; [|tauto]. exec.
    intros _ [= G]. unfold Bucket.Delete. exec. now rewrite G.
  - destruct st as [w [[de dq]|] q]; exec; [|discriminate].
    intros v [= G] V. unfold Bucket.Delete. exec. now rewrite G, V.
  - destruct st as [w [[de dq]|] q]; exec; [|discriminate].
    intros v [= G] V ->. unfold Bucket.Delete. exec. now rewrite G, V.
  - intros v s [= G] Sq Q W Sd Ss.
    destruct (Seq_seqBytes _ _ Sq) as (V & E & _).
    destruct (Delete_success k st v G V Q W) as (st' & D & _ & _ & Hd & Hq & _).
    exists st'. rewrite !Get_eq, !GetSeq_eq, Hd, Hq, E.
    repeat split; auto.
    + now rewrite kv_get_del_same.
    + now rewrite kv_get_del_same.
Qed.

(** ** The invariant is kept *)

Lemma mirrored_empty : mirrored [] [] 0.
Proof.
  constructor; try apply sorted_nil; try discriminate. lia.
Qed.

Lemma consistent_empty w : consistent (empty w).
Proof. apply mirrored_empty. Qed.

Lemma mirrored_counter de qe n n' :
  mirrored de qe n -> n <= n' < 2 ^ 64 -> mirrored de qe n'.
Proof.
  intros [Sd Sq DS SD R] B. constructor; auto; [|lia].
  intros sb k H. destruct (SD sb k H) as (s & v & ? & ? & ?).
  exists s, v. repeat split; try tauto; lia.
Qed.

(** Removing an entry from both buckets. *)
Lemma mirrored_remove de qe n k v :
  mirrored de qe n -> kv_get k de = Some v ->
  mirrored (kv_del k de) (kv_del (firstn 8 v) qe) n.
Proof.
  intros [Sd Sq DS SD R] G.
  destruct (DS k v G) as (_ & _ & Gq).
  constructor; auto using sorted_del.
  - intros k' v' G'.
    assert (N : k <> k').
    { intros <-. rewrite kv_get_del_same in G' by auto. discriminate. }
    rewrite kv_get_del_other in G' by auto.
    destruct (DS k' v' G') as (? & ? & Gq').
    repeat split; auto.
    rewrite kv_get_del_other; auto. congruence.
  - intros sb k' G'.
    assert (N : firstn 8 v <> sb).
    { intros <-. rewrite kv_get_del_same in G' by auto. discriminate. }
    rewrite kv_get_del_other in G' by auto.
    destruct (SD sb k' G') as (s & v' & ? & ? & Gd & ? & ?).
    exists s, v'. repeat split; try tauto.
    rewrite kv_get_del_other; auto. congruence.
Qed.

(** Adding an entry under a sequence number that was not issued before. *)
Lemma mirrored_insert de qe n k p :
  mirrored de qe n -> kv_get k de = None -> k <> [] -> n + 1 < 2 ^ 64 ->
  mirrored (kv_put k (newValue (n + 1) p) de)
           (kv_put (PutUint64 (n + 1)) k qe) (n + 1).
Proof.
  intros [Sd Sq DS SD R] G K B.
  assert (F : forall sb k', kv_get sb qe = Some k' -> PutUint64 (n + 1) <> sb).
  { intros sb k' H E. destruct (SD sb k' H) as (s & _ & -> & ? & _).
    apply PutUint64_inj in E; lia. }
  constructor; auto using sorted_put; [| |lia].
  - intros k' v'. destruct (list_eq_dec Byte.byte_eq_dec k k') as [<-|N].
    + rewrite kv_get_put_same. intros [= <-].
      rewrite firstn_PutUint64, kv_get_put_same. auto.
    + rewrite kv_get_put_other by auto. intros G'.
      destruct (DS k' v' G') as (? & ? & Gq).
      repeat split; auto. rewrite kv_get_put_other; eauto.
  - intros sb k'.
    destruct (list_eq_dec Byte.byte_eq_dec (PutUint64 (n + 1)) sb) as [<-|N].
    + rewrite kv_get_put_same. intros [= <-].
      exists (n + 1), (newValue (n + 1) p).
      rewrite kv_get_put_same. repeat split; auto; lia.
    + rewrite kv_get_put_other by auto. intros G'.
      destruct (SD sb k' G') as (s & v' & ? & ? & Gd & ? & ?).
      exists s, v'. repeat split; try tauto; try lia.
      rewrite kv_get_put_other; auto. congruence.
Qed.

Lemma Put_consistent k p st s st' :
  consistent st -> counter st + 1 < 2 ^ 64 ->
  Bucket.Put k p st = Return (s, None) st' ->
  consistent st' /\ counter st' = counter st + 1.
Proof.
  intros C B H. apply Put_success in H.
  destruct H as (_ & _ & Hs & Hc & K & _ & Hd & Hq & _).
  assert (R : 0 <= counter st) by (destruct C; lia).
  rewrite Z.mod_small in Hs by lia.
  split; [|congruence].
  unfold consistent. rewrite Hd, Hq, Hc, Hs.
  assert (M : mirrored (kv_del k (data_entries st)) (retired_seq k st)
                (counter st)).
  { unfold retired_seq.
    destruct (kv_get k (data_entries st)) as [v|] eqn:G.
    - now apply mirrored_remove.
    - now rewrite kv_del_absent. }
  apply mirrored_insert; auto.
  destruct C. now apply kv_get_del_same.
Qed.

Lemma Delete_result k st st' :
  Bucket.Delete k st = Return None st' ->
  st' = st \/
  exists v, kv_get k (data_entries st) = Some v /\
    counter st' = counter st /\
    data_entries st' = kv_del k (data_entries st) /\
    seq_entries st' = kv_del (firstn 8 v) (seq_entries st).
Proof.
  destruct st as [w [[de dq]|] q]; unfold Bucket.Delete; exec;
    try discriminate.
  destruct (kv_get k de) as [v|] eqn:G; exec.
  2:{ intros [= <-]. now left. }
  destruct (Value.IsValid v) eqn:V; exec; try discriminate.
  destruct q as [[qe qq]|]; exec; try discriminate.
  unfold Value.seqBytes. rewrite V. exec.
  destruct w; exec; try discriminate.
  intros [= <-]. right. exists v. auto.
Qed.

Lemma Delete_consistent k st st' :
  consistent st -> Bucket.Delete k st = Return None st' ->
  consistent st' /\ counter st' = counter st.
Proof.
  intros C H. apply Delete_result in H.
  destruct H as [->|(v & G & Hc & Hd & Hq)]; auto.
  split; auto. unfold consistent. rewrite Hd, Hq, Hc.
  now apply mirrored_remove.
Qed.

(** ** Moves of the cursor *)

Lemma sync_at_eq e cur c st :
  Cursor.sync_at (e, cur) c st =
  match e with
  | None => Return (false, Cursor.set_cs (Some cur) c) st
  | Some (sb, k) =>
      if Value.IsValid sb
      then Return (true, Cursor.set_pos (be_val (firstn 8 sb)) (Some k)
                           (Cursor.set_cs (Some cur) c)) st
      else Return (false, Cursor.set_err (Some ErrInvalidKey)
                            (Cursor.set_cs (Some cur) c)) st
  end.
Proof.
  unfold Cursor.sync_at, Cursor.sync. destruct e as [[sb k]|]; exec; auto.
  destruct (Value.IsValid sb) eqn:V; auto.
  now rewrite Seq_valid.
Qed.

Lemma position_eq m c :
  position m c =
  match Cursor.cs c with
  | None => ret (false, c)
  | Some cur => r <- bolt_move m cur ;; Cursor.sync_at r c
  end.
Proof. destruct m; reflexivity. Qed.

(** A call on a store cursor leaves the location as it is, and an entry it
    returns is the entry at the new position of the cursor. *)
Lemma bolt_move_spec m cur st b :
  get_bucket (bucket cur) st = Some b ->
  exists e cur',
    bolt_move m cur st = Return (e, cur') st /\
    bucket cur' = bucket cur /\
    forall sb k, e = Some (sb, k) ->
      exists i, stack cur' = Some i /\ nth_error (entries b) i = Some (sb, k).
Proof.
  intros G. destruct cur as [h s].
  assert (A : forall i,
    exists e cur',
      Return (at_index (mkBoltCursor h s) i (entries b)) st = Return (e, cur') st /\
      bucket cur' = h /\
      forall sb k, e = Some (sb, k) ->
        exists j, stack cur' = Some j /\ nth_error (entries b) j = Some (sb, k)).
  { intros i. eexists _, _. split; [reflexivity|]. split; [reflexivity|].
    intros sb k E. exists i. split; [reflexivity|exact E]. }
  assert (N : forall cur' : boltCursor, bucket cur' = h ->
    exists e cur'',
      Return (@None entry, cur') st = Return (e, cur'') st /\
      bucket cur'' = h /\
      forall sb k, e = Some (sb, k) ->
        exists j, stack cur'' = Some j /\ nth_error (entries b) j = Some (sb, k)).
  { intros cur' Hc. eexists _, _. split; [reflexivity|]. split; [exact Hc|].
    discriminate. }
  destruct m; unfold bolt_move, bolt_First, bolt_Last, bolt_Next, bolt_Prev,
    bolt_Seek, deref, bind, must; cbn [bucket stack] in *; rewrite G;
    unfold ret; cbn [bucket stack]; auto.
  - destruct s as [i|]; auto.
    destruct (S i <? length (entries b))%nat; auto.
  - destruct s as [[|i]|]; auto.
Qed.

Lemma bolt_move_state m cur st r st' :
  bolt_move m cur st = Return r st' -> st' = st.
Proof.
  destruct cur as [h s].
  destruct m; unfold bolt_move, bolt_First, bolt_Last, bolt_Next, bolt_Prev,
    bolt_Seek, deref, bind, must, ret; cbn [bucket stack];
    destruct (get_bucket h st) as [b|]; try discriminate.
  - now intros [= _ <-].
  - now intros [= _ <-].
  - destruct s as [i|]; [destruct (S i <? length (entries b))%nat|];
      now intros [= _ <-].
  - destruct s as [[|i]|]; now intros [= _ <-].
  - now intros [= _ <-].
Qed.

Lemma seq_bucket_entries {st b} :
  seqBucket st = Some b -> seq_entries st = entries b.
Proof. unfold seq_entries. now intros ->. Qed.

Lemma data_bucket_entries {st b} :
  dataBucket st = Some b -> data_entries st = entries b.
Proof. unfold data_entries. now intros ->. Qed.

Lemma position_ok m b c st :
  cursor_ok b c st ->
  exists ok c',
    position m c st = Return (ok, c') st /\ cursor_ok ok c' st /\
    Cursor.dp c' = Cursor.dp c.
Proof.
  intros (P & Q & _). rewrite position_eq.
  destruct c as [cs dp sq ky er]; cbn [Cursor.cs Cursor.dp] in *.
  destruct cs as [cur|].
  - destruct Q as (Hb & Hq).
    destruct (seqBucket st) as [bq|] eqn:Eq; [|congruence].
    destruct (bolt_move_spec m cur st bq) as (e & cur' & Hm & Hb' & He).
    { now rewrite Hb. }
    unfold bind. rewrite Hm, sync_at_eq.
    destruct e as [[sb k]|].
    + destruct (Value.IsValid sb); eexists _, _; (split; [reflexivity|]);
        (split; [|reflexivity]); (split; [exact P|]);
        (split; [cbn; split; congruence|]); try discriminate.
      intros _. destruct (He sb k eq_refl) as (i & Hs & Hn).
      exists cur', i, sb, k. cbn.
      rewrite (seq_bucket_entries Eq). auto.
    + eexists _, _. split; [reflexivity|]. split; [|reflexivity].
      split; [exact P|]. split; [cbn; split; congruence|discriminate].
  - eexists _, _. split; [reflexivity|]. split; [|reflexivity].
    split; [exact P|]. split; [exact Q|discriminate].
Qed.

(** ** The pointer *)

Lemma pointer_move_ok k p st :
  pointer_ok p st ->
  exists ok p',
    pointer.move k p st = Return (ok, p') st /\ pointer_ok p' st.
Proof.
  unfold pointer_ok, pointer.move. destruct p as [[cur|] pk pv]; cbn.
  - intros (Hb & Hd & Hk).
    destruct (bytes_Equal pk k).
    + eexists _, _. split; [reflexivity|]. cbn. auto.
    + destruct (dataBucket st) as [bd|] eqn:Ed; [|congruence].
      unfold bolt_Seek, deref, bind, must. rewrite Hb. cbn [get_bucket].
      rewrite Ed. unfold ret, at_index.
      eexists _, _. split; [reflexivity|]. cbn.
      repeat split; auto; try congruence.
      rewrite (data_bucket_entries Ed).
      destruct (nth_error (entries bd) (search (content k) (entries bd)))
        as [[k' v']|] eqn:N; cbn; auto.
      right. eauto.
  - intros Hd. eexists _, _. split; [reflexivity|]. exact Hd.
Qed.

Lemma Data_ok b c st :
  cursor_ok b c st ->
  exists r c', Cursor.Data c st = Return (r, c') st /\ cursor_ok b c' st.
Proof.
  intros (P & Q & R). unfold Cursor.Data, pointer.Get.
  destruct (pointer_move_ok (Cursor.key c) (Cursor.dp c) st P)
    as (ok & p' & Hm & P').
  unfold bind at 1 2. rewrite Hm.
  assert (O : cursor_ok b (Cursor.set_dp p' c) st) by (split; auto).
  destruct ok; unfold ret; cbn [negb].
  - destruct (Value.IsValid (content (pointer.val p'))) eqn:V; cbn [negb].
    + unfold bind, must, Value.Data. rewrite V.
      eexists _, _. split; [reflexivity|exact O].
    + eexists _, _. split; [reflexivity|exact O].
  - eexists _, _. split; [reflexivity|exact O].
Qed.

(** The pointer deletes the entry of a key that is in the data bucket. *)
Lemma pointer_Delete_live (k v : bytes) p st :
  pointer_ok p st -> k <> [] ->
  kv_get k (data_entries st) = Some v ->
  exists p' cur,
    pointer.c p' = Some cur /\ bucket cur = bucketNameData /\
    pointer.key p' = Some k /\
    pointer.Delete (Some k) p st =
      if writable st
      then Return (None, p') (with_data (kv_del k (data_entries st)) st)
      else Return (Some ErrTxNotWritable, p') st.
Proof.
  unfold pointer_ok, pointer.Delete, pointer.move.
  destruct st as [w [[de dq]|] q]; destruct p as [[[h s]|] pk pv]; cbn;
    try discriminate; try (intros (_ & C & _); congruence).
  intros (-> & _ & Hk) K G.
  unfold bytes_Equal. cbn [content].
  destruct (bytes_eqb (content pk) k) eqn:E.
  - apply bytes_eqb_eq in E. destruct pk as [k'|]; cbn in E; [|congruence].
    subst k'. destruct Hk as [Hk|(i & v' & -> & Hn)]; [congruence|].
    exists (pointer.mk (Some (mkBoltCursor bucketNameData (Some i))) (Some k) pv),
           (mkBoltCursor bucketNameData (Some i)).
    split; [reflexivity|]. split; [reflexivity|].
    split; [reflexivity|].
    unfold bind, ret. cbn [negb]. unfold must, bolt_CursorDelete. exec.
    destruct w; exec; auto. now rewrite Hn.
  - pose proof (search_hit _ _ _ G) as Hn.
    unfold bolt_Seek, with_data. exec. rewrite Hn. cbn.
    rewrite bytes_eqb_refl.
    exists (pointer.mk (Some (mkBoltCursor bucketNameData (Some (search k de))))
                       (Some k) (Some v)),
           (mkBoltCursor bucketNameData (Some (search k de))).
    split; [reflexivity|]. split; [reflexivity|].
    split; [reflexivity|].
    unfold bolt_CursorDelete. exec.
    destruct w; exec; auto. now rewrite Hn.
Qed.

(** ** [Cursor.Delete] on a current item *)

Lemma Cursor_Delete_at c st cur i (sb k : bytes) :
  consistent st -> pointer_ok (Cursor.dp c) st ->
  Cursor.cs c = Some cur -> bucket cur = bucketNameSeq ->
  stack cur = Some i -> nth_error (seq_entries st) i = Some (sb, k) ->
  Cursor.key c = Some k ->
  exists c' st',
    Cursor.Delete c st =
      (if writable st then Return (None, c') st'
       else Return (Some ErrTxNotWritable, c') st) /\
    data_entries st' = kv_del k (data_entries st) /\
    seq_entries st' = kv_del sb (seq_entries st) /\
    counter st' = counter st /\ writable st' = writable st /\
    consistent st' /\ cursor_ok false c' st'.
Proof.
  intros C P Hcs Hb Hs Hn Hk.
  pose proof (nth_error_kv_get _ _ _ _ (seq_sorted _ _ _ C) Hn) as Gq.
  destruct (seq_to_data _ _ _ C _ _ Gq) as (s & v & _ & _ & Gd & _ & Ev).
  destruct (data_to_seq _ _ _ C _ _ Gd) as (K & _ & _).
  destruct (pointer_Delete_live k v _ st P K Gd)
    as (p' & curd & Hp1 & Hp2 & Hp3 & HD).
  assert (M : mirrored (kv_del k (data_entries st))
                       (kv_del sb (seq_entries st)) (counter st)).
  { rewrite <- Ev. now apply mirrored_remove. }
  destruct st as [w [[de dq]|] [[qe qq]|]]; try discriminate.
  destruct cur as [h si]. cbn in Hb, Hs, Hn, Gd, Gq, M. subst h si.
  destruct c as [cs dp sq ky er]. cbn in Hcs, Hk. subst cs ky.
  exists (Cursor.mk (Some (mkBoltCursor bucketNameSeq (Some i))) p' sq
                    (Some k) er),
         (mkLocation w (Some (mkBucket (kv_del k de) dq))
                     (Some (mkBucket (kv_del sb qe) qq))).
  split; [|split; [|split; [|split; [|split; [|split]]]]]; try reflexivity.
  - unfold Cursor.Delete, bind at 1. cbn [Cursor.key Cursor.dp].
    cbn [writable data_entries dataBucket entries Cursor.dp] in HD.
    rewrite HD.
    destruct w; [|reflexivity].
    unfold bolt_CursorDelete. exec. now rewrite Hn.
  - exact M.
  - unfold cursor_ok, pointer_ok. cbn. rewrite Hp1, Hp3.
    split; [|split]; try discriminate.
    + split; [exact Hp2|]. split; [discriminate|]. left.
      apply kv_get_del_same. exact (data_sorted _ _ _ C).
    + split; [reflexivity|discriminate].
Qed.

Lemma Bucket_Cursor_ok st :
  exists c, Bucket.Cursor st = Return c st /\ cursor_ok false c st /\
            Cursor.key c = None /\ Cursor.err c = None /\
            (Cursor.cs c = None <-> seqBucket st = None).
Proof.
  destruct st as [w [[de dq]|] [[qe qq]|]];
    unfold Bucket.Cursor; exec;
    eexists; (split; [reflexivity|]); cbn;
    unfold cursor_ok, pointer_ok; cbn;
    repeat split; auto; try discriminate.
Qed.

Lemma run_calls_consistent calls :
  forall b c st st',
    consistent st -> cursor_ok b c st ->
    run_calls calls b c st = Some st' ->
    consistent st' /\ counter st' = counter st.
Proof.
  induction calls as [|call calls IH]; intros b c st st' C O; simpl.
  - intros [= <-]. auto.
  - destruct call as [m| |].
    + destruct (position_ok m b c st O) as (ok & c' & -> & O' & _). eauto.
    + destruct (Data_ok b c st O) as (r & c' & -> & O'). eauto.
    + destruct b; [|discriminate].
      destruct O as (P & Q & R).
      destruct (R eq_refl) as (cur & i & sb & k & Hcs & Hs & Hn & Hk).
      rewrite Hcs in Q. destruct Q as (Hb & _).
      destruct (Cursor_Delete_at c st cur i sb k C P Hcs Hb Hs Hn Hk)
        as (c' & st1 & -> & _ & _ & Hc & _ & C1 & O1).
      destruct (writable st); [|discriminate].
      intros H. destruct (IH _ _ _ _ C1 O1 H) as (C' & Hc'). split; auto.
      congruence.
Qed.

(** ** [DeleteSeq] *)

Lemma Seek_eq s c st cur b :
  Cursor.cs c = Some cur -> bucket cur = bucketNameSeq ->
  seqBucket st = Some b ->
  Cursor.Seek s c st =
  Cursor.sync_at
    (nth_error (entries b) (search (PutUint64 s) (entries b)),
     mkBoltCursor bucketNameSeq (Some (search (PutUint64 s) (entries b))))
    c st.
Proof.
  intros Hcs Hb Hq. unfold Cursor.Seek. rewrite Hcs.
  destruct cur as [h si]. cbn in Hb. subst h.
  destruct st as [w d q]. cbn in Hq. subst q. reflexivity.
Qed.

(** [DeleteSeq] by the entry on which the seek lands. *)
Lemma DeleteSeq_eq s st :
  Bucket.DeleteSeq s st =
  match seqBucket st with
  | None => Return None st
  | Some b =>
      let i := search (PutUint64 s) (entries b) in
      match nth_error (entries b) i with
      | None => Return None st
      | Some (sb, k) =>
          if Value.IsValid sb then
            if be_val (firstn 8 sb) =? s then
              match
                Cursor.Delete
                  (Cursor.mk (Some (mkBoltCursor bucketNameSeq (Some i)))
                     (pointer.mk
                        (option_map (fun _ => bolt_Cursor bucketNameData)
                                    (dataBucket st)) None None)
                     (be_val (firstn 8 sb)) (Some k) None) st
              with
              | Return (e, _) st' => Return e st'
              | Panic => Panic
              end
            else Return None st
          else Return (Some ErrInvalidKey) st
      end
  end.
Proof.
  destruct st as [w d [[qe qq]|]]; unfold Bucket.DeleteSeq.
  2:{ destruct d; reflexivity. }
  cbn [seqBucket entries].
  set (c := Cursor.mk (Some (bolt_Cursor bucketNameSeq))
              (pointer.mk (option_map (fun _ => bolt_Cursor bucketNameData) d)
                          None None) 0 None None).
  set (st := mkLocation w d (Some (mkBucket qe qq))).
  assert (E : Bucket.Cursor st = Return c st).
  { subst c st. destruct d; reflexivity. }
  unfold bind at 1. rewrite E. unfold bind at 1.
  rewrite (Seek_eq s c st (bolt_Cursor bucketNameSeq) (mkBucket qe qq))
    by reflexivity.
  rewrite sync_at_eq. cbn [entries].
  destruct (nth_error qe (search (PutUint64 s) qe)) as [[sb k]|]; [|reflexivity].
  destruct (Value.IsValid sb); [|reflexivity].
  unfold Cursor.Seq, Cursor.set_pos, Cursor.set_cs. cbn [Cursor.seq negb].
  destruct (be_val (firstn 8 sb) =? s); [|reflexivity].
  cbn [negb]. unfold bind. subst c. cbn [Cursor.cs Cursor.dp Cursor.seq
    Cursor.key Cursor.err dataBucket].
  destruct (Cursor.Delete _ st) as [[e c'] st'|]; reflexivity.
Qed.

Lemma DeleteSeq_consistent s st :
  consistent st ->
  exists st',
    Bucket.DeleteSeq s st =
      match kv_get (PutUint64 s) (seq_entries st) with
      | Some k =>
          if (0 <=? s) && (s <? 2 ^ 64) then
            if writable st then Return None st'
            else Return (Some ErrTxNotWritable) st
          else Return None st
      | None => Return None st
      end /\
    (forall k, kv_get (PutUint64 s) (seq_entries st) = Some k ->
       0 <= s < 2 ^ 64 ->
       data_entries st' = kv_del k (data_entries st) /\
       seq_entries st' = kv_del (PutUint64 s) (seq_entries st) /\
       counter st' = counter st /\ writable st' = writable st /\
       consistent st').
Proof.
  intros C. rewrite DeleteSeq_eq.
  destruct (seqBucket st) as [b|] eqn:Eb.
  2:{ exists st. unfold seq_entries. rewrite Eb. cbn. split; [reflexivity|].
      discriminate. }
  rewrite <- (seq_bucket_entries Eb). cbv zeta.
  rewrite (kv_get_search (PutUint64 s) (seq_entries st)).
  destruct (nth_error (seq_entries st) (search (PutUint64 s) (seq_entries st)))
    as [[sb k]|] eqn:Hn.
  2:{ exists st. split; [reflexivity|discriminate]. }
  pose proof (nth_error_kv_get _ _ _ _ (seq_sorted _ _ _ C) Hn) as Gq.
  destruct (seq_to_data _ _ _ C _ _ Gq) as (s0 & v & Es & Rs & Gd & V & Ev).
  assert (R0 : 0 <= s0 < 2 ^ 64) by (destruct C; lia).
  assert (Vs : Value.IsValid sb = true) by (subst sb; reflexivity).
  assert (Bs : be_val (firstn 8 sb) = s0).
  { subst sb. cbn [firstn PutUint64]. fold (PutUint64 s0).
    rewrite be_val_PutUint64. now apply Z.mod_small. }
  rewrite Vs, Bs.
  destruct (Z.eqb_spec s0 s) as [<-|N].
  - assert (Rb : (0 <=? s0) && (s0 <? 2 ^ 64) = true).
    { apply andb_true_intro. split; [apply Z.leb_le|apply Z.ltb_lt]; lia. }
    rewrite Rb. rewrite (proj2 (bytes_eqb_eq sb (PutUint64 s0)) Es).
    assert (P : pointer_ok
      (pointer.mk (option_map (fun _ => bolt_Cursor bucketNameData)
                              (dataBucket st)) None None) st).
    { unfold pointer_ok. cbn.
      destruct (dataBucket st); cbn; auto. repeat split; auto. discriminate. }
    destruct (Cursor_Delete_at
      (Cursor.mk (Some (mkBoltCursor bucketNameSeq
                          (Some (search (PutUint64 s0) (seq_entries st)))))
         (pointer.mk (option_map (fun _ => bolt_Cursor bucketNameData)
                                 (dataBucket st)) None None)
         s0 (Some k) None) st
      (mkBoltCursor bucketNameSeq (Some (search (PutUint64 s0) (seq_entries st))))
      (search (PutUint64 s0) (seq_entries st)) sb k C P eq_refl eq_refl eq_refl Hn
      eq_refl) as (c' & st' & HD & Hd & Hq & Hc & Hw & C' & _).
    exists st'. rewrite HD. split.
    + destruct (writable st); reflexivity.
    + intros k' [= <-] _. rewrite <- Es. auto.
  - exists st. split; [|].
    + destruct (bytes_eqb sb (PutUint64 s)) eqn:B; [|reflexivity].
      apply bytes_eqb_eq in B.
      destruct ((0 <=? s) && (s <? 2 ^ 64)) eqn:Rb; [|reflexivity].
      apply andb_prop in Rb. destruct Rb as [R1 R2].
      apply Z.leb_le in R1. apply Z.ltb_lt in R2.
      rewrite Es in B. apply PutUint64_inj in B; auto. lia.
    + intros k'. destruct (bytes_eqb sb (PutUint64 s)) eqn:B; [|discriminate].
      intros _ R. apply bytes_eqb_eq in B.
      rewrite Es in B. apply PutUint64_inj in B; auto. lia.
Qed.

(** ** Sequences of operations *)

Lemma step_consistent op st st' :
  consistent st -> counter st + 1 < 2 ^ 64 ->
  step op st = Some st' ->
  consistent st' /\ counter st <= counter st' <= counter st + 1.
Proof.
  intros C B. destruct op as [k v|k|s|calls]; simpl.
  - destruct (Bucket.Put k v st) as [[s [e|]] st1|] eqn:H; try discriminate.
    intros [= <-]. destruct (Put_consistent k v st s st1 C B H). split; auto; lia.
  - destruct (Bucket.Delete k st) as [[e|] st1|] eqn:H; try discriminate.
    intros [= <-]. destruct (Delete_consistent k st st1 C H). split; auto; lia.
  - destruct (DeleteSeq_consistent s st C) as (st1 & -> & H).
    destruct (kv_get (PutUint64 s) (seq_entries st)) as [k|].
    + destruct ((0 <=? s) && (s <? 2 ^ 64)) eqn:R.
      * destruct (writable st); [|discriminate]. intros [= <-].
        apply andb_prop in R. destruct R as [R1 R2].
        apply Z.leb_le in R1. apply Z.ltb_lt in R2.
        destruct (H k eq_refl (conj R1 R2)) as (_ & _ & Hc & _ & C').
        split; auto; lia.
      * intros [= <-]. split; auto; lia.
    + intros [= <-]. split; auto; lia.
  - destruct (Bucket_Cursor_ok st) as (c & -> & O & _).
    intros H. destruct (run_calls_consistent calls false c st st' C O H).
    split; auto; lia.
Qed.

Lemma run_consistent ops :
  forall st st',
    consistent st -> counter st + Z.of_nat (length ops) < 2 ^ 64 ->
    run ops st = Some st' ->
    consistent st' /\ counter st' <= counter st + Z.of_nat (length ops).
Proof.
  induction ops as [|op ops IH]; intros st st' C B; simpl run.
  - intros [= <-]. split; auto. lia.
  - destruct (step op st) as [st1|] eqn:H; [|discriminate].
    cbn [length] in *. rewrite Nat2Z.inj_succ in *.
    assert (R : 0 <= counter st) by (destruct C; lia).
    destruct (step_consistent op st st1 C) as (C1 & B1); auto; try lia.
    intros H2. destruct (IH st1 st' C1) as (C' & B'); auto; try lia.
    split; auto. lia.
Qed.

Lemma reachable_consistent ops w st :
  run ops (empty w) = Some st -> Z.of_nat (length ops) < 2 ^ 64 ->
  consistent st.
Proof.
  intros H B.
  destruct (run_consistent ops (empty w) st (consistent_empty w)); auto.
Qed.


(** ** [DeleteSeq]: exact matches only *)

Lemma DeleteSeq_landing s st :
  Bucket.DeleteSeq s st =
  match landing s st with
  | None => Return None st
  | Some (sb, k) =>
      if Value.IsValid sb then
        if be_val (firstn 8 sb) =? s then
          match
            Cursor.Delete
              (Cursor.mk
                 (Some (mkBoltCursor bucketNameSeq
                          (Some (search (PutUint64 s) (seq_entries st)))))
                 (pointer.mk
                    (option_map (fun _ => bolt_Cursor bucketNameData)
                                (dataBucket st)) None None)
                 (be_val (firstn 8 sb)) (Some k) None) st
          with
          | Return (e, _) st' => Return e st'
          | Panic => Panic
          end
        else Return None st
      else Return (Some ErrInvalidKey) st
  end.
Proof.
  rewrite DeleteSeq_eq. unfold landing, seq_entries.
  destruct (seqBucket st) as [b|]; reflexivity.
Qed.

(** What [Seek] reports is decided by the entry on which it lands. *)
Lemma Seek_landing s st :
  exists c c',
    Bucket.Cursor st = Return c st /\
    Cursor.Seek s c st =
      Return (match landing s st with
              | Some (sb, _) => Value.IsValid sb
              | None => false
              end, c') st /\
    Cursor.Err c' =
      match landing s st with
      | Some (sb, _) => if Value.IsValid sb then None else Some ErrInvalidKey
      | None => None
      end /\
    (forall sb k, landing s st = Some (sb, k) -> Value.IsValid sb = true ->
       Value.Seq sb = Some (Cursor.Seq c') /\ Cursor.Key c' = Some k).
Proof.
  destruct (Bucket_Cursor_ok st) as (c & Hc & (_ & Q & _) & _ & He & Hn).
  exists c. unfold landing, seq_entries.
  destruct (seqBucket st) as [b|] eqn:Eb.
  - destruct (Cursor.cs c) as [cur|] eqn:Ecs.
    2:{ destruct Hn as [Hn _]. specialize (Hn eq_refl). discriminate. }
    destruct Q as (Hb & _).
    rewrite (Seek_eq s c st cur b Ecs Hb Eb), sync_at_eq.
    destruct (nth_error (entries b) (search (PutUint64 s) (entries b)))
      as [[sb k]|].
    + destruct (Value.IsValid sb) eqn:V.
      * eexists. split; [exact Hc|]. split; [reflexivity|].
        split; [exact He|]. intros sb' k' [= <- <-] _.
        split; [|reflexivity]. now apply Seq_valid.
      * eexists. split; [exact Hc|]. split; [reflexivity|].
        split; [reflexivity|]. intros sb' k' [= <- <-]. congruence.
    + eexists. split; [exact Hc|]. split; [reflexivity|].
      split; [exact He|]. discriminate.
  - destruct Hn as [_ Hn]. specialize (Hn eq_refl).
    exists c. split; [exact Hc|]. unfold Cursor.Seek. rewrite Hn.
    destruct (search (PutUint64 s) []); cbn [nth_error];
      (split; [reflexivity|]); (split; [exact He|]); discriminate.
Qed.

(** C5. [DeleteSeq s] on consistent indices, in a writable transaction,
    deletes the data entry and the seq entry of the key with sequence number
    [s] when there is one, and otherwise succeeds without a change (no entry
    at or above [s], or the seek lands above [s]).  On any indices: when the
    seek lands on a seq key shorter than 8 bytes the call returns
    [ErrInvalidKey]; when it lands nowhere or on another sequence number
    it returns no error and changes nothing; a call changes the location
    only if the seek landed on sequence number [s]; on consistent indices
    every entry with another sequence number is still there afterwards. *)
Theorem DeleteSeq_exact (s : Z) (st : Location) :
  0 <= s < 2 ^ 64 ->
  (consistent st -> writable st = true ->
   forall k, Bucket.GetSeq s st = Return (Some k) st ->
     exists st',
       Bucket.DeleteSeq s st = Return None st' /\
       Bucket.Get k st' = Return None st' /\
       Bucket.GetSeq s st' = Return None st' /\
       data_entries st' = kv_del k (data_entries st) /\
       seq_entries st' = kv_del (PutUint64 s) (seq_entries st)) /\
  (consistent st -> Bucket.GetSeq s st = Return None st ->
     Bucket.DeleteSeq s st = Return None st) /\
  (landing s st = None -> Bucket.DeleteSeq s st = Return None st) /\
  (forall sb k s', landing s st = Some (sb, k) ->
     Value.Seq sb = Some s' -> s' <> s ->
     Bucket.DeleteSeq s st = Return None st) /\
  (forall sb k, landing s st = Some (sb, k) -> Value.IsValid sb = false ->
     Bucket.DeleteSeq s st = Return (Some ErrInvalidKey) st) /\
  (forall e st', Bucket.DeleteSeq s st = Return e st' -> st' <> st ->
     exists sb k, landing s st = Some (sb, k) /\ Value.Seq sb = Some s) /\
  (consistent st ->
   forall e st' s' k' v', Bucket.DeleteSeq s st = Return e st' ->
     s' <> s -> 0 <= s' < 2 ^ 64 ->
     Bucket.GetSeq s' st = Return (Some k') st ->
     Bucket.Get k' st = Return (Some v') st ->
     Bucket.GetSeq s' st' = Return (Some k') st' /\
     Bucket.Get k' st' = Return (Some v') st').
Proof.
  intros R.
  assert (Rb : (0 <=? s) && (s <? 2 ^ 64) = true).
  { apply andb_true_intro. split; [apply Z.leb_le|apply Z.ltb_lt]; lia. }
  split; [|split; [|split; [|split; [|split; [|split]]]]].
  - intros C W k G. rewrite GetSeq_eq in G. injection G as G.
    destruct (DeleteSeq_consistent s st C) as (st' & E & H).
    rewrite G, Rb, W in E.
    destruct (H k G R) as (Hd & Hq & _ & _ & C').
    exists st'. rewrite Get_eq, GetSeq_eq, Hd, Hq.
    repeat split; auto.
    + rewrite kv_get_del_same; auto. exact (data_sorted _ _ _ C).
    + rewrite kv_get_del_same; auto. exact (seq_sorted _ _ _ C).
  - intros C G. rewrite GetSeq_eq in G. injection G as G.
    destruct (DeleteSeq_consistent s st C) as (st' & E & _).
    now rewrite G in E.
  - intros L. now rewrite DeleteSeq_landing, L.
  - intros sb k s' L Sq N. rewrite DeleteSeq_landing, L.
    destruct (Seq_seqBytes _ _ Sq) as (V & _ & _).
    rewrite V. rewrite Seq_valid in Sq by auto.
    assert (Es : be_val (firstn 8 sb) = s') by congruence. rewrite Es.
    destruct (Z.eqb_spec s' s); [contradiction|reflexivity].
  - intros sb k L V. now rewrite DeleteSeq_landing, L, V.
  - intros e st'. rewrite DeleteSeq_landing.
    destruct (landing s st) as [[sb k]|]; [|intros [= _ <-]; tauto].
    destruct (Value.IsValid sb) eqn:V; [|intros [= _ <-]; tauto].
    destruct (Z.eqb_spec (be_val (firstn 8 sb)) s) as [E|E];
      [|intros [= _ <-]; tauto].
    intros _ _. exists sb, k. split; auto. rewrite Seq_valid by auto.
    now rewrite E.
  - intros C e st' s' k' v' E N R' Gq Gd.
    rewrite GetSeq_eq in Gq. rewrite Get_eq in Gd.
    injection Gq as Gq. injection Gd as Gd.
    destruct (DeleteSeq_consistent s st C) as (st1 & E1 & H).
    rewrite E in E1.
    assert (Z : st' = st \/ exists k, kv_get (PutUint64 s) (seq_entries st) = Some k /\ st' = st1).
    { destruct (kv_get (PutUint64 s) (seq_entries st)) as [k|].
      - rewrite Rb in E1. destruct (writable st); injection E1 as _ E1; eauto.
      - injection E1 as _ E1. auto. }
    rewrite Get_eq, GetSeq_eq.
    destruct Z as [->|(k & G & ->)]; [now rewrite Gq, Gd|].
    destruct (H k G R) as (Hd & Hq & _).
    rewrite Hd, Hq.
    assert (Ns : PutUint64 s <> PutUint64 s').
    { intros X. apply PutUint64_inj in X; auto. }
    assert (Nk : k <> k').
    { intros <-. destruct (data_to_seq _ _ _ C _ _ Gd) as (_ & _ & Gq').
      destruct (seq_to_data _ _ _ C _ _ G) as (s0 & v0 & _ & _ & Gd0 & _ & Ev).
      rewrite Gd in Gd0. injection Gd0 as <-.
      destruct (seq_to_data _ _ _ C _ _ Gq) as (s1 & v1 & _ & _ & Gd1 & _ & Ev1).
      rewrite Gd in Gd1. injection Gd1 as <-. congruence. }
    rewrite kv_get_del_other, Gq by (auto; exact (seq_sorted _ _ _ C)).
    rewrite kv_get_del_other, Gd by (auto; exact (data_sorted _ _ _ C)).
    auto.
Qed.

(** ** Traversal *)

Lemma skipn_nth {A} (l : list A) i x :
  nth_error l i = Some x -> skipn i l = x :: skipn (S i) l.
Proof.
  revert i. induction l as [|a l IH]; intros [|i]; simpl; try discriminate.
  - now intros [= ->].
  - intros H. now rewrite (IH i H).
Qed.

Lemma firstn_nth {A} (l : list A) i x :
  nth_error l i = Some x -> firstn (S i) l = firstn i l ++ [x].
Proof.
  revert i. induction l as [|a l IH]; intros [|i]; simpl; try discriminate.
  - now intros [= ->].
  - intros H. now rewrite <- (IH i H).
Qed.

Section Walk.

Variables (w : bool) (d : option BoltBucket) (qe : list entry) (qq : Z).
Let st := mkLocation w d (Some (mkBucket qe qq)).
Hypothesis valid_keys : Forall (fun e => Value.IsValid (fst e) = true) qe.

Let at_entry (i : nat) (e : entry) (dp : pointer.t) (er : option error) :=
  Cursor.mk (Some (mkBoltCursor bucketNameSeq (Some i))) dp
            (be_val (firstn 8 (fst e))) (Some (snd e)) er.

Lemma nth_valid i e : nth_error qe i = Some e -> Value.IsValid (fst e) = true.
Proof.
  intros H. rewrite Forall_forall in valid_keys. apply valid_keys.
  eapply nth_error_In; eauto.
Qed.

Lemma Next_at i e dp er :
  Cursor.Next (at_entry i e dp er) st =
  match nth_error qe (S i) with
  | Some e' => Return (true, at_entry (S i) e' dp er) st
  | None => Return (false, at_entry i e dp er) st
  end.
Proof.
  unfold Cursor.Next, at_entry. cbn [Cursor.cs].
  unfold bolt_Next, st. exec. fold st.
  destruct (S i <? length qe)%nat eqn:B.
  - rewrite sync_at_eq. destruct (nth_error qe (S i)) as [[sb' k']|] eqn:H'.
    + pose proof (nth_valid _ _ H') as V. cbn [fst] in V. now rewrite V.
    + apply Nat.ltb_lt in B. apply nth_error_None in H'. lia.
  - rewrite sync_at_eq. apply Nat.ltb_ge in B.
    assert (X : nth_error qe (S i) = None) by (apply nth_error_None; lia).
    now rewrite X.
Qed.

Lemma Prev_at i e dp er :
  Cursor.Prev (at_entry i e dp er) st =
  match i with
  | O => Return (false, Cursor.set_cs
                   (Some (mkBoltCursor bucketNameSeq None))
                   (at_entry i e dp er)) st
  | S j =>
      match nth_error qe j with
      | Some e' => Return (true, at_entry j e' dp er) st
      | None => Return (false, at_entry j e dp er) st
      end
  end.
Proof.
  unfold Cursor.Prev, at_entry. cbn [Cursor.cs].
  unfold bolt_Prev, st. exec. fold st.
  destruct i as [|j]; rewrite sync_at_eq; [reflexivity|].
  destruct (nth_error qe j) as [[sb' k']|] eqn:H'; [|reflexivity].
  pose proof (nth_valid _ _ H') as V. cbn [fst] in V. now rewrite V.
Qed.

Lemma walk_Next n :
  forall i e dp er fuel,
    (i + n = length qe)%nat -> (n <= fuel)%nat ->
    nth_error qe i = Some e ->
    walk Cursor.Next fuel true (at_entry i e dp er) st =
    Some (map decode_entry (skipn i qe)).
Proof.
  induction n as [|n IH]; intros i e dp er fuel L F H.
  - assert (X : nth_error qe i = None) by (apply nth_error_None; lia).
    congruence.
  - destruct fuel as [|fuel]; [lia|].
    rewrite (skipn_nth _ _ _ H). cbn [map walk]. rewrite Next_at.
    destruct (nth_error qe (S i)) as [e'|] eqn:H'.
    + rewrite (IH (S i) e' dp er fuel) by (auto; lia). reflexivity.
    + apply nth_error_None in H'. rewrite skipn_all2 by lia.
      destruct fuel; reflexivity.
Qed.

Lemma walk_Prev i :
  forall e dp er fuel,
    (S i <= fuel)%nat -> nth_error qe i = Some e ->
    walk Cursor.Prev fuel true (at_entry i e dp er) st =
    Some (map decode_entry (rev (firstn (S i) qe))).
Proof.
  induction i as [|i IH]; intros e dp er fuel F H;
    (destruct fuel as [|fuel]; [lia|]);
    rewrite (firstn_nth _ _ _ H), rev_unit; cbn [map walk]; rewrite Prev_at.
  - destruct fuel; reflexivity.
  - destruct (nth_error qe i) as [e'|] eqn:H'.
    + rewrite (IH e' dp er fuel) by (auto; lia). reflexivity.
    + apply nth_error_None in H'.
      assert (X : nth_error qe (S i) = None) by (apply nth_error_None; lia).
      congruence.
Qed.

Lemma traverse_seq fuel :
  (length qe <= fuel)%nat ->
  forward fuel st = Some (visited st) /\
  backward fuel st = Some (rev (visited st)).
Proof.
  intros F. unfold forward, backward, traverse, visited.
  assert (E : Bucket.Cursor st =
              Return (Cursor.mk (Some (bolt_Cursor bucketNameSeq))
                        (pointer.mk (option_map bolt_Cursor
                           (option_map (fun _ => bucketNameData) d))
                           None None) 0 None None) st).
  { unfold st. destruct d; reflexivity. }
  rewrite E. cbn [seq_entries seqBucket st entries].
  unfold Cursor.First, Cursor.Last. cbn [Cursor.cs].
  unfold bolt_First, bolt_Last, st. exec. fold st. rewrite !sync_at_eq.
  split.
  - destruct (nth_error qe O) as [[sb k]|] eqn:H.
    + pose proof (nth_valid _ _ H) as V. cbn [fst] in V. rewrite V.
      match goal with |- walk _ _ _ (Cursor.set_pos _ _ ?c) _ = _ =>
        change (Cursor.set_pos _ _ c)
          with (at_entry O (sb, k) (Cursor.dp c) None) end.
      rewrite (walk_Next (length qe) O) by (auto; lia). reflexivity.
    + apply nth_error_None in H.
      assert (E0 : qe = []) by (apply length_zero_iff_nil; lia).
      rewrite E0. destruct fuel; reflexivity.
  - destruct (nth_error qe (length qe - 1)) as [[sb k]|] eqn:H.
    + pose proof (nth_valid _ _ H) as V. cbn [fst] in V. rewrite V.
      assert (P : (length qe - 1 < length qe)%nat).
      { apply nth_error_Some. congruence. }
      match goal with |- walk _ _ _ (Cursor.set_pos _ _ ?c) _ = _ =>
        change (Cursor.set_pos _ _ c)
          with (at_entry (length qe - 1) (sb, k) (Cursor.dp c) None) end.
      rewrite walk_Prev by (auto; lia).
      replace (S (length qe - 1)) with (length qe) by lia.
      now rewrite firstn_all, map_rev.
    + apply nth_error_None in H.
      assert (E0 : qe = []) by (apply length_zero_iff_nil; lia).
      rewrite E0. destruct fuel; reflexivity.
Qed.

End Walk.

Lemma NoDup_map_in {A B} (f : A -> B) l :
  NoDup l ->
  (forall x y, In x l -> In y l -> f x = f y -> x = y) ->
  NoDup (map f l).
Proof.
  induction 1 as [|a l Ha N IH]; simpl; intros I; constructor.
  - intros H. apply in_map_iff in H. destruct H as (x & E & Hx).
    assert (x = a) by (apply I; auto). congruence.
  - apply IH. intros x y Hx Hy. apply I; auto.
Qed.

Lemma StronglySorted_snoc {A} (R : A -> A -> Prop) l a :
  StronglySorted R l -> Forall (fun x => R x a) l ->
  StronglySorted R (l ++ [a]).
Proof.
  induction 1 as [|b l S IH F]; simpl; intros H.
  - constructor; constructor.
  - inversion H; subst. constructor; auto.
    apply Forall_app. split; auto.
Qed.

Lemma StronglySorted_rev {A} (R : A -> A -> Prop) l :
  StronglySorted R l -> StronglySorted (fun a b => R b a) (rev l).
Proof.
  induction 1 as [|a l S IH F]; simpl.
  - constructor.
  - apply StronglySorted_snoc; auto.
    apply Forall_rev. exact F.
Qed.

Lemma NoDup_entries l : sorted l -> NoDup l.
Proof.
  intros S. apply NoDup_map_inv with (f := fst). now apply sorted_keys_NoDup.
Qed.

(** On consistent indices every seq key is the encoding of a sequence
    number. *)
Lemma consistent_seq_In st sb k :
  consistent st -> In (sb, k) (seq_entries st) ->
  exists s v, sb = PutUint64 s /\ 0 <= s < 2 ^ 64 /\
    kv_get k (data_entries st) = Some v /\
    Value.IsValid v = true /\ firstn 8 v = sb.
Proof.
  intros C I. pose proof (In_kv_get _ _ _ (seq_sorted _ _ _ C) I) as G.
  destruct (seq_to_data _ _ _ C _ _ G) as (s & v & ? & ? & ? & ? & ?).
  exists s, v. repeat split; auto; destruct C; lia.
Qed.

Lemma consistent_valid_keys st :
  consistent st ->
  Forall (fun e => Value.IsValid (fst e) = true) (seq_entries st).
Proof.
  intros C. apply Forall_forall. intros [sb k] I.
  destruct (consistent_seq_In st sb k C I) as (s & _ & -> & _). reflexivity.
Qed.

Lemma decode_PutUint64 s k :
  0 <= s < 2 ^ 64 -> decode_entry (PutUint64 s, k) = (s, k).
Proof.
  intros R. unfold decode_entry. cbn [fst snd].
  change (firstn 8 (PutUint64 s)) with (PutUint64 s).
  rewrite be_val_PutUint64. now rewrite Z.mod_small.
Qed.

Lemma visited_ascending st :
  consistent st -> StronglySorted Z.lt (map fst (visited st)).
Proof.
  intros C. unfold visited.
  assert (K : forall sb k, In (sb, k) (seq_entries st) ->
                exists s, 0 <= s < 2 ^ 64 /\ sb = PutUint64 s).
  { intros sb k I. destruct (consistent_seq_In st sb k C I) as (s & _ & ? & ? & _).
    eauto. }
  pose proof (seq_sorted _ _ _ C) as S. revert S K.
  induction (seq_entries st) as [|[sb k] l IH]; intros S K;
    cbn [map]; [constructor|].
  destruct (sorted_inv S) as [S' F].
  destruct (K sb k (or_introl eq_refl)) as (s & R & ->).
  rewrite decode_PutUint64 by auto. cbn [fst].
  constructor.
  - apply IH; auto. intros sb' k' I. apply (K sb' k'). now right.
  - apply Forall_forall. intros z Hz.
    apply in_map_iff in Hz. destruct Hz as ([s' k'] & <- & Hz).
    apply in_map_iff in Hz. destruct Hz as ([sb' k''] & E & Hz).
    destruct (K sb' k'' (or_intror Hz)) as (s'' & R' & ->).
    rewrite decode_PutUint64 in E by auto. injection E as <- <-. cbn [fst].
    rewrite Forall_forall in F.
    assert (L : bytes_lt (PutUint64 s) (PutUint64 s'')).
    { apply F. change (PutUint64 s'') with (fst (PutUint64 s'', k'')).
      now apply in_map. }
    unfold bytes_lt in L. rewrite be_val_compare in L by reflexivity.
    rewrite !be_val_PutUint64, !Z.mod_small in L by auto.
    now apply Z.compare_lt_iff.
Qed.

Lemma visited_In st s k :
  consistent st ->
  (In (s, k) (visited st) <->
   exists v, kv_get k (data_entries st) = Some v /\ Value.Seq v = Some s).
Proof.
  intros C. unfold visited. rewrite in_map_iff. split.
  - intros ([sb k'] & E & I).
    destruct (consistent_seq_In st sb k' C I) as (s0 & v & -> & R & G & V & Ev).
    rewrite decode_PutUint64 in E by auto. injection E as <- <-.
    exists v. split; auto. rewrite Seq_valid by auto.
    rewrite Ev, be_val_PutUint64. now rewrite Z.mod_small.
  - intros (v & G & Sv).
    destruct (Seq_seqBytes _ _ Sv) as (V & E & R).
    destruct (data_to_seq _ _ _ C _ _ G) as (_ & _ & Gq).
    exists (PutUint64 s, k). split; [now apply decode_PutUint64|].
    apply kv_get_In. now rewrite E.
Qed.

Lemma visited_keys_NoDup st :
  consistent st -> NoDup (map snd (visited st)).
Proof.
  intros C. unfold visited. rewrite map_map. cbn [decode_entry snd].
  apply NoDup_map_in.
  - apply NoDup_entries. exact (seq_sorted _ _ _ C).
  - intros [sb1 k1] [sb2 k2] I1 I2. cbn [snd]. intros <-.
    destruct (consistent_seq_In st sb1 k1 C I1) as (_ & v1 & _ & _ & G1 & _ & E1).
    destruct (consistent_seq_In st sb2 k1 C I2) as (_ & v2 & _ & _ & G2 & _ & E2).
    congruence.
Qed.

Lemma consistent_same_length st :
  consistent st -> length (seq_entries st) = length (data_entries st).
Proof.
  intros C. apply Nat.le_antisymm.
  - rewrite <- (@length_map entry bytes snd (seq_entries st)).
    rewrite <- (@length_map entry bytes fst (data_entries st)).
    apply NoDup_incl_length.
    + generalize (visited_keys_NoDup st C). unfold visited.
      now rewrite map_map.
    + intros k I. apply in_map_iff in I. destruct I as ([sb k'] & <- & I).
      destruct (consistent_seq_In st sb k' C I) as (_ & v & _ & _ & G & _).
      apply kv_get_In in G. cbn [snd]. apply in_map_iff.
      exists (k', v). auto.
  - rewrite <- (@length_map entry bytes (fun e => firstn 8 (snd e)) (data_entries st)).
    rewrite <- (@length_map entry bytes fst (seq_entries st)).
    apply NoDup_incl_length.
    + apply NoDup_map_in.
      * apply NoDup_entries. exact (data_sorted _ _ _ C).
      * intros [k1 v1] [k2 v2] I1 I2. cbn [snd]. intros E.
        pose proof (In_kv_get _ _ _ (data_sorted _ _ _ C) I1) as G1.
        pose proof (In_kv_get _ _ _ (data_sorted _ _ _ C) I2) as G2.
        destruct (data_to_seq _ _ _ C _ _ G1) as (_ & _ & Q1).
        destruct (data_to_seq _ _ _ C _ _ G2) as (_ & _ & Q2).
        rewrite E in Q1. assert (k1 = k2) by congruence. subst k2.
        congruence.
    + intros sb I. apply in_map_iff in I. destruct I as ([k v] & <- & I).
      pose proof (In_kv_get _ _ _ (data_sorted _ _ _ C) I) as G.
      destruct (data_to_seq _ _ _ C _ _ G) as (_ & _ & Q).
      apply kv_get_In in Q. cbn [snd]. apply in_map_iff.
      exists (firstn 8 v, k). auto.
Qed.

(** C6. On consistent indices, [First] followed by [Next] until it returns
    false visits the entries in ascending order of sequence number, [Last]
    followed by [Prev] visits them in the reverse, descending order; each
    live key is visited once, with the sequence number of its value, and the
    number of entries visited is the number of live keys.  The loops end:
    as many steps as there are entries are enough. *)
Theorem cursor_traversal (st : Location) :
  consistent st ->
  (forall fuel, (length (visited st) <= fuel)%nat ->
     forward fuel st = Some (visited st) /\
     backward fuel st = Some (rev (visited st))) /\
  StronglySorted Z.lt (map fst (visited st)) /\
  StronglySorted Z.gt (map fst (rev (visited st))) /\
  (forall s k, In (s, k) (visited st) <->
     exists v, Bucket.Get k st = Return (Some v) st /\
               Value.Seq v = Some s) /\
  NoDup (map snd (visited st)) /\
  length (visited st) = length (data_entries st).
Proof.
  intros C. split; [|split; [|split; [|split; [|split]]]].
  - intros fuel F. unfold visited in F. rewrite length_map in F.
    pose proof (consistent_valid_keys st C) as V.
    destruct st as [w d [[qe qq]|]].
    + apply traverse_seq; auto.
    + destruct d, fuel; split; reflexivity.
  - now apply visited_ascending.
  - rewrite map_rev.
    pose proof (StronglySorted_rev Z.lt _ (visited_ascending st C)) as S.
    eapply StronglySorted_ind with (P := StronglySorted Z.gt) in S; eauto.
    + constructor.
    + intros a l _ IH F. constructor; auto.
      eapply Forall_impl; [|exact F]. intros b Hb. now apply Z.lt_gt.
  - intros s k. rewrite (visited_In st s k C). split.
    + intros (v & G & Sv). exists v. now rewrite Get_eq, G.
    + intros (v & G & Sv). exists v. rewrite Get_eq in G.
      injection G as G. auto.
  - now apply visited_keys_NoDup.
  - unfold visited. rewrite length_map. now apply consistent_same_length.
Qed.

(** ** Which buckets exist *)

Lemma same_buckets_refl st : same_buckets st st.
Proof. split; tauto. Qed.

Lemma same_buckets_trans st1 st2 st3 :
  same_buckets st1 st2 -> same_buckets st2 st3 -> same_buckets st1 st3.
Proof. unfold same_buckets. tauto. Qed.

Lemma same_buckets_paired st st' :
  same_buckets st st' -> paired st -> paired st'.
Proof. unfold same_buckets, paired. tauto. Qed.

Lemma bolt_CursorDelete_buckets cur st e st' :
  bolt_CursorDelete cur st = Return e st' -> same_buckets st st'.
Proof.
  destruct cur as [[|] s], st as [w [bd|] [bq|]];
    unfold bolt_CursorDelete; exec; try discriminate;
    (destruct w; exec; [|intros [= _ <-]; apply same_buckets_refl]);
    (destruct s as [i|]; exec; [|discriminate]).
  all: match goal with
       | |- context [nth_error ?l ?i] =>
           destruct (nth_error l i) as [[k v]|]
       end; exec; intros [= _ <-]; split; split; cbn; congruence.
Qed.

Lemma move_state k p st r st' :
  pointer.move k p st = Return r st' -> st' = st.
Proof.
  unfold pointer.move. destruct (pointer.c p) as [[h s]|].
  - destruct (bytes_Equal (pointer.key p) k).
    + now intros [= _ <-].
    + unfold bolt_Seek, deref, bind, must, ret. cbn [bucket].
      destruct (get_bucket h st); [|discriminate]. now intros [= _ <-].
  - now intros [= _ <-].
Qed.

Lemma pointer_Delete_buckets k p st r st' :
  pointer.Delete k p st = Return r st' -> same_buckets st st'.
Proof.
  unfold pointer.Delete, bind.
  destruct (pointer.move k p st) as [[ok p'] st1|] eqn:Hm; [|discriminate].
  apply move_state in Hm. subst st1.
  destruct ok; cbn [negb].
  - unfold must. destruct (pointer.c p') as [cur|]; [|discriminate].
    unfold ret.
    destruct (bolt_CursorDelete cur st) as [e st1|] eqn:Hd; [|discriminate].
    intros [= _ <-]. eapply bolt_CursorDelete_buckets; eauto.
  - intros [= _ <-]. apply same_buckets_refl.
Qed.

Lemma Cursor_Delete_buckets c st r st' :
  Cursor.Delete c st = Return r st' ->
  same_buckets st st' /\ (fst r = None -> Cursor.cs c <> None).
Proof.
  unfold Cursor.Delete, bind.
  destruct (pointer.Delete (Cursor.key c) (Cursor.dp c) st)
    as [[[e|] p] st1|] eqn:Hp; try discriminate.
  - intros [= <- <-]. split; [|discriminate].
    eapply pointer_Delete_buckets; eauto.
  - apply pointer_Delete_buckets in Hp.
    unfold must, Cursor.set_dp. cbn [Cursor.cs].
    destruct (Cursor.cs c) as [cur|]; [|discriminate].
    unfold ret.
    destruct (bolt_CursorDelete cur st1) as [e st2|] eqn:Hd; [|discriminate].
    intros [= <- <-]. split; [|discriminate].
    eapply same_buckets_trans; eauto.
    eapply bolt_CursorDelete_buckets; eauto.
Qed.

Lemma position_state m c st r st' :
  position m c st = Return r st' ->
  st' = st /\ (Cursor.cs (snd r) = None <-> Cursor.cs c = None).
Proof.
  rewrite position_eq. destruct (Cursor.cs c) as [cur|] eqn:Ecs.
  - unfold bind. destruct (bolt_move m cur st) as [[e cur'] st1|] eqn:Hm;
      [|discriminate].
    apply bolt_move_state in Hm. subst st1. rewrite sync_at_eq.
    destruct e as [[sb k]|]; [destruct (Value.IsValid sb)|];
      intros [= <- <-]; cbn; split; auto; split; discriminate.
  - unfold ret. intros [= <- <-]. cbn. tauto.
Qed.

Lemma Data_state c st r st' :
  Cursor.Data c st = Return r st' ->
  st' = st /\ Cursor.cs (snd r) = Cursor.cs c.
Proof.
  unfold Cursor.Data, pointer.Get, bind.
  destruct (pointer.move (Cursor.key c) (Cursor.dp c) st)
    as [[ok p'] st1|] eqn:Hm; [|discriminate].
  apply move_state in Hm. subst st1.
  destruct ok; unfold ret; cbn [negb].
  - destruct (Value.IsValid (content (pointer.val p'))); cbn [negb].
    + unfold must. destruct (Value.Data (content (pointer.val p')));
        [|discriminate]. now intros [= <- <-].
    + now intros [= <- <-].
  - now intros [= <- <-].
Qed.

Lemma Bucket_Delete_buckets k st e st' :
  Bucket.Delete k st = Return e st' -> same_buckets st st'.
Proof.
  destruct st as [w [[de dq]|] q]; unfold Bucket.Delete; exec.
  2:{ intros [= _ <-]. apply same_buckets_refl. }
  destruct (kv_get k de) as [v|]; exec.
  2:{ intros [= _ <-]. apply same_buckets_refl. }
  destruct (Value.IsValid v) eqn:V; exec.
  2:{ intros [= _ <-]. apply same_buckets_refl. }
  destruct q as [[qe qq]|]; exec.
  2:{ intros [= _ <-]. apply same_buckets_refl. }
  unfold Value.seqBytes. rewrite V. exec.
  destruct w; exec; intros [= _ <-]; split; split; cbn; congruence.
Qed.

Lemma DeleteSeq_buckets s st e st' :
  Bucket.DeleteSeq s st = Return e st' -> same_buckets st st'.
Proof.
  rewrite DeleteSeq_landing.
  destruct (landing s st) as [[sb k]|].
  2:{ intros [= _ <-]. apply same_buckets_refl. }
  destruct (Value.IsValid sb).
  2:{ intros [= _ <-]. apply same_buckets_refl. }
  destruct (be_val (firstn 8 sb) =? s).
  2:{ intros [= _ <-]. apply same_buckets_refl. }
  match goal with
  | |- context [Cursor.Delete ?c st] =>
      destruct (Cursor.Delete c st) as [[e' c'] st1|] eqn:Hd
  end; [|discriminate].
  intros [= _ <-]. eapply Cursor_Delete_buckets; eauto.
Qed.

Lemma run_calls_buckets calls :
  forall b c st st',
    run_calls calls b c st = Some st' -> same_buckets st st'.
Proof.
  induction calls as [|call calls IH]; intros b c st st'; simpl.
  - intros [= <-]. apply same_buckets_refl.
  - destruct call as [m| |].
    + destruct (position m c st) as [[ok c'] st1|] eqn:H; [|discriminate].
      apply position_state in H. destruct H as (-> & _). apply IH.
    + destruct (Cursor.Data c st) as [[r c'] st1|] eqn:H; [|discriminate].
      apply Data_state in H. destruct H as (-> & _). apply IH.
    + destruct b; [|discriminate].
      destruct (Cursor.Delete c st) as [[[e|] c'] st1|] eqn:H;
        try discriminate.
      apply Cursor_Delete_buckets in H. destruct H as (H & _).
      intros R. eapply same_buckets_trans; eauto.
Qed.

Lemma step_paired op st st' :
  step op st = Some st' -> paired st -> paired st'.
Proof.
  destruct op as [k v|k|s|calls]; simpl.
  - destruct (Bucket.Put k v st) as [[s [e|]] st1|] eqn:H; try discriminate.
    intros [= <-] _. apply Put_success in H.
    destruct H as (_ & _ & _ & _ & _ & _ & _ & _ & _ & Q).
    intros C. contradiction.
  - destruct (Bucket.Delete k st) as [[e|] st1|] eqn:H; try discriminate.
    intros [= <-]. apply same_buckets_paired.
    eapply Bucket_Delete_buckets; eauto.
  - destruct (Bucket.DeleteSeq s st) as [[e|] st1|] eqn:H; try discriminate.
    intros [= <-]. apply same_buckets_paired.
    eapply DeleteSeq_buckets; eauto.
  - destruct (Bucket_Cursor_ok st) as (c & -> & _).
    intros H. apply same_buckets_paired.
    eapply run_calls_buckets; eauto.
Qed.

(** In every location that the operations of the package reach there is no
    data bucket without a seq bucket. *)
Lemma run_paired ops :
  forall st st', run ops st = Some st' -> paired st -> paired st'.
Proof.
  induction ops as [|op ops IH]; intros st st'; simpl.
  - now intros [= <-].
  - destruct (step op st) as [st1|] eqn:H; [|discriminate].
    intros R P. eapply IH; eauto. eapply step_paired; eauto.
Qed.

(** ** The error of the cursor *)

(** C8 as the specification words it fails: after a decode error of
    [Last], a [First] that succeeds leaves the error in place. *)
Lemma Err_after_success_counterexample :
  exists c1 c2,
    Bucket.Cursor damaged = Return new_cursor damaged /\
    Cursor.Last new_cursor damaged = Return (false, c1) damaged /\
    Cursor.Err c1 = Some ErrInvalidKey /\
    Cursor.First c1 damaged = Return (true, c2) damaged /\
    Cursor.Err c2 = Some ErrInvalidKey /\
    Cursor.Err c2 <> None.
Proof.
  eexists _, _.
  split; [reflexivity|]. split; [reflexivity|]. split; [reflexivity|].
  split; [reflexivity|]. split; [reflexivity|]. discriminate.
Qed.

(** C8, amended. [Err] is the decode error of the latest move that hit a
    seq key shorter than 8 bytes: such a move returns false and sets the
    error to [ErrInvalidKey]; a move that succeeds, or that returns false
    because the store cursor has no entry to give, leaves the error as it
    was before the call.  So after such a move [Err] reports no error
    exactly when no earlier move of this cursor hit a decode error. *)
Theorem Err_sticky (m : Move) (c c' : Cursor.t) (st st' : Location) (ok : bool) :
  position m c st = Return (ok, c') st' ->
  st' = st /\
  (ok = true -> Cursor.Err c' = Cursor.Err c) /\
  (Cursor.Err c' = Cursor.Err c \/
   (ok = false /\ Cursor.Err c' = Some ErrInvalidKey)) /\
  (Cursor.cs c = None -> ok = false /\ c' = c) /\
  (forall cur e cur',
     Cursor.cs c = Some cur -> bolt_move m cur st = Return (e, cur') st ->
     match e with
     | None => ok = false /\ Cursor.Err c' = Cursor.Err c
     | Some (sb, _) =>
         if Value.IsValid sb
         then ok = true /\ Cursor.Err c' = Cursor.Err c
         else ok = false /\ Cursor.Err c' = Some ErrInvalidKey
     end).
Proof.
  rewrite position_eq. destruct (Cursor.cs c) as [cur|] eqn:Ecs.
  - unfold bind. destruct (bolt_move m cur st) as [[e cur'] st1|] eqn:Hm;
      [|discriminate].
    pose proof (bolt_move_state _ _ _ _ _ Hm) as ->.
    rewrite sync_at_eq.
    assert (A : forall x : bool * Cursor.t,
      match e with
      | Some (sb, k) =>
          if Value.IsValid sb
          then Return (true, Cursor.set_pos (be_val (firstn 8 sb)) (Some k)
                               (Cursor.set_cs (Some cur') c)) st
          else Return (false, Cursor.set_err (Some ErrInvalidKey)
                                (Cursor.set_cs (Some cur') c)) st
      | None => Return (false, Cursor.set_cs (Some cur') c) st
      end = Return x st' ->
      st' = st /\
      match e with
      | None => fst x = false /\ Cursor.Err (snd x) = Cursor.Err c
      | Some (sb, _) =>
          if Value.IsValid sb
          then fst x = true /\ Cursor.Err (snd x) = Cursor.Err c
          else fst x = false /\ Cursor.Err (snd x) = Some ErrInvalidKey
      end).
    { intros x. destruct e as [[sb k]|]; [destruct (Value.IsValid sb)|];
        intros [= <- <-]; auto. }
    intros H. destruct (A _ H) as (-> & B). cbn [fst snd] in B.
    split; [reflexivity|].
    split; [|split; [|split]].
    + destruct e as [[sb k]|]; [destruct (Value.IsValid sb)|];
        destruct B; auto; congruence.
    + destruct e as [[sb k]|]; [destruct (Value.IsValid sb)|];
        destruct B; auto.
    + discriminate.
    + intros cur0 e0 cur0' [= <-] Hm'. rewrite Hm in Hm'.
      injection Hm' as <- <-. exact B.
  - unfold ret. intros [= <- <- <-].
    repeat split; auto. discriminate.
Qed.

(** ** A cursor without a seq bucket *)

(** C10. A cursor made when the seq bucket does not exist has no store
    cursor on it: every move returns false, changes nothing and records no
    error, and [Data] returns without a panic; [Delete], which checks only
    the store cursor of the data pointer, never succeeds, and panics on the
    nil seq cursor when the data bucket is missing as well, as it is in
    every location that the operations of the package reach without a seq
    bucket. *)
Theorem nil_seq_cursor (st : Location) :
  seqBucket st = None ->
  exists c,
    Bucket.Cursor st = Return c st /\
    Cursor.cs c = None /\
    (forall m, position m c st = Return (false, c) st) /\
    Cursor.Err c = None /\
    (exists r c', Cursor.Data c st = Return (r, c') st) /\
    (forall c' st', Cursor.Delete c st <> Return (None, c') st') /\
    (dataBucket st = None -> Cursor.Delete c st = Panic) /\
    (forall ops w, run ops (empty w) = Some st -> Cursor.Delete c st = Panic).
Proof.
  intros Q.
  destruct (Bucket_Cursor_ok st) as (c & Hc & O & Hk & He & Hn).
  assert (Ecs : Cursor.cs c = None) by (now apply Hn).
  assert (P : dataBucket st = None -> Cursor.Delete c st = Panic).
  { intros D. destruct st as [w d q]. cbn in D, Q. subst d q.
    assert (E : c = Cursor.mk None (pointer.mk None None None) 0 None None).
    { cbv in Hc. injection Hc as Hc. symmetry. exact Hc. }
    subst c. reflexivity. }
  exists c. split; [exact Hc|]. split; [exact Ecs|].
  split; [|split; [exact He|split; [|split; [|split]]]].
  - intros m. rewrite position_eq, Ecs. reflexivity.
  - destruct (Data_ok false c st O) as (r & c' & H & _). eauto.
  - intros c' st'. unfold Cursor.Delete, bind.
    destruct (pointer.Delete (Cursor.key c) (Cursor.dp c) st)
      as [[[e|] p] st1|]; cbn; try discriminate.
    unfold Cursor.set_dp. cbn [Cursor.cs]. rewrite Ecs. discriminate.
  - exact P.
  - intros ops w R. apply P.
    apply (run_paired ops (empty w) st R); [|exact Q].
    intros _. reflexivity.
Qed.

(** ** The cache of the pointer *)


Lemma move_transparent (k : bytes) p st :
  sorted (data_entries st) -> coherent p st -> k <> [] ->
  pointer.move (Some k) p st = AlwaysMiss.move (Some k) p st.
Proof.
  intros S C K. unfold pointer.move, AlwaysMiss.move.
  destruct p as [[[h s]|] pk pv]; cbn [pointer.c pointer.key]; [|reflexivity].
  unfold bytes_Equal. cbn [content].
  destruct (bytes_eqb (content pk) k) eqn:E; [|reflexivity].
  apply bytes_eqb_eq in E. destruct pk as [k'|]; cbn in E; [|congruence].
  subst k'. cbn in C. destruct C as (-> & i & v & -> & -> & Hn).
  pose proof (search_nth _ _ _ _ S Hn) as Hs.
  destruct st as [w [[de dq]|] q]; cbn in Hn, Hs.
  2:{ destruct i; discriminate. }
  unfold bolt_Seek. exec. rewrite Hs, Hn. cbn.
  now rewrite bytes_eqb_refl.
Qed.

Lemma move_coherent k p st ok p' st' :
  coherent p st -> pointer.move k p st = Return (ok, p') st' ->
  st' = st /\ coherent p' st.
Proof.
  unfold pointer.move, coherent.
  destruct p as [[[h s]|] pk pv]; cbn [pointer.c pointer.key pointer.val].
  2:{ intros _ [= <- <- <-]. cbn. auto. }
  intros (Hb & Hk). cbn in Hb. subst h.
  destruct (bytes_Equal pk k).
  - intros [= <- <- <-]. cbn. auto.
  - unfold bolt_Seek, deref, bind, must, ret. cbn [bucket get_bucket].
    destruct (dataBucket st) as [bd|] eqn:Ed; [|discriminate].
    intros [= <- <- <-]. split; auto. cbn. split; auto.
    rewrite (data_bucket_entries Ed).
    destruct (nth_error (entries bd) (search (content k) (entries bd)))
      as [[k' v']|] eqn:N; cbn; eauto.
Qed.


(** ** The theorems on sample inputs *)

Lemma sample_run : run sample_ops (empty true) = Some sample.
Proof. reflexivity. Qed.

Lemma sample_consistent : consistent sample.
Proof.
  apply (reachable_consistent sample_ops true sample sample_run).
  cbn. lia.
Qed.


Lemma Put_overwrite_witness :
  Bucket.Put key_x data_v (empty true) =
    Return (1, None)
      (mkLocation true
         (Some (mkBucket [(key_x, newValue 1 data_v)] 0))
         (Some (mkBucket [(PutUint64 1, key_x)] 1))) /\
  Bucket.Put key_x data_w
      (mkLocation true
         (Some (mkBucket [(key_x, newValue 1 data_v)] 0))
         (Some (mkBucket [(PutUint64 1, key_x)] 1))) =
    Return (2, None)
      (mkLocation true
         (Some (mkBucket [(key_x, newValue 2 data_w)] 0))
         (Some (mkBucket [(PutUint64 2, key_x)] 2))) /\
  2 > 1 /\
  Bucket.GetSeq 1
      (mkLocation true
         (Some (mkBucket [(key_x, newValue 2 data_w)] 0))
         (Some (mkBucket [(PutUint64 2, key_x)] 2))) =
    Return None
      (mkLocation true
         (Some (mkBucket [(key_x, newValue 2 data_w)] 0))
         (Some (mkBucket [(PutUint64 2, key_x)] 2))).
Proof.
  assert (H1 : Bucket.Put key_x data_v (empty true) =
    Return (1, None)
      (mkLocation true
         (Some (mkBucket [(key_x, newValue 1 data_v)] 0))
         (Some (mkBucket [(PutUint64 1, key_x)] 1)))) by reflexivity.
  assert (H2 : Bucket.Put key_x data_w
      (mkLocation true
         (Some (mkBucket [(key_x, newValue 1 data_v)] 0))
         (Some (mkBucket [(PutUint64 1, key_x)] 1))) =
    Return (2, None)
      (mkLocation true
         (Some (mkBucket [(key_x, newValue 2 data_w)] 0))
         (Some (mkBucket [(PutUint64 2, key_x)] 2)))) by reflexivity.
  assert (S : sorted (seq_entries (empty true))) by constructor.
  assert (B : 1 < uint64_max) by reflexivity.
  destruct (Put_overwrite _ _ _ _ _ _ _ _ S H1 H2) as (G & Q & _).
  repeat split; auto.
Defined.

Lemma Delete_cases_witness :
  Bucket.Delete key_x (empty true) =
    Return (Some ErrInvalidBucket) (empty true) /\
  Bucket.Delete data_v sample = Return None sample /\
  (exists st', Bucket.Delete key_x sample = Return None st' /\
     Bucket.Get key_x st' = Return None st' /\
     Bucket.GetSeq 1 st' = Return None st').
Proof.
  destruct (Delete_cases key_x (empty true)) as (C1 & _).
  destruct (Delete_cases data_v sample) as (_ & C2 & _).
  destruct (Delete_cases key_x sample) as (_ & _ & _ & _ & C5).
  split; [apply C1; reflexivity|].
  split; [apply C2; [discriminate|reflexivity]|].
  destruct (C5 (newValue 1 data_v) 1) as (st' & D & G & Q & _);
    try reflexivity; try discriminate.
  - exact (data_sorted _ _ _ sample_consistent).
  - exact (seq_sorted _ _ _ sample_consistent).
  - exists st'. auto.
Defined.

Lemma DeleteSeq_exact_witness :
  (exists st', Bucket.DeleteSeq 3 sample = Return None st' /\
     Bucket.Get key_b st' = Return None st' /\
     Bucket.GetSeq 3 st' = Return None st') /\
  Bucket.DeleteSeq 2 sample = Return None sample /\
  Bucket.DeleteSeq 9 sample = Return None sample /\
  Bucket.DeleteSeq 9 damaged = Return (Some ErrInvalidKey) damaged.
Proof.
  assert (R3 : 0 <= 3 < 2 ^ 64) by lia.
  assert (R2 : 0 <= 2 < 2 ^ 64) by lia.
  assert (R9 : 0 <= 9 < 2 ^ 64) by lia.
  destruct (DeleteSeq_exact 3 sample R3) as (E1 & _).
  destruct (DeleteSeq_exact 2 sample R2) as (_ & E2 & _).
  destruct (DeleteSeq_exact 9 sample R9) as (_ & _ & E3 & _).
  destruct (DeleteSeq_exact 9 damaged R9) as (_ & _ & _ & _ & E5 & _).
  split; [|split; [|split]].
  - destruct (E1 sample_consistent eq_refl key_b eq_refl)
      as (st' & D & G & Q & _).
    exists st'. auto.
  - apply E2; [exact sample_consistent|reflexivity].
  - apply E3. reflexivity.
  - apply (E5 [x01] key_b); reflexivity.
Defined.

Lemma cursor_traversal_witness :
  forward 3 sample = Some [(1, key_x); (3, key_b); (4, key_a)] /\
  backward 3 sample = Some [(4, key_a); (3, key_b); (1, key_x)] /\
  length (visited sample) = 3%nat.
Proof.
  destruct (cursor_traversal sample sample_consistent) as (T & _ & _ & _ & _ & L).
  destruct (T 3%nat) as (F & B); [cbn; lia|].
  split; [exact F|]. split; [exact B|]. exact L.
Defined.

Lemma Err_sticky_witness :
  position MFirst after_Last damaged = Return (true, after_First) damaged /\
  Cursor.Err after_First = Cursor.Err after_Last.
Proof.
  assert (H : position MFirst after_Last damaged =
              Return (true, after_First) damaged) by reflexivity.
  destruct (Err_sticky MFirst after_Last after_First damaged damaged true H)
    as (_ & E & _).
  split; [exact H|]. apply E. reflexivity.
Defined.


Lemma nil_seq_cursor_witness :
  exists c, Bucket.Cursor (empty true) = Return c (empty true) /\
    Cursor.First c (empty true) = Return (false, c) (empty true) /\
    Cursor.Delete c (empty true) = Panic.
Proof.
  destruct (nil_seq_cursor (empty true) eq_refl)
    as (c & Hc & _ & Hm & _ & _ & _ & Hp & _).
  exists c. split; [exact Hc|]. split; [exact (Hm MFirst)|].
  apply Hp. reflexivity.
Defined.

(** * Beyond the sentences of the specification *)

(** ** A cursor that only reads *)

Lemma browsing_Cursor st :
  exists c, Bucket.Cursor st = Return c st /\ browsing false c st /\
            Cursor.err c = None.
Proof.
  destruct st as [w [[de dq]|] [[qe qq]|]];
    unfold Bucket.Cursor; exec;
    eexists; (split; [reflexivity|]); unfold browsing, coherent; cbn;
    repeat split; auto; try discriminate.
Qed.

Lemma move_keeps_cursor k p st ok p' st' :
  pointer.move k p st = Return (ok, p') st' ->
  (pointer.c p' = None <-> pointer.c p = None).
Proof.
  unfold pointer.move. destruct (pointer.c p) as [[h s]|] eqn:E.
  - destruct (bytes_Equal (pointer.key p) k).
    + intros [= _ <- _]. now rewrite E.
    + unfold bolt_Seek, deref, bind, must, ret. cbn [bucket].
      destruct (get_bucket h st); [|discriminate].
      intros [= _ <- _]. cbn. split; discriminate.
  - intros [= _ <- _]. now rewrite E.
Qed.

Lemma browsing_position m b c st :
  browsing b c st ->
  exists ok c',
    position m c st = Return (ok, c') st /\ browsing ok c' st /\
    (Forall (fun e => Value.IsValid (fst e) = true) (seq_entries st) ->
     Cursor.err c' = Cursor.err c).
Proof.
  intros (P & N & Q & _). rewrite position_eq.
  destruct c as [cs dp sq ky er]; cbn [Cursor.cs Cursor.dp Cursor.err] in *.
  destruct cs as [cur|].
  - destruct Q as (Hb & Hq).
    destruct (seqBucket st) as [bq|] eqn:Eq; [|congruence].
    destruct (bolt_move_spec m cur st bq) as (e & cur' & Hm & Hb' & He).
    { now rewrite Hb. }
    unfold bind. rewrite Hm, sync_at_eq.
    rewrite (seq_bucket_entries Eq).
    destruct e as [[sb k]|].
    + destruct (He sb k eq_refl) as (i & Hs & Hn).
      destruct cur' as [h' s']. cbn in Hb', Hs. subst s'.
      rewrite Hb in Hb'. subst h'.
      destruct (Value.IsValid sb) eqn:V.
      * eexists _, _. split; [reflexivity|]. split.
        -- split; [exact P|]. split; [exact N|].
           split; [cbn; split; congruence|]. intros _.
           exists i, sb, k. cbn. rewrite (seq_bucket_entries Eq). auto.
        -- reflexivity.
      * eexists _, _. split; [reflexivity|]. split.
        -- split; [exact P|]. split; [exact N|].
           split; [cbn; split; congruence|]. discriminate.
        -- intros F. rewrite Forall_forall in F.
           apply nth_error_In in Hn. apply F in Hn. cbn [fst] in Hn. congruence.
    + eexists _, _. split; [reflexivity|]. split; [|reflexivity].
      split; [exact P|]. split; [exact N|].
      split; [cbn; split; congruence|discriminate].
  - eexists _, _. split; [reflexivity|]. split; [|reflexivity].
    split; [exact P|]. split; [exact N|]. split; [exact Q|discriminate].
Qed.

(** [Data] moves the pointer at most: the cursor keeps its place. *)
Lemma browsing_Data b c st :
  browsing b c st ->
  exists r c',
    Cursor.Data c st = Return (r, c') st /\ browsing b c' st /\
    c' = Cursor.set_dp (Cursor.dp c') c.
Proof.
  intros (P & N & Q & R).
  assert (T : exists ok p', pointer.move (Cursor.key c) (Cursor.dp c) st =
                            Return (ok, p') st).
  { unfold pointer.move. destruct (pointer.c (Cursor.dp c)) as [[h s]|] eqn:E.
    - destruct (bytes_Equal (pointer.key (Cursor.dp c)) (Cursor.key c)).
      + eexists _, _. reflexivity.
      + unfold coherent in P. rewrite E in P. destruct P as (Hb & _).
        cbn in Hb. subst h.
        destruct (dataBucket st) as [bd|] eqn:Ed.
        * unfold bolt_Seek, deref, bind, must, ret. cbn [bucket get_bucket].
          rewrite Ed. eexists _, _. reflexivity.
        * destruct N as [_ N]. specialize (N eq_refl). discriminate.
    - eexists _, _. reflexivity. }
  destruct T as (ok & p' & Hm).
  destruct (move_coherent _ _ _ _ _ _ P Hm) as (_ & P').
  pose proof (move_keeps_cursor _ _ _ _ _ _ Hm) as K.
  assert (O : browsing b (Cursor.set_dp p' c) st).
  { split; [exact P'|]. split; [cbn; tauto|]. split; [exact Q|exact R]. }
  unfold Cursor.Data, pointer.Get, bind at 1 2. rewrite Hm.
  destruct ok; unfold ret; cbn [negb].
  - destruct (Value.IsValid (content (pointer.val p'))) eqn:V; cbn [negb].
    + unfold bind, must, Value.Data. rewrite V.
      eexists _, _. split; [reflexivity|]. split; [exact O|reflexivity].
    + eexists _, _. split; [reflexivity|]. split; [exact O|reflexivity].
  - eexists _, _. split; [reflexivity|]. split; [exact O|reflexivity].
Qed.

Lemma browse_ok calls :
  forall b c st,
    browsing b c st ->
    exists ok c',
      browse calls b c st = Return (ok, c') st /\ browsing ok c' st /\
      (Forall (fun e => Value.IsValid (fst e) = true) (seq_entries st) ->
       Cursor.err c' = Cursor.err c).
Proof.
  induction calls as [|call calls IH]; intros b c st B; cbn [browse].
  - eexists _, _. split; [reflexivity|]. auto.
  - destruct call as [m|].
    + destruct (browsing_position m b c st B) as (ok & c' & Hp & B' & E).
      destruct (IH ok c' st B') as (ok2 & c2 & Hb & B2 & E2).
      exists ok2, c2. unfold bind. rewrite Hp. split; [exact Hb|].
      split; [exact B2|]. intros F. rewrite E2, E; auto.
    + destruct (browsing_Data b c st B) as (r & c' & Hd & B' & E).
      destruct (IH b c' st B') as (ok2 & c2 & Hb & B2 & E2).
      exists ok2, c2. unfold bind. rewrite Hd. split; [exact Hb|].
      split; [exact B2|]. intros F. rewrite E2 by auto. now rewrite E.
Qed.

Lemma session_ok calls st :
  exists ok c,
    session calls st = Return (ok, c) st /\ browsing ok c st /\
    (Forall (fun e => Value.IsValid (fst e) = true) (seq_entries st) ->
     Cursor.err c = None).
Proof.
  destruct (browsing_Cursor st) as (c0 & Hc & B0 & E0).
  destruct (browse_ok calls false c0 st B0) as (ok & c & Hb & B & E).
  exists ok, c. unfold session, bind. rewrite Hc. split; [exact Hb|].
  split; [exact B|]. intros F. rewrite E by auto. exact E0.
Qed.

Lemma session_inv calls st ok c st' :
  session calls st = Return (ok, c) st' ->
  st' = st /\ browsing ok c st /\
  (Forall (fun e => Value.IsValid (fst e) = true) (seq_entries st) ->
   Cursor.err c = None).
Proof.
  destruct (session_ok calls st) as (ok0 & c0 & H & B & E).
  rewrite H. intros [= <- <- <-]. auto.
Qed.

(** The entry under a cursor that reads consistent indices. *)
Lemma browsing_item c st :
  consistent st -> browsing true c st ->
  exists i s (k v : bytes),
    Cursor.cs c = Some (mkBoltCursor bucketNameSeq (Some i)) /\
    nth_error (seq_entries st) i = Some (PutUint64 s, k) /\
    0 <= s < 2 ^ 64 /\ k <> [] /\
    Cursor.key c = Some k /\ Cursor.seq c = s /\
    kv_get (PutUint64 s) (seq_entries st) = Some k /\
    kv_get k (data_entries st) = Some v /\
    Value.IsValid v = true /\ firstn 8 v = PutUint64 s.
Proof.
  intros C (_ & _ & _ & R).
  destruct (R eq_refl) as (i & sb & k & Hcs & Hn & Hk & Hs).
  pose proof (nth_error_kv_get _ _ _ _ (seq_sorted _ _ _ C) Hn) as Gq.
  destruct (seq_to_data _ _ _ C _ _ Gq) as (s & v & -> & Rs & Gd & V & Ev).
  destruct (data_to_seq _ _ _ C _ _ Gd) as (K & _ & _).
  assert (R0 : 0 <= s < 2 ^ 64) by (destruct C; lia).
  exists i, s, k, v. repeat split; auto; try lia.
  rewrite Hs. change (firstn 8 (PutUint64 s)) with (PutUint64 s).
  rewrite be_val_PutUint64. now apply Z.mod_small.
Qed.

Lemma pointer_finds (k v : bytes) p st :
  sorted (data_entries st) -> coherent p st ->
  (pointer.c p = None <-> dataBucket st = None) ->
  k <> [] -> kv_get k (data_entries st) = Some v ->
  exists p', pointer.move (Some k) p st = Return (true, p') st /\
             pointer.val p' = Some v /\ pointer.key p' = Some k.
Proof.
  intros S C N K G. rewrite move_transparent by auto.
  unfold AlwaysMiss.move.
  destruct st as [w [[de dq]|] q]; cbn in G; [|discriminate].
  destruct (pointer.c p) as [[h s]|] eqn:E.
  - unfold coherent in C. rewrite E in C. destruct C as (Hb & _).
    cbn in Hb. subst h. unfold bolt_Seek. exec.
    rewrite (search_hit _ _ _ G). unfold bytes_Equal. exec.
    rewrite bytes_eqb_refl.
    eexists. split; [reflexivity|]. split; reflexivity.
  - destruct N as [N _]. specialize (N eq_refl). discriminate.
Qed.

Lemma Data_at c st :
  consistent st -> browsing true c st ->
  exists (k v : bytes) c',
    Cursor.key c = Some k /\
    kv_get k (data_entries st) = Some v /\ Value.IsValid v = true /\
    Cursor.Data c st = Return (Some (skipn 8 v), None, c') st /\
    browsing true c' st.
Proof.
  intros C B.
  destruct (browsing_item c st C B)
    as (i & s & k & v & _ & _ & _ & K & Hk & _ & _ & Gd & V & _).
  pose proof B as (P & N & _).
  destruct (pointer_finds k v (Cursor.dp c) st (data_sorted _ _ _ C) P N K Gd)
    as (p' & Hm & Hv & _).
  assert (HD : Cursor.Data c st =
               Return (Some (skipn 8 v), None, Cursor.set_dp p' c) st).
  { unfold Cursor.Data, pointer.Get, bind at 1 2. rewrite Hk, Hm.
    cbn [negb]. unfold ret at 1. rewrite Hv. cbn [content]. rewrite V.
    cbn [negb]. unfold bind, must, Value.Data. rewrite V. reflexivity. }
  destruct (browsing_Data true c st B) as (r & c' & Hd & B' & _).
  rewrite HD in Hd. injection Hd as <- <-.
  exists k, v, (Cursor.set_dp p' c). auto.
Qed.

(** X1. Reading with a cursor is safe on every location, damaged buckets
    and read-only transactions included: whatever moves and [Data] calls
    follow [Cursor], no call panics and the location stays as it is. *)
Theorem reading_is_safe (calls : list Look) (st : Location) :
  exists ok c, session calls st = Return (ok, c) st.
Proof.
  destruct (session_ok calls st) as (ok & c & H & _). eauto.
Qed.

(** X2. On consistent indices, after any moves and [Data] calls the last
    move of which returned true, the cursor shows a live entry: [Data]
    returns the payload stored under [Key], [Seq] is the sequence number of
    that value, [GetSeq] of it gives back [Key], and [Err] is nil. *)
Theorem Data_of_current_item (calls : list Look) (st : Location) (c : Cursor.t) :
  consistent st ->
  session calls st = Return (true, c) st ->
  exists v d c',
    Cursor.Data c st = Return (Some d, None, c') st /\
    Bucket.Get (content (Cursor.Key c)) st = Return (Some v) st /\
    Value.Seq v = Some (Cursor.Seq c) /\
    Value.Data v = Some d /\
    Bucket.GetSeq (Cursor.Seq c) st = Return (Cursor.Key c) st /\
    Cursor.Err c = None.
Proof.
  intros C H. destruct (session_inv _ _ _ _ _ H) as (_ & B & E).
  destruct (browsing_item c st C B)
    as (i & s & k & v & _ & _ & R & K & Hk & Hs & Gq & Gd & V & Ev).
  destruct (Data_at c st C B) as (k' & v' & c' & Hk' & Gd' & _ & HD & _).
  assert (k' = k) by congruence. subst k'.
  assert (v' = v) by congruence. subst v'.
  exists v, (skipn 8 v), c'. unfold Cursor.Key, Cursor.Seq, Cursor.Err.
  rewrite Hk, Hs. cbn [content].
  rewrite Get_eq, GetSeq_eq, Gd, Gq.
  repeat split; auto.
  - rewrite Seq_valid by auto. rewrite Ev, be_val_PutUint64.
    now rewrite Z.mod_small.
  - unfold Value.Data. now rewrite V.
  - apply E. now apply consistent_valid_keys.
Qed.

(** ** Where a move takes the cursor *)

Lemma search_below key l :
  forall j e, (j < search key l)%nat -> nth_error l j = Some e ->
              bytes_lt (fst e) key.
Proof.
  induction l as [|[a va] l IH]; intros j e; simpl.
  - lia.
  - destruct (bytes_compare a key) eqn:E; try lia.
    destruct j as [|j]; simpl.
    + intros _ [= <-]. exact E.
    + intros L H. apply (IH j e); auto. lia.
Qed.

Lemma search_at key l e :
  nth_error l (search key l) = Some e -> ~ bytes_lt (fst e) key.
Proof.
  induction l as [|[a va] l IH]; simpl; try discriminate.
  destruct (bytes_compare a key) eqn:E; simpl; auto.
  - intros [= <-]. unfold bytes_lt. simpl. congruence.
  - intros [= <-]. unfold bytes_lt. simpl. congruence.
Qed.

Lemma sorted_nth_lt l :
  sorted l ->
  forall i j a b, (i < j)%nat ->
    nth_error l i = Some a -> nth_error l j = Some b ->
    bytes_lt (fst a) (fst b).
Proof.
  induction l as [|[k v] l IH]; intros S i j a b L Hi Hj.
  - destruct i; discriminate.
  - destruct (sorted_inv S) as [S' F].
    destruct j as [|j]; [lia|]. simpl in Hj.
    destruct i as [|i]; simpl in Hi.
    + injection Hi as <-. cbn [fst]. rewrite Forall_forall in F.
      apply F. apply in_map. eapply nth_error_In; eauto.
    + apply (IH S' i j); auto. lia.
Qed.

Lemma PutUint64_lt a b :
  0 <= a < 2 ^ 64 -> 0 <= b < 2 ^ 64 ->
  (bytes_lt (PutUint64 a) (PutUint64 b) <-> a < b).
Proof.
  intros Ra Rb. unfold bytes_lt.
  rewrite be_val_compare by reflexivity.
  rewrite !be_val_PutUint64, !Z.mod_small by auto.
  apply Z.compare_lt_iff.
Qed.

(** The order of the entries of a consistent seq bucket is the order of
    their sequence numbers. *)
Lemma index_order st i j a b (ka kb : bytes) :
  consistent st -> 0 <= a < 2 ^ 64 -> 0 <= b < 2 ^ 64 ->
  nth_error (seq_entries st) i = Some (PutUint64 a, ka) ->
  nth_error (seq_entries st) j = Some (PutUint64 b, kb) ->
  ((i < j)%nat <-> a < b) /\ (i = j <-> a = b).
Proof.
  intros C Ra Rb Hi Hj.
  pose proof (sorted_nth_lt _ (seq_sorted _ _ _ C)) as S.
  assert (L : forall i j a b (ka kb : bytes),
    0 <= a < 2 ^ 64 -> 0 <= b < 2 ^ 64 ->
    nth_error (seq_entries st) i = Some (PutUint64 a, ka) ->
    nth_error (seq_entries st) j = Some (PutUint64 b, kb) ->
    (i < j)%nat -> a < b).
  { intros i0 j0 a0 b0 ka0 kb0 Ra0 Rb0 Hi0 Hj0 L.
    apply PutUint64_lt; auto. exact (S _ _ _ _ L Hi0 Hj0). }
  destruct (Nat.lt_total i j) as [T|[T|T]].
  - pose proof (L _ _ _ _ _ _ Ra Rb Hi Hj T). split; split; lia.
  - subst j. assert (E : PutUint64 a = PutUint64 b) by congruence.
    apply PutUint64_inj in E; auto. split; split; lia.
  - pose proof (L _ _ _ _ _ _ Rb Ra Hj Hi T). split; split; lia.
Qed.

Lemma live_index st s (k : bytes) :
  kv_get (PutUint64 s) (seq_entries st) = Some k ->
  exists j, nth_error (seq_entries st) j = Some (PutUint64 s, k).
Proof.
  intros G. apply kv_get_In in G. now apply In_nth_error in G.
Qed.

Lemma bolt_move_moved m h s st b :
  get_bucket h st = Some b ->
  bolt_move m (mkBoltCursor h s) st = Return (moved m h s (entries b)) st.
Proof.
  intros G.
  destruct m; unfold bolt_move, bolt_First, bolt_Last, bolt_Next, bolt_Prev,
    bolt_Seek, deref, bind, must, moved; cbn [bucket stack]; rewrite G;
    unfold ret; try reflexivity.
  - destruct s as [i|]; [|reflexivity].
    destruct (S i <? length (entries b))%nat; reflexivity.
  - destruct s as [[|i]|]; reflexivity.
Qed.

(** A move of a reading cursor on consistent indices: it ends on the entry
    that the store cursor returned, or returns false when there is none. *)
Lemma position_moved m b c st s :
  consistent st -> browsing b c st ->
  Cursor.cs c = Some (mkBoltCursor bucketNameSeq s) ->
  exists c',
    browsing (match fst (moved m bucketNameSeq s (seq_entries st)) with
              | Some _ => true | None => false end) c' st /\
    position m c st =
      Return (match fst (moved m bucketNameSeq s (seq_entries st)) with
              | Some _ => true | None => false end, c') st /\
    Cursor.cs c' = Some (snd (moved m bucketNameSeq s (seq_entries st))) /\
    Cursor.err c' = Cursor.err c /\
    match fst (moved m bucketNameSeq s (seq_entries st)) with
    | Some (sb, k) =>
        Cursor.key c' = Some k /\ sb = PutUint64 (Cursor.seq c') /\
        0 <= Cursor.seq c' < 2 ^ 64
    | None => Cursor.key c' = Cursor.key c /\ Cursor.seq c' = Cursor.seq c
    end.
Proof.
  intros C B Hcs.
  destruct (browsing_position m b c st B) as (ok & c' & Hp & B' & E).
  specialize (E (consistent_valid_keys st C)).
  pose proof B as (_ & _ & Q & _). rewrite Hcs in Q. destruct Q as (_ & Q).
  destruct (seqBucket st) as [bq|] eqn:Eq; [|congruence].
  revert Hp. rewrite position_eq, Hcs. unfold bind.
  rewrite (bolt_move_moved m bucketNameSeq s st bq Eq).
  rewrite <- (seq_bucket_entries Eq).
  destruct (moved m bucketNameSeq s (seq_entries st)) as [e cur'] eqn:Em.
  rewrite sync_at_eq. cbn [fst snd].
  destruct e as [[sb k]|].
  - assert (I : In (sb, k) (seq_entries st)).
    { destruct m; unfold moved, at_index in Em.
      - apply (f_equal fst) in Em; cbn [fst] in Em; eapply nth_error_In; exact Em.
      - apply (f_equal fst) in Em; cbn [fst] in Em; eapply nth_error_In; exact Em.
      - destruct s as [i|]; [|discriminate].
        destruct (S i <? length (seq_entries st))%nat; [|discriminate].
        apply (f_equal fst) in Em; cbn [fst] in Em; eapply nth_error_In; exact Em.
      - destruct s as [[|i]|]; try discriminate.
        apply (f_equal fst) in Em; cbn [fst] in Em; eapply nth_error_In; exact Em.
      - apply (f_equal fst) in Em; cbn [fst] in Em; eapply nth_error_In; exact Em. }
    destruct (consistent_seq_In st sb k C I) as (s0 & _ & -> & R0 & _).
    change (Value.IsValid (PutUint64 s0)) with true. cbv iota.
    change (firstn 8 (PutUint64 s0)) with (PutUint64 s0).
    rewrite be_val_PutUint64, Z.mod_small by auto.
    intros [= <- <-]. eexists. split; [exact B'|]. split; [reflexivity|].
    cbn. repeat split; auto; lia.
  - intros [= <- <-]. eexists. split; [exact B'|]. split; [reflexivity|].
    cbn. auto.
Qed.

Lemma Some_pair {A B : Type} (a a' : A) (b b' : B) :
  Some (a, b) = Some (a', b') -> a = a' /\ b = b'.
Proof. intros H. split; congruence. Qed.

Lemma GetSeq_live s st (k : bytes) :
  Bucket.GetSeq s st = Return (Some k) st <->
  kv_get (PutUint64 s) (seq_entries st) = Some k.
Proof.
  rewrite GetSeq_eq. split; intros H; congruence.
Qed.

Lemma reading_move m b c st :
  consistent st -> browsing b c st -> Cursor.err c = None ->
  exists ok c',
    position m c st = Return (ok, c') st /\ Cursor.err c' = None /\
    browsing ok c' st /\
    match Cursor.cs c with
    | None => ok = false /\ seq_entries st = []
    | Some cur =>
        exists s, cur = mkBoltCursor bucketNameSeq s /\
        match fst (moved m bucketNameSeq s (seq_entries st)) with
        | Some (sb, k) =>
            ok = true /\ Cursor.key c' = Some k /\
            sb = PutUint64 (Cursor.seq c') /\ 0 <= Cursor.seq c' < 2 ^ 64
        | None => ok = false
        end
    end.
Proof.
  intros C B E.
  destruct (Cursor.cs c) as [[h s]|] eqn:Hcs.
  - pose proof B as (_ & _ & Q & _). rewrite Hcs in Q. destruct Q as (Q & _).
    cbn [bucket] in Q. subst h.
    destruct (position_moved m b c st s C B Hcs) as (c' & B' & P & _ & E' & K).
    destruct (fst (moved m bucketNameSeq s (seq_entries st))) as [[sb k]|] eqn:Em.
    + exists true, c'. split; [exact P|]. split; [congruence|].
      split; [exact B'|]. exists s. split; auto. rewrite Em. tauto.
    + exists false, c'. split; [exact P|]. split; [congruence|].
      split; [exact B'|]. exists s. split; auto. now rewrite Em.
  - pose proof B as (_ & _ & Q & _). rewrite Hcs in Q.
    exists false, c. rewrite position_eq, Hcs.
    split; [reflexivity|]. split; [exact E|]. split.
    + destruct B as (B1 & B2 & B3 & B4).
      split; [exact B1|]. split; [exact B2|]. split; [exact B3|discriminate].
    + split; [reflexivity|]. unfold seq_entries. now rewrite Q.
Qed.

(** X3. [Seek] puts a reading cursor on the entry with the smallest sequence
    number that is not below the one asked for: it returns true there, with
    [Seq] and [Key] of that entry, and false without an error when all
    sequence numbers in use are smaller.  It lands on the number asked for
    exactly when [GetSeq] finds that number. *)
Theorem Seek_least (calls : list Look) (st : Location) (ok0 : bool)
    (c0 : Cursor.t) (s : Z) :
  consistent st -> 0 <= s < 2 ^ 64 ->
  session calls st = Return (ok0, c0) st ->
  exists ok c,
    Cursor.Seek s c0 st = Return (ok, c) st /\ Cursor.Err c = None /\
    (ok = true ->
       s <= Cursor.Seq c /\ Cursor.Key c <> None /\
       Bucket.GetSeq (Cursor.Seq c) st = Return (Cursor.Key c) st /\
       forall s' (k' : bytes), 0 <= s' < 2 ^ 64 ->
         Bucket.GetSeq s' st = Return (Some k') st ->
         s <= s' -> Cursor.Seq c <= s') /\
    (ok = false ->
       forall s' (k' : bytes), 0 <= s' < 2 ^ 64 ->
         Bucket.GetSeq s' st = Return (Some k') st -> s' < s) /\
    ((ok = true /\ Cursor.Seq c = s) <->
     exists k : bytes, Bucket.GetSeq s st = Return (Some k) st).
Proof.
  intros C R H. destruct (session_inv _ _ _ _ _ H) as (_ & B & E).
  specialize (E (consistent_valid_keys st C)).
  destruct (reading_move (MSeek s) ok0 c0 st C B E) as (ok & c & P & E' & B' & K).
  exists ok, c. split; [exact P|]. split; [exact E'|].
  unfold Cursor.Seq, Cursor.Key.
  pose proof (seq_sorted _ _ _ C) as S.
  destruct (Cursor.cs c0) as [cur|].
  2:{ destruct K as (-> & L).
      assert (A : forall s' (k' : bytes),
                ~ Bucket.GetSeq s' st = Return (Some k') st).
      { intros s' k' G. apply GetSeq_live in G. rewrite L in G. discriminate. }
      split; [discriminate|]. split.
      - intros _ s' k' _ G. now apply A in G.
      - split; [intros (? & _); discriminate|].
        intros (k & G). now apply A in G. }
  destruct K as (p & Ecur & K'). unfold moved, at_index in K'. cbn [fst] in K'.
  revert K'; intros K.
  set (l := seq_entries st) in *. set (i := search (PutUint64 s) l) in *.
  assert (below : forall j s' (k' : bytes), 0 <= s' < 2 ^ 64 ->
            nth_error l j = Some (PutUint64 s', k') -> (j < i)%nat -> s' < s).
  { intros j s' k' R' N L.
    pose proof (search_below (PutUint64 s) l j _ L N) as T. cbn [fst] in T.
    now apply PutUint64_lt in T. }
  assert (hit : forall k0 : bytes,
            Bucket.GetSeq s st = Return (Some k0) st ->
            nth_error l i = Some (PutUint64 s, k0)).
  { intros k0 G0. apply GetSeq_live in G0. now apply search_hit in G0. }
  destruct (nth_error l i) as [[sb k]|] eqn:N.
  - destruct K as (-> & Kk & -> & Rc). rewrite Kk.
    assert (G : kv_get (PutUint64 (Cursor.seq c)) l = Some k)
      by (eapply nth_error_kv_get; eauto).
    assert (A : s <= Cursor.seq c).
    { pose proof (search_at (PutUint64 s) l _ N) as T. cbn [fst] in T.
      rewrite PutUint64_lt in T by auto. lia. }
    split; [|split; [discriminate|split]].
    + intros _. split; [exact A|]. split; [discriminate|].
      split; [now apply GetSeq_live|].
      intros s' k' R' G' L. apply GetSeq_live in G'.
      destruct (live_index st s' k' G') as (j & Nj).
      destruct (index_order st i j _ _ _ _ C Rc R' N Nj) as (O1 & O2).
      destruct (Nat.lt_total i j) as [T|[T|T]]; try lia.
      pose proof (below j s' k' R' Nj T). lia.
    + intros (_ & <-). exists k. now apply GetSeq_live.
    + intros (k0 & G0). apply hit in G0.
      apply Some_pair in G0. destruct G0 as (T & _).
      apply PutUint64_inj in T; auto.
  - subst ok. split; [discriminate|]. split; [|split].
    + intros _ s' k' R' G'. apply GetSeq_live in G'.
      destruct (live_index st s' k' G') as (j & Nj).
      apply (below j s' k' R' Nj).
      apply nth_error_None in N.
      assert (T : nth_error l j <> None) by (unfold l; rewrite Nj; discriminate).
      apply nth_error_Some in T. lia.
    + intros (? & _). discriminate.
    + intros (k0 & G0). apply hit in G0. discriminate.
Qed.

Lemma live_at st s (k : bytes) :
  Bucket.GetSeq s st = Return (Some k) st ->
  exists j, nth_error (seq_entries st) j = Some (PutUint64 s, k) /\
            (j < length (seq_entries st))%nat.
Proof.
  intros G. apply GetSeq_live in G. destruct (live_index st s k G) as (j & N).
  exists j. split; auto. apply nth_error_Some. rewrite N. discriminate.
Qed.

Lemma entry_live st j s (k : bytes) :
  consistent st -> nth_error (seq_entries st) j = Some (PutUint64 s, k) ->
  Bucket.GetSeq s st = Return (Some k) st.
Proof.
  intros C N. apply GetSeq_live.
  eapply nth_error_kv_get; eauto. exact (seq_sorted _ _ _ C).
Qed.

(** X4. [Next] takes a reading cursor from its current item to the item
    with the next greater sequence number in use, and returns false without
    an error when the current item has the greatest one. *)
Theorem Next_successor (calls : list Look) (st : Location) (c : Cursor.t) :
  consistent st -> session calls st = Return (true, c) st ->
  exists ok c',
    Cursor.Next c st = Return (ok, c') st /\ Cursor.Err c' = None /\
    (ok = true ->
       Cursor.Seq c < Cursor.Seq c' /\ Cursor.Key c' <> None /\
       Bucket.GetSeq (Cursor.Seq c') st = Return (Cursor.Key c') st /\
       forall s' (k' : bytes), 0 <= s' < 2 ^ 64 ->
         Bucket.GetSeq s' st = Return (Some k') st ->
         Cursor.Seq c < s' -> Cursor.Seq c' <= s') /\
    (ok = false ->
       forall s' (k' : bytes), 0 <= s' < 2 ^ 64 ->
         Bucket.GetSeq s' st = Return (Some k') st -> s' <= Cursor.Seq c).
Proof.
  intros C H. destruct (session_inv _ _ _ _ _ H) as (_ & B & E).
  specialize (E (consistent_valid_keys st C)).
  destruct (browsing_item c st C B)
    as (i & s & k & v & Hcs & N & R & _ & _ & Hs & _).
  destruct (reading_move MNext true c st C B E) as (ok & c' & P & E' & _ & K).
  exists ok, c'. split; [exact P|]. split; [exact E'|].
  unfold Cursor.Seq, Cursor.Key. rewrite Hs.
  rewrite Hcs in K. destruct K as (p & Ep & K).
  assert (p = Some i) by congruence. subst p. clear Ep.
  unfold moved, at_index in K.
  assert (order : forall j s' (k' : bytes), 0 <= s' < 2 ^ 64 ->
            nth_error (seq_entries st) j = Some (PutUint64 s', k') ->
            ((i < j)%nat <-> s < s') /\ (i = j <-> s = s')).
  { intros j s' k' R' N'. exact (index_order st i j _ _ _ _ C R R' N N'). }
  destruct (S i <? length (seq_entries st))%nat eqn:L; cbn [fst] in K.
  - destruct (nth_error (seq_entries st) (S i)) as [[sb k1]|] eqn:N1.
    + destruct K as (-> & Kk & -> & Rc). rewrite Kk.
      split; [|discriminate]. intros _.
      split; [apply (order _ _ _ Rc N1); lia|].
      split; [discriminate|]. split; [exact (entry_live st _ _ _ C N1)|].
      intros s' k' R' G' L'. destruct (live_at st s' k' G') as (j & Nj & _).
      destruct (order j s' k' R' Nj) as (O & _). apply O in L'.
      destruct (index_order st (S i) j _ _ _ _ C Rc R' N1 Nj) as (O1 & O2).
      destruct (Nat.lt_total (S i) j) as [T|[T|T]]; lia.
    + apply nth_error_None in N1. apply Nat.ltb_lt in L. lia.
  - subst ok. split; [discriminate|]. intros _ s' k' R' G'.
    destruct (live_at st s' k' G') as (j & Nj & Lj).
    apply Nat.ltb_ge in L. destruct (order j s' k' R' Nj) as (O1 & O2).
    destruct (Nat.lt_total i j) as [T|[T|T]]; lia.
Qed.

(** X5. [Prev] takes a reading cursor from its current item to the item
    with the next smaller sequence number in use, and returns false without
    an error when the current item has the smallest one. *)
Theorem Prev_predecessor (calls : list Look) (st : Location) (c : Cursor.t) :
  consistent st -> session calls st = Return (true, c) st ->
  exists ok c',
    Cursor.Prev c st = Return (ok, c') st /\ Cursor.Err c' = None /\
    (ok = true ->
       Cursor.Seq c' < Cursor.Seq c /\ Cursor.Key c' <> None /\
       Bucket.GetSeq (Cursor.Seq c') st = Return (Cursor.Key c') st /\
       forall s' (k' : bytes), 0 <= s' < 2 ^ 64 ->
         Bucket.GetSeq s' st = Return (Some k') st ->
         s' < Cursor.Seq c -> s' <= Cursor.Seq c') /\
    (ok = false ->
       forall s' (k' : bytes), 0 <= s' < 2 ^ 64 ->
         Bucket.GetSeq s' st = Return (Some k') st -> Cursor.Seq c <= s').
Proof.
  intros C H. destruct (session_inv _ _ _ _ _ H) as (_ & B & E).
  specialize (E (consistent_valid_keys st C)).
  destruct (browsing_item c st C B)
    as (i & s & k & v & Hcs & N & R & _ & _ & Hs & _).
  destruct (reading_move MPrev true c st C B E) as (ok & c' & P & E' & _ & K).
  exists ok, c'. split; [exact P|]. split; [exact E'|].
  unfold Cursor.Seq, Cursor.Key. rewrite Hs.
  rewrite Hcs in K. destruct K as (p & Ep & K).
  assert (p = Some i) by congruence. subst p. clear Ep.
  unfold moved, at_index in K.
  assert (order : forall j s' (k' : bytes), 0 <= s' < 2 ^ 64 ->
            nth_error (seq_entries st) j = Some (PutUint64 s', k') ->
            ((j < i)%nat <-> s' < s) /\ (j = i <-> s' = s)).
  { intros j s' k' R' N'. exact (index_order st j i _ _ _ _ C R' R N' N). }
  destruct i as [|i]; cbn [fst] in K.
  - subst ok. split; [discriminate|]. intros _ s' k' R' G'.
    destruct (live_at st s' k' G') as (j & Nj & _).
    destruct (order j s' k' R' Nj) as (O1 & O2). lia.
  - destruct (nth_error (seq_entries st) i) as [[sb k1]|] eqn:N1.
    + destruct K as (-> & Kk & -> & Rc). rewrite Kk.
      split; [|discriminate]. intros _.
      split; [apply (order _ _ _ Rc N1); lia|].
      split; [discriminate|]. split; [exact (entry_live st _ _ _ C N1)|].
      intros s' k' R' G' L'. destruct (live_at st s' k' G') as (j & Nj & _).
      destruct (order j s' k' R' Nj) as (O & _). apply O in L'.
      destruct (index_order st j i _ _ _ _ C R' Rc Nj N1) as (O1 & O2).
      destruct (Nat.lt_total j i) as [T|[T|T]]; lia.
    + apply nth_error_None in N1.
      assert (T : nth_error (seq_entries st) (S i) <> None)
        by (rewrite N; discriminate).
      apply nth_error_Some in T. lia.
Qed.

(** X6. [First] puts a reading cursor on the item with the smallest sequence
    number in use and [Last] on the item with the greatest one; each
    returns false, without an error, exactly when no sequence number is in
    use. *)
Theorem First_Last_extremes (calls : list Look) (st : Location) (ok0 : bool)
    (c0 : Cursor.t) :
  consistent st -> session calls st = Return (ok0, c0) st ->
  exists ok cf cl,
    Cursor.First c0 st = Return (ok, cf) st /\
    Cursor.Last c0 st = Return (ok, cl) st /\
    Cursor.Err cf = None /\ Cursor.Err cl = None /\
    (ok = true ->
       Cursor.Key cf <> None /\ Cursor.Key cl <> None /\
       Bucket.GetSeq (Cursor.Seq cf) st = Return (Cursor.Key cf) st /\
       Bucket.GetSeq (Cursor.Seq cl) st = Return (Cursor.Key cl) st /\
       forall s' (k' : bytes), 0 <= s' < 2 ^ 64 ->
         Bucket.GetSeq s' st = Return (Some k') st ->
         Cursor.Seq cf <= s' <= Cursor.Seq cl) /\
    (ok = false ->
       forall s' (k' : bytes),
         Bucket.GetSeq s' st <> Return (Some k') st).
Proof.
  intros C H. destruct (session_inv _ _ _ _ _ H) as (_ & B & E).
  specialize (E (consistent_valid_keys st C)).
  destruct (reading_move MFirst ok0 c0 st C B E) as (ok & cf & Pf & Ef & _ & Kf).
  destruct (reading_move MLast ok0 c0 st C B E) as (ok' & cl & Pl & El & _ & Kl).
  unfold Cursor.Seq, Cursor.Key.
  destruct (Cursor.cs c0) as [cur|].
  2:{ destruct Kf as (-> & L). destruct Kl as (-> & _).
      exists false, cf, cl. split; [exact Pf|]. split; [exact Pl|].
      split; [exact Ef|]. split; [exact El|]. split; [discriminate|].
      intros _ s' k' G. apply GetSeq_live in G. rewrite L in G.
      discriminate. }
  destruct Kf as (p & Ep & Kf). destruct Kl as (p' & Ep' & Kl).
  unfold moved, at_index in Kf, Kl. cbn [fst] in Kf, Kl.
  destruct (nth_error (seq_entries st) 0) as [[sf kf]|] eqn:Nf.
  - destruct Kf as (-> & Kkf & -> & Rf).
    destruct (nth_error (seq_entries st) (length (seq_entries st) - 1))
      as [[sl kl]|] eqn:Nl.
    + destruct Kl as (-> & Kkl & -> & Rl).
      exists true, cf, cl. split; [exact Pf|]. split; [exact Pl|].
      split; [exact Ef|]. split; [exact El|]. split; [|discriminate].
      intros _. rewrite Kkf, Kkl.
      split; [discriminate|]. split; [discriminate|].
      split; [exact (entry_live st _ _ _ C Nf)|].
      split; [exact (entry_live st _ _ _ C Nl)|].
      intros s' k' R' G'. destruct (live_at st s' k' G') as (j & Nj & Lj).
      destruct (index_order st 0 j _ _ _ _ C Rf R' Nf Nj) as (O1 & O2).
      destruct (index_order st j (length (seq_entries st) - 1) _ _ _ _
                  C R' Rl Nj Nl) as (O3 & O4).
      split.
      * destruct j as [|j]; lia.
      * destruct (Nat.lt_total j (length (seq_entries st) - 1))
          as [T|[T|T]]; lia.
    + apply nth_error_None in Nl.
      assert (T : nth_error (seq_entries st) 0 <> None)
        by (rewrite Nf; discriminate).
      apply nth_error_Some in T. lia.
  - subst ok. apply nth_error_None in Nf.
    assert (L : seq_entries st = [])
      by (destruct (seq_entries st); [reflexivity|simpl in Nf; lia]).
    rewrite L in Kl. cbn in Kl. subst ok'.
    exists false, cf, cl. split; [exact Pf|]. split; [exact Pl|].
    split; [exact Ef|]. split; [exact El|]. split; [discriminate|].
    intros _ s' k' G. apply GetSeq_live in G. rewrite L in G. discriminate.
Qed.

(** ** Three ways to delete *)


Lemma Delete_eq (k v : bytes) st :
  kv_get k (data_entries st) = Some v -> Value.IsValid v = true ->
  seqBucket st <> None ->
  Bucket.Delete k st =
    if writable st
    then Return None (mkLocation true
           (option_map (fun b => mkBucket (kv_del k (entries b)) (sequence b))
                       (dataBucket st))
           (option_map (fun b => mkBucket (kv_del (firstn 8 v) (entries b))
                                          (sequence b))
                       (seqBucket st)))
    else Return (Some ErrTxNotWritable) st.
Proof.
  destruct st as [w [[de dq]|] [[qe qq]|]]; exec; try discriminate; try tauto.
  intros G V _. unfold Bucket.Delete. exec. rewrite G.
  unfold Value.seqBytes. rewrite V. exec. destruct w; reflexivity.
Qed.

Lemma Cursor_Delete_eq c st i (sb k : bytes) :
  consistent st -> pointer_ok (Cursor.dp c) st ->
  Cursor.cs c = Some (mkBoltCursor bucketNameSeq (Some i)) ->
  nth_error (seq_entries st) i = Some (sb, k) ->
  Cursor.key c = Some k ->
  exists e c' st',
    Bucket.Delete k st = Return e st' /\
    Cursor.Delete c st = Return (e, c') st' /\
    Cursor.cs c' = Cursor.cs c /\ Cursor.key c' = Cursor.key c /\
    Cursor.seq c' = Cursor.seq c /\ Cursor.err c' = Cursor.err c.
Proof.
  intros C P Hcs Hn Hk.
  pose proof (nth_error_kv_get _ _ _ _ (seq_sorted _ _ _ C) Hn) as Gq.
  destruct (seq_to_data _ _ _ C _ _ Gq) as (s & v & _ & _ & Gd & V & Ev).
  destruct (data_to_seq _ _ _ C _ _ Gd) as (K & _ & _).
  destruct (pointer_Delete_live k v _ st P K Gd)
    as (p' & curd & Hp1 & Hp2 & Hp3 & HD).
  assert (Q : seqBucket st <> None).
  { unfold seq_entries in Hn. destruct (seqBucket st); [discriminate|].
    destruct i; discriminate. }
  rewrite (Delete_eq k v st Gd V Q). subst sb.
  destruct st as [w [[de dq]|] [[qe qq]|]]; try discriminate.
  cbn [seq_entries data_entries seqBucket dataBucket entries] in Hn, Gd, Gq.
  destruct c as [cs dp sq ky er]. cbn in Hcs, Hk. subst cs ky.
  exists (if w then None else Some ErrTxNotWritable),
         (Cursor.mk (Some (mkBoltCursor bucketNameSeq (Some i))) p' sq
                    (Some k) er),
         (if w then mkLocation true (Some (mkBucket (kv_del k de) dq))
                          (Some (mkBucket (kv_del (firstn 8 v) qe) qq))
          else mkLocation w (Some (mkBucket de dq)) (Some (mkBucket qe qq))).
  split; [|split; [|cbn; auto]].
  - destruct w; reflexivity.
  - unfold Cursor.Delete, bind at 1. cbn [Cursor.key Cursor.dp].
    cbn [writable data_entries dataBucket entries Cursor.dp] in HD.
    rewrite HD.
    destruct w; [|reflexivity].
    unfold bolt_CursorDelete. exec. now rewrite Hn.
Qed.


(** X8. On consistent indices [DeleteSeq] of a sequence number in use is
    [Delete] of the key that [GetSeq] returns for it: the same result and
    the same location afterwards. *)
Theorem DeleteSeq_is_Delete (st : Location) (s : Z) (k : bytes) :
  consistent st -> 0 <= s < 2 ^ 64 ->
  Bucket.GetSeq s st = Return (Some k) st ->
  Bucket.DeleteSeq s st = Bucket.Delete k st.
Proof.
  intros C R G. apply GetSeq_live in G.
  pose proof (search_hit _ _ _ G) as N.
  assert (Q : seqBucket st <> None).
  { unfold seq_entries in G. destruct (seqBucket st); [discriminate|].
    discriminate. }
  rewrite DeleteSeq_eq.
  destruct (seqBucket st) as [b|] eqn:Eb; [|congruence].
  rewrite (seq_bucket_entries Eb) in N. cbv zeta. rewrite N.
  change (Value.IsValid (PutUint64 s)) with true. cbv iota.
  change (firstn 8 (PutUint64 s)) with (PutUint64 s).
  rewrite be_val_PutUint64, Z.mod_small, Z.eqb_refl by auto.
  match goal with
  | |- context [Cursor.Delete ?c st] =>
      destruct (Cursor_Delete_eq c st (search (PutUint64 s) (entries b))
                  (PutUint64 s) k C) as (e & c' & st' & HD & HC & _)
  end.
  - cbn [Cursor.dp]. unfold pointer_ok. cbn [pointer.c pointer.key].
    destruct (dataBucket st) eqn:Ed; cbn [option_map]; auto.
    split; [reflexivity|]. split; [discriminate|exact I].
  - reflexivity.
  - now rewrite (seq_bucket_entries Eb).
  - reflexivity.
  - rewrite HC, HD. reflexivity.
Qed.

(** ** [Put]: its outcome, what it leaves alone, and late failures *)

Lemma Put_eq (k p : bytes) st :
  writable st = true -> Bucket.Put k p st = Put_result k p st.
Proof.
  destruct st as [w d q]. cbn [writable]. intros ->.
  unfold Put_result, retire, Bucket.Put, Bucket.deleteCurrent.
  destruct d as [[de dq]|], q as [[qe qq]|]; exec;
    cbn [bucket_or_new entries sequence kv_get].
  all: try (destruct (kv_get k de) as [v|] eqn:G; exec;
            [unfold Value.seqBytes at 1; destruct (Value.IsValid v) eqn:V;
             exec; [|reflexivity]|]).
  all: rewrite seqBytes_newValue; exec.
  all: change (length (PutUint64 _)) with 8%nat; cbn [Nat.eqb].
  all: change (Z.of_nat 8 >? MaxKeySize) with false; cbv iota.
  all: repeat (exec_if; exec; try reflexivity).
Qed.

Lemma data_or_new st : entries (bucket_or_new (dataBucket st)) = data_entries st.
Proof. unfold data_entries. now destruct (dataBucket st). Qed.



Lemma length_newValue s p : length (newValue s p) = (8 + length p)%nat.
Proof. unfold newValue. now rewrite length_app, PutUint64_length. Qed.

Lemma length_zero_nil (k : bytes) : (length k =? 0)%nat = true <-> k = [].
Proof. destruct k; cbn; split; congruence. Qed.

(** X9. [Put] returns in every location.  It succeeds exactly when the
    transaction is writable, the key is not empty and not above the key size
    of the store, the payload with its eight bytes of sequence number is not
    above the value size, and the value stored for the key, if any, is
    valid.  In a read-only transaction it returns 0 and the error of the
    store and changes nothing. *)
Theorem Put_outcome (k p : bytes) (st : Location) :
  exists s e st',
    Bucket.Put k p st = Return (s, e) st' /\
    (e = None <->
       writable st = true /\ k <> [] /\
       Z.of_nat (length k) <= MaxKeySize /\
       Z.of_nat (length p) + 8 <= MaxValueSize /\
       forall v, Bucket.Get k st = Return (Some v) st ->
                 Value.IsValid v = true) /\
    (writable st = false -> s = 0 /\ e = Some ErrTxNotWritable /\ st' = st).
Proof.
  destruct (writable st) eqn:W.
  - rewrite (Put_eq k p st W). unfold Put_result.
    rewrite data_or_new, length_newValue.
    assert (GV : forall v, Bucket.Get k st = Return (Some v) st <->
                           kv_get k (data_entries st) = Some v).
    { intros v. rewrite Get_eq.
      split; intros E; [injection E as E; exact E|now rewrite E]. }
    destruct (match kv_get k (data_entries st) with
              | Some v => negb (Value.IsValid v) | None => false end) eqn:V.
    { eexists _, _, _. split; [reflexivity|]. split; [|discriminate].
      split; [discriminate|]. intros (_ & _ & _ & _ & A).
      destruct (kv_get k (data_entries st)) as [v|]; [|discriminate].
      rewrite (A v) in V; [discriminate|]. now apply GV. }
    assert (A : forall v, Bucket.Get k st = Return (Some v) st ->
                          Value.IsValid v = true).
    { intros v G. apply GV in G. rewrite G in V.
      now destruct (Value.IsValid v). }
    destruct (Z.of_nat (length k) >? MaxValueSize) eqn:C1.
    { eexists _, _, _. split; [reflexivity|]. split; [|discriminate].
      split; [discriminate|]. intros (_ & _ & L & _).
      rewrite Z.gtb_ltb in C1. apply Z.ltb_lt in C1.
      unfold MaxKeySize, MaxValueSize in *. lia. }
    destruct (length k =? 0)%nat eqn:C2.
    { eexists _, _, _. split; [reflexivity|]. split; [|discriminate].
      split; [discriminate|]. intros (_ & K & _).
      now apply length_zero_nil in C2. }
    destruct (Z.of_nat (length k) >? MaxKeySize) eqn:C3.
    { eexists _, _, _. split; [reflexivity|]. split; [|discriminate].
      split; [discriminate|]. intros (_ & _ & L & _).
      rewrite Z.gtb_ltb in C3. apply Z.ltb_lt in C3. lia. }
    destruct (Z.of_nat (8 + length p) >? MaxValueSize) eqn:C4.
    { eexists _, _, _. split; [reflexivity|]. split; [|discriminate].
      split; [discriminate|]. intros (_ & _ & _ & L & _).
      rewrite Z.gtb_ltb in C4. apply Z.ltb_lt in C4. lia. }
    eexists _, _, _. split; [reflexivity|]. split; [|discriminate].
    split; [|reflexivity]. intros _.
    rewrite Z.gtb_ltb in C3, C4. apply Z.ltb_ge in C3, C4.
    split; [reflexivity|]. split.
    + intros ->. discriminate.
    + split; [lia|]. split; [lia|exact A].
  - exists 0, (Some ErrTxNotWritable), st. split; [|split].
    + destruct st as [w d q]. cbn in W. subst w. reflexivity.
    + split; [discriminate|]. intros (? & _). discriminate.
    + auto.
Qed.

(** The seq bucket without the entry of the current value of [k]. *)
Lemma retired_seq_get st (k sb k' : bytes) :
  consistent st ->
  (kv_get sb (retired_seq k st) = Some k' <->
   k' <> k /\ kv_get sb (seq_entries st) = Some k').
Proof.
  intros C. pose proof (seq_sorted _ _ _ C) as Sq. unfold retired_seq.
  destruct (kv_get k (data_entries st)) as [v|] eqn:G.
  - destruct (data_to_seq _ _ _ C _ _ G) as (_ & _ & Gq).
    destruct (list_eq_dec Byte.byte_eq_dec (firstn 8 v) sb) as [E|N].
    + rewrite <- E, kv_get_del_same, Gq by auto.
      split; [discriminate|]. intros (N & E'). congruence.
    + rewrite kv_get_del_other by auto. split; [|tauto].
      intros G'. split; auto. intros ->.
      destruct (seq_to_data _ _ _ C _ _ G') as (_ & v' & _ & _ & Gd & _ & Ev).
      congruence.
  - split; [|tauto]. intros G'. split; auto. intros ->.
    destruct (seq_to_data _ _ _ C _ _ G') as (_ & v' & _ & _ & Gd & _).
    congruence.
Qed.


(** X10. A [Put] that succeeds on consistent indices returns a number above
    every sequence number in use, and leaves the other keys alone: [Get] of
    another key and [GetSeq] of the number of another key give what they
    gave before, and the only number that [GetSeq] finds anew is the one
    returned. *)
Theorem Put_frame (k p : bytes) (st st' : Location) (s : Z) :
  consistent st -> counter st + 1 < 2 ^ 64 ->
  Bucket.Put k p st = Return (s, None) st' ->
  (forall s' (k' : bytes), 0 <= s' < 2 ^ 64 ->
     Bucket.GetSeq s' st = Return (Some k') st -> s' < s) /\
  (forall k' : bytes, k' <> k ->
     exists r, Bucket.Get k' st = Return r st /\
               Bucket.Get k' st' = Return r st') /\
  (forall s' (k' : bytes), 0 <= s' < 2 ^ 64 -> k' <> k ->
     Bucket.GetSeq s' st = Return (Some k') st ->
     Bucket.GetSeq s' st' = Return (Some k') st') /\
  (forall s' (k' : bytes), 0 <= s' < 2 ^ 64 -> s' <> s ->
     Bucket.GetSeq s' st' = Return (Some k') st' ->
     k' <> k /\ Bucket.GetSeq s' st = Return (Some k') st).
Proof.
  intros C B H. apply Put_success in H.
  destruct H as (_ & _ & Hs & _ & K & _ & Hd & Hq & _).
  assert (R : 0 <= counter st) by (destruct C; lia).
  rewrite Z.mod_small in Hs by lia.
  pose proof (data_sorted _ _ _ C) as Sd. pose proof (seq_sorted _ _ _ C) as Sq.
  assert (other : forall s', 0 <= s' < 2 ^ 64 -> s' <> s ->
            PutUint64 s <> PutUint64 s').
  { intros s' R' N E. apply PutUint64_inj in E; auto; lia. }
  assert (retired : forall s' (k' : bytes), 0 <= s' < 2 ^ 64 ->
            (kv_get (PutUint64 s') (retired_seq k st) = Some k' <->
             k' <> k /\ kv_get (PutUint64 s') (seq_entries st) = Some k')).
  { intros s' k' _. now apply retired_seq_get. }
  split; [|split; [|split]].
  - intros s' k' R' G. apply GetSeq_live in G.
    destruct (seq_to_data _ _ _ C _ _ G) as (s0 & _ & E & R0 & _).
    apply PutUint64_inj in E; auto; lia.
  - intros k' N. exists (kv_get k' (data_entries st)).
    rewrite !Get_eq, Hd.
    rewrite kv_get_put_other, kv_get_del_other by auto. auto.
  - intros s' k' R' N G. apply GetSeq_live in G. apply GetSeq_live.
    assert (s' <> s).
    { destruct (seq_to_data _ _ _ C _ _ G) as (s0 & _ & E & R0 & _).
      apply PutUint64_inj in E; auto; lia. }
    rewrite Hq, kv_get_put_other by auto. apply retired; auto.
  - intros s' k' R' N G. apply GetSeq_live in G.
    rewrite Hq, kv_get_put_other in G by auto.
    apply retired in G; auto. destruct G as (N' & G). split; auto.
    now apply GetSeq_live.
Qed.


(** ** Sequence numbers are issued in order *)




(** ** [Delete] leaves the other keys alone *)

Lemma Delete_done k st st' :
  Bucket.Delete k st = Return None st' ->
  (kv_get k (data_entries st) = None /\ st' = st) \/
  exists v, kv_get k (data_entries st) = Some v /\
    counter st' = counter st /\
    data_entries st' = kv_del k (data_entries st) /\
    seq_entries st' = kv_del (firstn 8 v) (seq_entries st).
Proof.
  destruct st as [w [[de dq]|] q]; unfold Bucket.Delete; exec;
    try discriminate.
  destruct (kv_get k de) as [v|] eqn:G; exec.
  2:{ intros [= <-]. now left. }
  destruct (Value.IsValid v) eqn:V; exec; try discriminate.
  destruct q as [[qe qq]|]; exec; try discriminate.
  unfold Value.seqBytes. rewrite V. exec.
  destruct w; exec; try discriminate.
  intros [= <-]. right. exists v. auto.
Qed.

(** X13. A [Delete] that succeeds on consistent indices removes the key and
    nothing else: [Get] no longer finds it, [Get] of another key and
    [GetSeq] of the number of another key give what they gave before,
    [GetSeq] finds nothing new, and the counter of sequence numbers stays. *)
Theorem Delete_frame (k : bytes) (st st' : Location) :
  consistent st -> Bucket.Delete k st = Return None st' ->
  Bucket.Get k st' = Return None st' /\
  (forall k' : bytes, k' <> k ->
     exists r, Bucket.Get k' st = Return r st /\
               Bucket.Get k' st' = Return r st') /\
  (forall s' (k' : bytes),
     Bucket.GetSeq s' st' = Return (Some k') st' <->
     k' <> k /\ Bucket.GetSeq s' st = Return (Some k') st) /\
  counter st' = counter st.
Proof.
  intros C H. pose proof (data_sorted _ _ _ C) as Sd.
  assert (R : forall sb (k' : bytes),
            kv_get sb (seq_entries st') = Some k' <->
            k' <> k /\ kv_get sb (seq_entries st) = Some k').
  { intros sb k'. rewrite <- (retired_seq_get st k sb k' C).
    unfold retired_seq.
    destruct (Delete_done _ _ _ H) as [(G & ->)|(v & G & _ & _ & Hq)];
      rewrite G; [tauto|]. now rewrite Hq. }
  split; [|split; [|split]].
  - rewrite Get_eq. f_equal.
    destruct (Delete_done _ _ _ H) as [(G & ->)|(v & G & _ & Hd & _)]; auto.
    rewrite Hd. now apply kv_get_del_same.
  - intros k' N. exists (kv_get k' (data_entries st)). rewrite !Get_eq.
    split; [reflexivity|]. f_equal.
    destruct (Delete_done _ _ _ H) as [(G & ->)|(v & G & _ & Hd & _)]; auto.
    rewrite Hd. now apply kv_get_del_other.
  - intros s' k'. rewrite !GetSeq_live. apply R.
  - destruct (Delete_done _ _ _ H) as [(G & ->)|(v & G & Hc & _)]; auto.
Qed.

(** ** The two versions of [Put] *)

(** X14. The [Put] of the earlier bucket file, which returns the error
    alone, is the later [Put] without the sequence number: the same error,
    or none, and the same location afterwards. *)
Theorem Legacy_Put_same (k p : bytes) (st : Location) :
  Legacy.Put k p st =
  match Bucket.Put k p st with
  | Return (_, e) st' => Return e st'
  | Panic => Panic
  end.
Proof.
  unfold Legacy.Put, Bucket.Put, bind.
  destruct (CreateBucketIfNotExists bucketNameData st) as [[bd|e] st0|];
    try reflexivity.
  destruct (CreateBucketIfNotExists bucketNameSeq st0) as [[bs|e] st1|];
    try reflexivity.
  destruct (Bucket.deleteCurrent bd bs k st1) as [[e|] st2|]; try reflexivity.
  destruct (bolt_NextSequence bs st2) as [[s [e|]] st3|]; try reflexivity.
  destruct (must (Value.seqBytes (newValue s p)) st3) as [sb st4|];
    try reflexivity.
  destruct (bolt_Put bs sb k st4) as [[e|] st5|]; try reflexivity.
  destruct (bolt_Put bd k (newValue s p) st5) as [e st6|]; reflexivity.
Qed.

(** ** The codec *)

(** X15. A valid value is the encoding of its sequence number and its data:
    whatever [Get] returns with eight bytes or more is [newValue] of what
    [Seq] and [Data] read from it. *)
Theorem value_is_newValue (v : Value.t) :
  Value.IsValid v = true ->
  exists s d,
    Value.Seq v = Some s /\ Value.Data v = Some d /\ 0 <= s < 2 ^ 64 /\
    v = newValue s d.
Proof.
  intros V. exists (be_val (firstn 8 v)), (skipn 8 v).
  assert (L : length (firstn 8 v) = 8%nat) by now apply firstn_valid_length.
  pose proof (be_val_range (firstn 8 v)) as R. rewrite L in R.
  split; [now apply Seq_valid|]. split.
  - unfold Value.Data. now rewrite V.
  - split; [exact R|]. unfold newValue.
    rewrite PutUint64_be_val by exact L. symmetry. apply firstn_skipn.
Qed.

(** X16. The eight bytes that [newValue] puts in front order as the
    sequence numbers do: the keys of the seq bucket compare, byte by byte,
    as their numbers compare. *)
Theorem seqBytes_order (a b : Z) (p q x y : bytes) :
  0 <= a < 2 ^ 64 -> 0 <= b < 2 ^ 64 ->
  Value.seqBytes (newValue a p) = Some x ->
  Value.seqBytes (newValue b q) = Some y ->
  bytes_compare x y = Z.compare a b.
Proof.
  intros Ra Rb. rewrite !seqBytes_newValue. intros Hx Hy.
  assert (Ex : x = PutUint64 a) by congruence.
  assert (Ey : y = PutUint64 b) by congruence.
  subst x y. rewrite be_val_compare by reflexivity.
  now rewrite !be_val_PutUint64, !Z.mod_small.
Qed.

(** ** The loop of the test: [Seq], [Key] and [Data] of every item *)

Lemma scan_from st fuel :
  consistent st ->
  forall c i,
    browsing true c st ->
    Cursor.cs c = Some (mkBoltCursor bucketNameSeq (Some i)) ->
    (length (seq_entries st) - i <= fuel)%nat ->
    scan fuel true c st = Some (map (reading st) (skipn i (seq_entries st))).
Proof.
  intros C. induction fuel as [|fuel IH]; intros c i B Hcs F.
  - destruct (browsing_item c st C B) as (i' & s & k & v & Hcs' & N & _).
    assert (i' = i) by congruence. subst i'.
    assert (T : nth_error (seq_entries st) i <> None)
      by (rewrite N; discriminate).
    apply nth_error_Some in T. lia.
  - destruct (browsing_item c st C B)
      as (i' & s & k & v & Hcs' & N & R & _ & Hk & Hs & _ & Gd & V & _).
    assert (i' = i) by congruence. subst i'.
    destruct (Data_at c st C B) as (k' & v' & c1 & Hk' & Gd' & _ & HD & B1).
    assert (k' = k) by congruence. subst k'.
    assert (v' = v) by congruence. subst v'.
    destruct (browsing_Data true c st B) as (r & c1' & HD' & _ & Ec).
    rewrite HD in HD'.
    assert (c1' = c1) by congruence. subst c1'.
    assert (Hcs1 : Cursor.cs c1 = Some (mkBoltCursor bucketNameSeq (Some i)))
      by (rewrite Ec; exact Hcs).
    cbn [scan]. rewrite HD.
    change (Cursor.Next c1) with (position MNext c1).
    destruct (position_moved MNext true c1 st (Some i) C B1 Hcs1)
      as (c2 & B2 & P & Hcs2 & _).
    rewrite P. rewrite (skipn_nth _ _ _ N). cbn [map].
    assert (E : (Cursor.Seq c, content (Cursor.Key c), Some (skipn 8 v),
                 @None error) = reading st (PutUint64 s, k)).
    { unfold reading, Cursor.Seq, Cursor.Key. cbn [fst snd].
      rewrite Hk, Hs, Gd. cbn [content option_map].
      change (firstn 8 (PutUint64 s)) with (PutUint64 s).
      now rewrite be_val_PutUint64, Z.mod_small. }
    unfold moved, at_index in B2, Hcs2. unfold moved, at_index.
    destruct (S i <? length (seq_entries st))%nat eqn:L;
      cbn [fst snd] in B2, Hcs2 |- *.
    + apply Nat.ltb_lt in L.
      destruct (nth_error (seq_entries st) (S i)) as [e|] eqn:N1.
      * rewrite (IH c2 (S i) B2 Hcs2) by lia. cbn [option_map].
        do 2 f_equal. exact E.
      * apply nth_error_None in N1. lia.
    + apply Nat.ltb_ge in L. rewrite (@skipn_all2 _ (S i) (seq_entries st)) by lia.
      destruct fuel; cbn [scan option_map map]; do 2 f_equal; exact E.
Qed.

Lemma scan_all_eq st fuel :
  consistent st -> (length (seq_entries st) <= fuel)%nat ->
  scan_all fuel st = Some (map (reading st) (seq_entries st)).
Proof.
  intros C F. unfold scan_all.
  destruct (browsing_Cursor st) as (c & -> & B & E).
  change (Cursor.First c) with (position MFirst c).
  destruct (Cursor.cs c) as [[h s]|] eqn:Hcs.
  - pose proof B as (_ & _ & Q & _). rewrite Hcs in Q. destruct Q as (Q & _).
    cbn [bucket] in Q. subst h.
    destruct (position_moved MFirst false c st s C B Hcs)
      as (c1 & B1 & P & Hcs1 & _).
    rewrite P. unfold moved, at_index in B1, Hcs1. unfold moved, at_index.
    cbn [fst snd] in B1, Hcs1 |- *.
    destruct (nth_error (seq_entries st) 0) as [e|] eqn:N.
    + rewrite (scan_from st fuel C c1 0%nat B1 Hcs1) by lia. reflexivity.
    + destruct (seq_entries st); [|discriminate]. destruct fuel; reflexivity.
  - pose proof B as (_ & _ & Q & _). rewrite Hcs in Q.
    rewrite position_eq, Hcs. unfold ret, seq_entries. rewrite Q.
    destruct fuel; reflexivity.
Qed.

Lemma forward_visited st fuel :
  consistent st -> (length (seq_entries st) <= fuel)%nat ->
  forward fuel st = Some (visited st).
Proof.
  intros C F. pose proof (consistent_valid_keys st C) as V.
  destruct st as [w d [[qe qq]|]].
  - now apply traverse_seq.
  - destruct d, fuel; reflexivity.
Qed.

(** X17. The loop [for ok := c.First(); ok; ok = c.Next()] that reads
    [Seq], [Key] and [Data] of every item ends on consistent indices, and
    what it reads are the items of the forward traversal, each with the data
    that [Get] of its key holds under that sequence number, with no error
    from [Data]. *)
Theorem scan_reads_all (st : Location) (fuel : nat) :
  consistent st -> (length (visited st) <= fuel)%nat ->
  exists r,
    scan_all fuel st = Some r /\
    forward fuel st = Some (map (fun x => fst (fst x)) r) /\
    Forall (fun x =>
              let '(s, k, d, e) := x in
              e = None /\
              Bucket.GetSeq s st = Return (Some k) st /\
              exists v, Bucket.Get k st = Return (Some v) st /\
                        Value.Seq v = Some s /\ Value.Data v = d) r.
Proof.
  intros C F. unfold visited in F. rewrite length_map in F.
  exists (map (reading st) (seq_entries st)).
  split; [now apply scan_all_eq|]. split.
  - rewrite (forward_visited st fuel C F). unfold visited.
    rewrite map_map. reflexivity.
  - apply Forall_forall. intros x I. apply in_map_iff in I.
    destruct I as ([sb k] & <- & I).
    destruct (consistent_seq_In st sb k C I) as (s & v & -> & R & G & V & Ev).
    unfold reading. cbn [fst snd]. rewrite G. cbn [option_map].
    change (firstn 8 (PutUint64 s)) with (PutUint64 s).
    rewrite be_val_PutUint64, Z.mod_small by auto.
    split; [reflexivity|]. split.
    + apply GetSeq_live. apply In_kv_get; auto. exact (seq_sorted _ _ _ C).
    + exists v. rewrite Get_eq, G. split; [reflexivity|]. split.
      * rewrite Seq_valid by auto. rewrite Ev, be_val_PutUint64.
        now rewrite Z.mod_small.
      * unfold Value.Data. now rewrite V.
Qed.

(** ** The test that puts many keys *)

Lemma kv_put_last (k v : bytes) l :
  (forall e, In e l -> bytes_lt (fst e) k) -> kv_put k v l = l ++ [(k, v)].
Proof.
  induction l as [|[a va] l IH]; intros H; simpl; auto.
  pose proof (H (a, va) (or_introl eq_refl)) as L. unfold bytes_lt in L.
  cbn [fst] in L. rewrite L. f_equal. apply IH. intros e I. apply H. now right.
Qed.

Lemma numbered_range kvs :
  forall n s kv, In (s, kv) (numbered n kvs) ->
                 n < s <= n + Z.of_nat (length kvs).
Proof.
  induction kvs as [|kv0 kvs IH]; intros n s kv; cbn [numbered length].
  - intros [].
  - rewrite Nat2Z.inj_succ. intros [E|I].
    + assert (s = n + 1) by congruence. lia.
    + apply IH in I. lia.
Qed.

Lemma numbered_combine kvs :
  forall n,
    numbered n kvs =
    combine (map (fun i => n + Z.of_nat i) (seq 1 (length kvs))) kvs.
Proof.
  induction kvs as [|kv kvs IH]; intros n; cbn [numbered length seq map combine].
  - reflexivity.
  - f_equal. rewrite IH. f_equal.
    rewrite <- (seq_shift (length kvs) 1), map_map.
    apply map_ext. intros i. lia.
Qed.

Lemma numbered_fst kvs :
  forall n,
    map fst (numbered n kvs) =
    map (fun i => n + Z.of_nat i) (seq 1 (length kvs)).
Proof.
  induction kvs as [|kv kvs IH]; intros n; cbn [numbered length seq map].
  - reflexivity.
  - cbn [fst]. f_equal. rewrite IH.
    rewrite <- (seq_shift (length kvs) 1), map_map.
    apply map_ext. intros i. lia.
Qed.

Lemma put_all_from kvs :
  forall st,
    consistent st -> writable st = true ->
    counter st + Z.of_nat (length kvs) < 2 ^ 64 ->
    NoDup (map fst kvs) -> Forall admissible kvs ->
    (forall kv, In kv kvs -> kv_get (fst kv) (data_entries st) = None) ->
    exists st',
      put_all kvs st =
        Return (map fst (numbered (counter st) kvs), None) st' /\
      consistent st' /\
      seq_entries st' =
        seq_entries st ++
        map (fun x => (PutUint64 (fst x), fst (snd x)))
            (numbered (counter st) kvs) /\
      (forall k : bytes, ~ In k (map fst kvs) ->
         kv_get k (data_entries st') = kv_get k (data_entries st)) /\
      (forall s (k p : bytes), In (s, (k, p)) (numbered (counter st) kvs) ->
         kv_get k (data_entries st') = Some (newValue s p)).
Proof.
  induction kvs as [|[k p] kvs IH]; intros st C W B D A F.
  - exists st. cbn [put_all numbered map]. rewrite app_nil_r.
    split; [reflexivity|]. split; [exact C|]. split; [reflexivity|].
    split; [reflexivity|]. intros s k p [].
  - cbn [length] in B. rewrite Nat2Z.inj_succ in B.
    assert (R : 0 <= counter st) by (destruct C; lia).
    pose proof (F (k, p) (or_introl eq_refl)) as G. cbn [fst] in G.
    pose proof (Forall_inv A) as (K & Lk & Lp). cbn [fst snd] in K, Lk, Lp.
    destruct (Put_returns k p st W K Lk Lp) as (s & st1 & H).
    { intros v Gv. congruence. }
    pose proof (Put_success _ _ _ _ _ H)
      as (_ & W1 & Hs & Hc & _ & _ & Hd & Hq & _).
    rewrite Z.mod_small in Hs by lia.
    destruct (Put_consistent k p st s st1 C ltac:(lia) H) as (C1 & E1).
    rewrite (kv_del_absent _ _ G) in Hd.
    unfold retired_seq in Hq. rewrite G in Hq.
    rewrite kv_put_last in Hq.
    2:{ intros [sb k'] I. cbn [fst].
        pose proof (In_kv_get _ _ _ (seq_sorted _ _ _ C) I) as Gq.
        destruct (seq_to_data _ _ _ C _ _ Gq) as (s0 & _ & -> & R0 & _).
        apply PutUint64_lt; lia. }
    cbn [map] in D. apply NoDup_cons_iff in D. destruct D as (Nk & D).
    destruct (IH st1 C1 W1 ltac:(lia) D (Forall_inv_tail A))
      as (st' & HP & C' & Hq' & Hf & Hn).
    { intros kv I. rewrite Hd, kv_get_put_other; [apply F; now right|].
      intros E. apply Nk. rewrite E. exact (in_map fst _ _ I). }
    exists st'. cbn [put_all numbered map fst snd]. unfold bind at 1.
    rewrite H. unfold bind at 1. rewrite HP. rewrite E1, <- Hs.
    split; [reflexivity|]. split; [exact C'|]. split; [|split].
    + rewrite Hq', Hq, E1, <- Hs, <- app_assoc. reflexivity.
    + intros k0 N. cbn [map fst] in N. rewrite Hf, Hd.
      * apply kv_get_put_other. intros E. apply N. now left.
      * intros I. apply N. now right.
    + intros s0 k0 p0 [E|I].
      * assert (s0 = s) by congruence. assert (k0 = k) by congruence.
        assert (p0 = p) by congruence. subst s0 k0 p0.
        rewrite Hf by exact Nk. rewrite Hd. apply kv_get_put_same.
      * apply Hn. rewrite E1, <- Hs. exact I.
Qed.

(** X18. The test that puts many keys: in a writable location where nothing
    was put before, putting pairs with distinct keys that the store accepts
    returns the numbers 1, 2, 3 and so on; afterwards [GetSeq] of the n-th
    number gives the n-th key, [Get] of the n-th key gives a valid value with
    the n-th number and the n-th payload, and the loop with the cursor reads
    number, key and payload of every pair in the order in which they were
    put, with no error. *)
Theorem put_many_then_scan (kvs : list (bytes * bytes)) :
  NoDup (map fst kvs) -> Forall admissible kvs ->
  Z.of_nat (length kvs) < 2 ^ 64 ->
  exists st,
    put_all kvs (empty true) = Return (numbers (length kvs), None) st /\
    consistent st /\
    Forall (fun x =>
              let '(s, (k, p)) := x in
              Bucket.GetSeq s st = Return (Some k) st /\
              exists v, Bucket.Get k st = Return (Some v) st /\
                        Value.IsValid v = true /\
                        Value.Seq v = Some s /\ Value.Data v = Some p)
           (combine (numbers (length kvs)) kvs) /\
    forall fuel, (length kvs <= fuel)%nat ->
      scan_all fuel st =
        Some (map (fun x => (fst x, fst (snd x), Some (snd (snd x)), None))
                  (combine (numbers (length kvs)) kvs)).
Proof.
  intros D A B.
  destruct (put_all_from kvs (empty true) (consistent_empty true) eq_refl)
    as (st & HP & C & Hq & _ & Hn); auto.
  change (counter (empty true)) with 0 in *.
  change (seq_entries (empty true)) with (@nil entry) in Hq.
  cbn [app] in Hq.
  assert (N : numbers (length kvs) = map fst (numbered 0 kvs)).
  { rewrite numbered_fst. unfold numbers. apply map_ext. intros i. lia. }
  assert (Cb : combine (numbers (length kvs)) kvs = numbered 0 kvs).
  { rewrite numbered_combine. reflexivity. }
  exists st. rewrite Cb, N. split; [exact HP|]. split; [exact C|].
  assert (item : forall s (k p : bytes), In (s, (k, p)) (numbered 0 kvs) ->
            0 <= s < 2 ^ 64 /\
            kv_get (PutUint64 s) (seq_entries st) = Some k /\
            kv_get k (data_entries st) = Some (newValue s p)).
  { intros s k p I. pose proof (numbered_range _ _ _ _ I) as R.
    split; [lia|]. split; [|now apply Hn].
    apply In_kv_get; [exact (seq_sorted _ _ _ C)|].
    rewrite Hq. apply in_map_iff. exists (s, (k, p)). auto. }
  split.
  - apply Forall_forall. intros [s [k p]] I.
    destruct (item s k p I) as (R & Gq & Gd).
    split; [now apply GetSeq_live|].
    exists (newValue s p). rewrite Get_eq, Gd. split; [reflexivity|].
    split; [reflexivity|]. split; [|reflexivity].
    rewrite Seq_newValue. now rewrite Z.mod_small.
  - intros fuel F. rewrite scan_all_eq; auto.
    2:{ rewrite Hq, length_map, <- Cb, length_combine.
        unfold numbers. rewrite length_map, length_seq. lia. }
    rewrite Hq, map_map. f_equal. apply map_ext_in.
    intros [s [k p]] I. destruct (item s k p I) as (R & Gq & Gd).
    unfold reading. cbn [fst snd]. rewrite Gd. cbn [option_map].
    change (firstn 8 (PutUint64 s)) with (PutUint64 s).
    rewrite be_val_PutUint64, Z.mod_small by auto. reflexivity.
Qed.

(** ** [Data] on any indices *)

Lemma pointer_Get_eq (k : bytes) p st :
  sorted (data_entries st) -> coherent p st ->
  (pointer.c p = None <-> dataBucket st = None) -> k <> [] ->
  exists p',
    pointer.Get (Some k) p st =
      Return (kv_get k (data_entries st),
              match kv_get k (data_entries st) with
              | Some _ => true | None => false end, p') st.
Proof.
  intros S C N K. unfold pointer.Get, bind.
  rewrite move_transparent by auto. unfold AlwaysMiss.move.
  destruct (pointer.c p) as [[h s]|] eqn:E.
  - unfold coherent in C. rewrite E in C. destruct C as (Hb & _).
    cbn in Hb. subst h.
    destruct st as [w [[de dq]|] q].
    2:{ destruct N as [_ N]. specialize (N eq_refl). discriminate. }
    unfold bolt_Seek. exec. cbn [data_entries dataBucket entries].
    rewrite kv_get_search. unfold bytes_Equal.
    destruct (nth_error de (search k de)) as [[k' v]|]; exec.
    + destruct (bytes_eqb k' k); eexists; reflexivity.
    + assert (F : bytes_eqb [] k = false)
        by (apply bytes_eqb_neq; congruence).
      rewrite F. eexists; reflexivity.
  - destruct N as [N _]. specialize (N eq_refl).
    unfold data_entries. rewrite N. eexists; reflexivity.
Qed.

(** X19. [Data] of a cursor with a key, on any indices with a store-ordered
    data bucket, damaged or not: [ErrInvalidKey] when [Get] does not find
    the key of the cursor, also when there is no data bucket;
    [ErrInvalidValue] when the value found has fewer than eight bytes;
    otherwise the data of that value and no error.  It never panics and
    leaves the location as it is. *)
Theorem Data_outcome (calls : list Look) (st : Location) (ok : bool)
    (c : Cursor.t) :
  sorted (data_entries st) ->
  session calls st = Return (ok, c) st ->
  content (Cursor.Key c) <> [] ->
  exists r c',
    Bucket.Get (content (Cursor.Key c)) st = Return r st /\
    Cursor.Data c st =
      Return (match r with
              | None => (None, Some ErrInvalidKey)
              | Some v =>
                  if Value.IsValid v then (Value.Data v, None)
                  else (None, Some ErrInvalidValue)
              end, c') st.
Proof.
  intros S H K. destruct (session_inv _ _ _ _ _ H) as (_ & B & _).
  destruct B as (P & N & _). unfold Cursor.Key in *.
  destruct (Cursor.key c) as [k|] eqn:Hk; cbn [content] in *; [|congruence].
  destruct (pointer_Get_eq k (Cursor.dp c) st S P N K) as (p' & HG).
  exists (kv_get k (data_entries st)), (Cursor.set_dp p' c).
  split; [apply Get_eq|].
  unfold Cursor.Data, bind at 1. rewrite Hk, HG.
  destruct (kv_get k (data_entries st)) as [v|]; cbn [negb content].
  - unfold Value.Data. destruct (Value.IsValid v); reflexivity.
  - reflexivity.
Qed.

(** ** [Put] and then [Delete]; [Put] and then a cursor *)





(** ** The properties above on the samples *)

Lemma Data_of_current_item_witness :
  session [LMove MFirst] sample = Return (true, first_cursor) sample /\
  exists d c',
    Cursor.Data first_cursor sample = Return (Some d, None, c') sample.
Proof.
  assert (H : session [LMove MFirst] sample = Return (true, first_cursor) sample)
    by reflexivity.
  destruct (Data_of_current_item [LMove MFirst] sample first_cursor
              sample_consistent H) as (v & d & c' & HD & _).
  split; [exact H|]. exists d, c'. exact HD.
Defined.

Lemma Seek_least_witness :
  session [] sample = Return (false, new_cursor) sample /\
  exists ok c,
    Cursor.Seek 2 new_cursor sample = Return (ok, c) sample /\
    Cursor.Err c = None.
Proof.
  assert (H : session [] sample = Return (false, new_cursor) sample)
    by reflexivity.
  assert (R : 0 <= 2 < 2 ^ 64) by lia.
  destruct (Seek_least [] sample false new_cursor 2 sample_consistent R H)
    as (ok & c & P & E & _).
  split; [exact H|]. exists ok, c. auto.
Defined.

Lemma Next_successor_witness :
  session [LMove MFirst] sample = Return (true, first_cursor) sample /\
  exists ok c',
    Cursor.Next first_cursor sample = Return (ok, c') sample /\
    Cursor.Err c' = None.
Proof.
  assert (H : session [LMove MFirst] sample = Return (true, first_cursor) sample)
    by reflexivity.
  destruct (Next_successor [LMove MFirst] sample first_cursor
              sample_consistent H) as (ok & c' & P & E & _).
  split; [exact H|]. exists ok, c'. auto.
Defined.

Lemma Prev_predecessor_witness :
  session [LMove MLast] sample = Return (true, last_cursor) sample /\
  exists ok c',
    Cursor.Prev last_cursor sample = Return (ok, c') sample /\
    Cursor.Err c' = None.
Proof.
  assert (H : session [LMove MLast] sample = Return (true, last_cursor) sample)
    by reflexivity.
  destruct (Prev_predecessor [LMove MLast] sample last_cursor
              sample_consistent H) as (ok & c' & P & E & _).
  split; [exact H|]. exists ok, c'. auto.
Defined.

Lemma First_Last_extremes_witness :
  session [] sample = Return (false, new_cursor) sample /\
  exists ok cf cl,
    Cursor.First new_cursor sample = Return (ok, cf) sample /\
    Cursor.Last new_cursor sample = Return (ok, cl) sample.
Proof.
  assert (H : session [] sample = Return (false, new_cursor) sample)
    by reflexivity.
  destruct (First_Last_extremes [] sample false new_cursor
              sample_consistent H) as (ok & cf & cl & Pf & Pl & _).
  split; [exact H|]. exists ok, cf, cl. auto.
Defined.


Lemma DeleteSeq_is_Delete_witness :
  Bucket.GetSeq 3 sample = Return (Some key_b) sample /\
  Bucket.DeleteSeq 3 sample = Bucket.Delete key_b sample.
Proof.
  assert (G : Bucket.GetSeq 3 sample = Return (Some key_b) sample)
    by reflexivity.
  assert (R : 0 <= 3 < 2 ^ 64) by lia.
  split; [exact G|].
  exact (DeleteSeq_is_Delete sample 3 key_b sample_consistent R G).
Defined.

Lemma Put_frame_witness :
  Bucket.Put key_b data_v sample = Return (5, None) sample_put /\
  (forall s' (k' : bytes), 0 <= s' < 2 ^ 64 ->
     Bucket.GetSeq s' sample = Return (Some k') sample -> s' < 5).
Proof.
  assert (H : Bucket.Put key_b data_v sample = Return (5, None) sample_put)
    by reflexivity.
  assert (B : counter sample + 1 < 2 ^ 64) by (cbn; lia).
  destruct (Put_frame key_b data_v sample sample_put 5 sample_consistent B H)
    as (F & _).
  split; [exact H|exact F].
Defined.



Lemma Delete_frame_witness :
  Bucket.Delete key_x sample = Return None sample_del /\
  Bucket.Get key_x sample_del = Return None sample_del /\
  counter sample_del = counter sample.
Proof.
  assert (H : Bucket.Delete key_x sample = Return None sample_del)
    by reflexivity.
  destruct (Delete_frame key_x sample sample_del sample_consistent H)
    as (G & _ & _ & E).
  split; [exact H|]. split; [exact G|exact E].
Defined.

Lemma value_is_newValue_witness :
  Value.IsValid (newValue 1 data_v) = true /\
  exists s d,
    Value.Seq (newValue 1 data_v) = Some s /\
    Value.Data (newValue 1 data_v) = Some d /\
    newValue 1 data_v = newValue s d.
Proof.
  split; [reflexivity|].
  destruct (value_is_newValue (newValue 1 data_v) eq_refl)
    as (s & d & Hs & Hd & _ & E).
  exists s, d. auto.
Defined.

Lemma seqBytes_order_witness :
  bytes_compare (PutUint64 3) (PutUint64 260) = (3 ?= 260).
Proof.
  assert (Ra : 0 <= 3 < 2 ^ 64) by lia.
  assert (Rb : 0 <= 260 < 2 ^ 64) by lia.
  exact (seqBytes_order 3 260 data_v data_w (PutUint64 3) (PutUint64 260)
           Ra Rb eq_refl eq_refl).
Defined.

Lemma scan_reads_all_witness :
  exists r,
    scan_all 3 sample = Some r /\
    forward 3 sample = Some (map (fun x => fst (fst x)) r).
Proof.
  assert (F : (length (visited sample) <= 3)%nat) by (cbn; lia).
  destruct (scan_reads_all sample 3 sample_consistent F) as (r & S & W & _).
  exists r. auto.
Defined.

Lemma put_many_then_scan_witness :
  exists st,
    put_all [(key_x, data_v); (key_a, data_w)] (empty true) =
      Return ([1; 2], None) st /\
    scan_all 2 st =
      Some [(1, key_x, Some data_v, None); (2, key_a, Some data_w, None)].
Proof.
  assert (D : NoDup (map fst [(key_x, data_v); (key_a, data_w)])).
  { repeat constructor.
    - intros [E|[]]. discriminate.
    - intros []. }
  assert (A : Forall admissible [(key_x, data_v); (key_a, data_w)]).
  { repeat constructor; try discriminate;
      cbn; unfold MaxKeySize, MaxValueSize; lia. }
  assert (B : Z.of_nat (length [(key_x, data_v); (key_a, data_w)]) < 2 ^ 64)
    by (cbn; lia).
  destruct (put_many_then_scan [(key_x, data_v); (key_a, data_w)] D A B)
    as (st & HP & _ & _ & S).
  exists st. split; [exact HP|]. apply (S 2%nat). cbn. lia.
Defined.

Lemma Data_outcome_witness :
  session [LMove MFirst] sample = Return (true, first_cursor) sample /\
  exists r c',
    Bucket.Get key_x sample = Return r sample /\
    Cursor.Data first_cursor sample =
      Return (match r with
              | None => (None, Some ErrInvalidKey)
              | Some v =>
                  if Value.IsValid v then (Value.Data v, None)
                  else (None, Some ErrInvalidValue)
              end, c') sample.
Proof.
  assert (H : session [LMove MFirst] sample = Return (true, first_cursor) sample)
    by reflexivity.
  assert (K : content (Cursor.Key first_cursor) <> []) by discriminate.
  destruct (Data_outcome [LMove MFirst] sample true first_cursor
              (data_sorted _ _ _ sample_consistent) H K)
    as (r & c' & G & D).
  split; [exact H|]. exists r, c'. auto.
Defined.


